(** * Dynamic relation resolution engine of api-go

    A shallow embedding of the relation resolver of [routes/page.go]
    ([quoteIdent], [pivotTableName], [batchLoadRelated] and the body of the
    [GET /page/:id] handler) and of the dynamic mutation layer
    ([InsertDynamic], [InsertPivotM2M], [ClearPivot], [UpdateDynamic]).

    Go maps are [gmap]s, Go sets ([map[string]struct{}]) are [gset]s, slices
    are lists, strings are byte strings.  The database behind [*sql.DB] is
    the environment: the read path sees it as a query oracle, the write path
    as a state machine; both keep the log of the statements they were sent. *)

From Stdlib Require Import Ascii DecimalString ZArith.
From stdpp Require Import gmap strings list fin_maps sorting.

Set Warnings "-register-all".

Local Open Scope Z_scope.
Local Open Scope nat_scope.

(** ** Strings *)

Module Str.

Definition dquote : ascii := Ascii.ascii_of_nat 34.
Definition colon : ascii := Ascii.ascii_of_nat 58.

(** [strings.ReplaceAll(s, old, new)] for a one-byte [old]. *)
Fixpoint ReplaceAll (s : string) (old : ascii) (new : string) : string :=
  match s with
  | EmptyString => EmptyString
  | String c s' =>
      if Ascii.eqb c old then new +:+ ReplaceAll s' old new
      else String c (ReplaceAll s' old new)
  end.

(** [strings.Join(elems, sep)]. *)
Definition Join (elems : list string) (sep : string) : string :=
  String.concat sep elems.

(** [strings.ToLower] on the ASCII range: bytes [A]..[Z] are moved to
    [a]..[z], every other byte is kept (the case tables Go applies to the
    runes beyond ASCII are not part of this model). *)
Definition lower_byte (c : ascii) : ascii :=
  let n := Ascii.nat_of_ascii c in
  if (65 <=? n) && (n <=? 90) then Ascii.ascii_of_nat (n + 32) else c.

Fixpoint ToLower (s : string) : string :=
  match s with
  | EmptyString => EmptyString
  | String c s' => String (lower_byte c) (ToLower s')
  end.

(** [%d] of a non-negative [int] and of an [int64]. *)
Definition itoa (n : nat) : string :=
  NilEmpty.string_of_uint (Nat.to_uint n).

Definition FormatInt (z : Z) : string :=
  NilEmpty.string_of_int (Z.to_int z).

Definition FormatBool (b : bool) : string :=
  if b then "true" else "false".

Fixpoint contains (c : ascii) (s : string) : bool :=
  match s with
  | EmptyString => false
  | String c' s' => Ascii.eqb c c' || contains c s'
  end.



End Str.

(** ** Identifier sanitizer *)

(** [quoteIdent]: double every embedded quote, wrap in quotes. *)
Definition quoteIdent (ident : string) : string :=
  let safe := Str.ReplaceAll ident Str.dquote (String Str.dquote (String Str.dquote EmptyString)) in
  String Str.dquote safe +:+ String Str.dquote EmptyString.

(** The reader the database side applies to a quoted identifier at the head
    of a statement: it undoes [quoteIdent] and returns what follows. *)
Fixpoint unquote_body (s : string) : option (string * string) :=
  match s with
  | EmptyString => None
  | String c s' =>
      if Ascii.eqb c Str.dquote then
        match s' with
        | String c' s'' =>
            if Ascii.eqb c' Str.dquote then
              '(t, rest) ← unquote_body s''; Some (String Str.dquote t, rest)
            else Some (EmptyString, s')
        | EmptyString => Some (EmptyString, EmptyString)
        end
      else '(t, rest) ← unquote_body s'; Some (String c t, rest)
  end.

(** What follows a quoted identifier in a statement does not start with a
    quote. *)
Definition startsQuote (s : string) : bool :=
  match s with
  | String c _ => Ascii.eqb c Str.dquote
  | EmptyString => false
  end.

Definition readIdent (s : string) : option (string * string) :=
  match s with
  | String c s' => if Ascii.eqb c Str.dquote then unquote_body s' else None
  | EmptyString => None
  end.

(** ** Untyped values *)

(** What an [any] holds on this path: the values the SQL driver scans into an
    [interface{}] ([nil], [int64], [float64], [bool], [[]byte], [string]) and
    the two shapes materialization stores ([map[string]any], [[]any]).  A
    [float64] is carried as the text its shortest [%g] rendering prints. *)
Inductive value : Type :=
  | VNil
  | VBool (b : bool)
  | VInt (z : Z)
  | VFloat (g : string)
  | VString (s : string)
  | VBytes (bs : list Byte.byte)
  | VMap (m : gmap string value)
  | VList (l : list value).

Abbreviation Row := (gmap string value).

Definition isNil (v : value) : bool :=
  match v with VNil => true | _ => false end.

(** Keys of a printed map come out sorted. *)
Definition sortKeys (kvs : list (string * string)) : list (string * string) :=
  merge_sort (λ a b : string * string, String.leb a.1 b.1) kvs.

(** [fmt.Sprintf("%v", v)]. *)
Fixpoint Sprintf_v (v : value) : string :=
  match v with
  | VNil => "<nil>"
  | VBool b => Str.FormatBool b
  | VInt z => Str.FormatInt z
  | VFloat g => g
  | VString s => s
  | VBytes bs => "[" +:+ Str.Join ((λ b, Str.itoa (Byte.to_nat b)) <$> bs) " " +:+ "]"
  | VMap m =>
      "map[" +:+
      Str.Join ((λ kv : string * string, kv.1 +:+ ":" +:+ kv.2)
                  <$> sortKeys (map_to_list (Sprintf_v <$> m))) " "
      +:+ "]"
  | VList l => "[" +:+ Str.Join (Sprintf_v <$> l) " " +:+ "]"
  end.

(** ** Relation descriptors and pivot naming *)

Record RelationDefinition : Type := {
  Type_ : string;
  FromColumn : string;
  ToTable : string;
  OnDelete : string;
  PivotTable : string
}.

Definition pivotTableName (pageTable : string) (rel : RelationDefinition) : string :=
  if negb (String.eqb (PivotTable rel) EmptyString) then PivotTable rel
  else Str.ToLower (pageTable +:+ "_" +:+ FromColumn rel +:+ "_" +:+ ToTable rel).

(** ** The database as seen by the read path *)

(** A statement as the driver receives it: the text and the bound arguments. *)
Definition Stmt : Type := string * list value.

(** What [db.Query] hands back on success: the column names and, per row
    delivered by [rs.Next], what [rs.Scan] into [interface{}] cells stored
    ([None] when that [Scan] failed). *)
Record Rows : Type := {
  Columns : list string;
  Scans : list (option (list value))
}.

(** ** Batch related-row loader *)

(** The [$1], [$2], ... of the loop [for i, id := range ids]. *)
Definition placeholders (ids : list string) : list string :=
  imap (λ i _, "$" +:+ Str.itoa (i + 1)) ids.

Definition selectByIds (table : string) (ids : list string) : string :=
  "SELECT * FROM " +:+ quoteIdent table +:+ " WHERE id IN ("
    +:+ Str.Join (placeholders ids) "," +:+ ")".

(** The inner column loop of [batchLoadRelated]: fill [row], remember the
    text of a non-nil [id] cell.  [vals] has one zero-initialised cell per
    column. *)
Definition scanInto (cols : list string) (vals : list value) : Row * string :=
  foldl (λ (acc : Row * string) (ic : nat * string),
           let v := default VNil (vals !! ic.1) in
           (<[ic.2 := v]> acc.1,
            if String.eqb ic.2 "id" && negb (isNil v) then Sprintf_v v else acc.2))
        (∅, EmptyString) (imap pair cols).

Definition cacheKey (table idVal : string) : string := table +:+ ":" +:+ idVal.

(** The text of the [id] cell of a row: empty when the cell is missing or
    [nil]. *)
Definition idText (row : Row) : string :=
  match row !! "id" with
  | Some v => if isNil v then EmptyString else Sprintf_v v
  | None => EmptyString
  end.

(** The body of [for rs.Next()] in [batchLoadRelated]. *)
Definition cacheRow (table : string) (cols : list string)
    (cache : gmap string Row) (scan : option (list value)) : gmap string Row :=
  match scan with
  | None => cache
  | Some vals =>
      let '(row, idVal) := scanInto cols vals in
      if String.eqb idVal EmptyString then cache
      else <[cacheKey table idVal := row]> cache
  end.

(** The statement sent for one demanded table. *)
Definition issued (demand : string * list string) : Stmt :=
  (selectByIds demand.1 demand.2, VString <$> demand.2).

(** Every entry of [cache] sits under the key made of one of [tables] and
    the text of the row's own non-nil [id] cell. *)
Definition keyed (tables : list string) (cache : gmap string Row) : Prop :=
  ∀ key row, cache !! key = Some row →
    ∃ table v, table ∈ tables ∧ row !! "id" = Some v ∧ isNil v = false ∧
               Sprintf_v v ≠ EmptyString ∧ key = cacheKey table (Sprintf_v v).

(** Every key of [cache] is made of one of [tables]. *)
Definition keysOf (tables : list string) (cache : gmap string Row) : Prop :=
  ∀ key, is_Some (cache !! key) → ∃ table idVal, table ∈ tables ∧ key = cacheKey table idVal.

(** A table name without [:]. *)
Definition colonFree (name : string) : Prop := Str.contains Str.colon name = false.

Section Loader.

Variable Query : string → list value → option Rows.

(** One turn of the loop over [fkByTable]. *)
Definition loadTable (st : gmap string Row * list Stmt)
    (demand : string * list string) : gmap string Row * list Stmt :=
  let '(table, ids) := demand in
  match ids with
  | [] => st
  | _ :: _ =>
      let args := VString <$> ids in
      let q := selectByIds table ids in
      match Query q args with
      | None => (st.1, st.2 ++ [(q, args)])
      | Some rs => (foldl (cacheRow table (Columns rs)) st.1 (Scans rs), st.2 ++ [(q, args)])
      end
  end.

(** [batchLoadRelated].  [fkByTable] is given in the order in which the two
    [range] loops happen to walk the map and its id sets (see [ranges]);
    the second component is the log of the queries sent to the database. *)
Definition batchLoadRelated (fkByTable : list (string * list string))
    : gmap string Row * list Stmt :=
  foldl loadTable (∅, []) fkByTable.

End Loader.

(** [order] is one way for [range] to walk the demand map [fk]: every table
    once, with the ids of its set in some order. *)
Definition ranges (fk : gmap string (gset string)) (order : list (string * list string)) : Prop :=
  order.*1 ≡ₚ (map_to_list fk).*1 ∧
  Forall (λ d, ∃ s, fk !! d.1 = Some s ∧ d.2 ≡ₚ elements s) order.

Definition rangeOf (fk : gmap string (gset string)) : list (string * list string) :=
  prod_map id elements <$> map_to_list fk.

(** The tables of a demand map that have at least one id. *)
Definition demanded (fk : gmap string (gset string)) : gmap string (gset string) :=
  filter (λ kv : string * gset string, kv.2 ≠ ∅) fk.

(** The table a [SELECT * FROM ...] statement reads, decoded from its text. *)
Fixpoint stripPrefix (p s : string) : option string :=
  match p, s with
  | EmptyString, _ => Some s
  | String c p', String c' s' => if Ascii.eqb c c' then stripPrefix p' s' else None
  | String _ _, EmptyString => None
  end.

Definition selectTarget (q : string) : option string :=
  s ← stripPrefix "SELECT * FROM " q; fst <$> readIdent s.

(** ** The [GET /page/:id] resolver *)

Definition isManyToMany (rel : RelationDefinition) : bool :=
  String.eqb (Type_ rel) "many-to-many".

Definition isScalarRel (rel : RelationDefinition) : bool :=
  String.eqb (Type_ rel) "one-to-one" || String.eqb (Type_ rel) "one-to-many".

(** [allIDs]: the text of every non-nil [id] cell of the fetched rows. *)
Definition collectIDs (rawRows : list Row) : list string :=
  omap (λ entry : Row,
          match entry !! "id" with
          | Some idv => if isNil idv then None else Some (Sprintf_v idv)
          | None => None
          end) rawRows.

(** The text of the pivot-edge query. *)
Definition pivotQuery (pivot : string) (allIDs : list string) : string :=
  let in_ := "'" +:+ Str.Join allIDs "','" +:+ "'" in
  "SELECT left_id, right_id FROM " +:+ quoteIdent pivot
    +:+ " WHERE left_id IN (" +:+ in_ +:+ ")".

(** [rs.Scan] into a [*string]: [NULL] and composite values are refused. *)
Definition scanString (v : value) : option string :=
  match v with
  | VNil => None
  | VBool b => Some (Str.FormatBool b)
  | VInt z => Some (Str.FormatInt z)
  | VFloat g => Some g
  | VString s => Some s
  | VBytes bs => Some (String.string_of_list_byte bs)
  | VMap _ | VList _ => None
  end.

Definition addEdge (m : gmap string (list string)) (scan : option (list value))
    : gmap string (list string) :=
  match scan with
  | Some [l; r] =>
      match scanString l, scanString r with
      | Some lid, Some rid => <[lid := default [] (m !! lid) ++ [rid]]> m
      | _, _ => m
      end
  | _ => m
  end.

(** Pass 1, scalar relations: [fkByTable[table][id] = struct{}{}]. *)
Definition addFK (m : gmap string (gset string)) (table id : string)
    : gmap string (gset string) :=
  <[table := {[id]} ∪ default ∅ (m !! table)]> m.

(** [(table, id)] is among the demands. *)
Definition registered (fk : gmap string (gset string)) (table id : string) : Prop :=
  ∃ ids, fk !! table = Some ids ∧ id ∈ ids.

(** The cell of [entry] at [column] names no related row: it is missing,
    [nil], or its text is empty. *)
Definition idle (entry : Row) (column : string) : Prop :=
  match entry !! column with
  | Some v => isNil v = true ∨ Sprintf_v v = EmptyString
  | None => True
  end.

Definition collectScalarFK (rel : RelationDefinition)
    (fk : gmap string (gset string)) (entry : Row) : gmap string (gset string) :=
  match entry !! FromColumn rel with
  | Some v =>
      if isNil v then fk
      else
        let idStr := Sprintf_v v in
        if String.eqb idStr EmptyString then fk
        else addFK fk (ToTable rel) idStr
  | None => fk
  end.

Definition collectScalarFKs (rawRows : list Row)
    (fk : gmap string (gset string)) (rel : RelationDefinition) : gmap string (gset string) :=
  if isScalarRel rel then foldl (collectScalarFK rel) fk rawRows else fk.

(** Pass 1, many-to-many relations: every right id of a loaded pivot.  The
    result is a set per table, so the order in which [range] walks [pairs]
    does not show. *)
Definition collectPivotFK (table : string)
    (pivotData : gmap string (gmap string (list string)))
    (fk : gmap string (gset string)) (rel : RelationDefinition) : gmap string (gset string) :=
  if negb (isManyToMany rel) then fk
  else
    match pivotData !! pivotTableName table rel with
    | None => fk
    | Some pairs =>
        foldl (λ fk rights, foldl (λ fk rid, addFK fk (ToTable rel) rid) fk rights)
              fk (map_to_list pairs).*2
    end.

Definition collectDemands (table : string) (rels : list RelationDefinition)
    (rawRows : list Row) (pivotData : gmap string (gmap string (list string)))
    : gmap string (gset string) :=
  foldl (collectPivotFK table pivotData) (foldl (collectScalarFKs rawRows) ∅ rels) rels.

(** Pass 2: the [switch rel.Type] on one row and one relation. *)
Definition resolveRelation (table : string)
    (pivotData : gmap string (gmap string (list string)))
    (objCache : gmap string Row) (entry : Row) (rel : RelationDefinition) : Row :=
  if isScalarRel rel then
    match entry !! FromColumn rel with
    | Some fk =>
        if isNil fk then entry
        else
          let idStr := Sprintf_v fk in
          if String.eqb idStr EmptyString then entry
          else
            match objCache !! cacheKey (ToTable rel) idStr with
            | Some obj => <[FromColumn rel := VMap obj]> entry
            | None => entry
            end
    | None => entry
    end
  else if isManyToMany rel then
    let pivot := pivotTableName table rel in
    let entryID := Sprintf_v (default VNil (entry !! "id")) in
    match pivotData !! pivot with
    | Some pairs =>
        let rightIDs := default [] (pairs !! entryID) in
        if length rightIDs =? 0 then <[FromColumn rel := VList []]> entry
        else
          let list :=
            (λ rid, match objCache !! cacheKey (ToTable rel) rid with
                    | Some obj => VMap obj
                    | None => VString rid
                    end) <$> rightIDs in
          <[FromColumn rel := VList list]> entry
    | None => <[FromColumn rel := VList []]> entry
    end
  else entry.

Definition materializeEntry (table : string) (rels : list RelationDefinition)
    (pivotData : gmap string (gmap string (list string)))
    (objCache : gmap string Row) (entry : Row) : Row :=
  foldl (resolveRelation table pivotData objCache) entry rels.

Section Resolver.

Variable Query : string → list value → option Rows.

(** How [range] walks the demand map handed to [batchLoadRelated]. *)
Variable walk : gmap string (gset string) → list (string * list string).

(** The loop that loads the pivot edges of every many-to-many relation. *)
Definition loadPivot (table : string) (allIDs : list string)
    (st : gmap string (gmap string (list string)) * list Stmt)
    (rel : RelationDefinition) : gmap string (gmap string (list string)) * list Stmt :=
  if negb (isManyToMany rel) || (length allIDs =? 0) then st
  else
    let pivot := pivotTableName table rel in
    let query := pivotQuery pivot allIDs in
    match Query query [] with
    | None => (st.1, st.2 ++ [(query, [])])
    | Some rs => (<[pivot := foldl addEdge ∅ (Scans rs)]> st.1, st.2 ++ [(query, [])])
    end.

(** From the fetched rows to [data]: pivots, demands, batch load,
    substitution.  Second component: the statements sent, in order. *)
Definition resolveRows (table : string) (rels : list RelationDefinition)
    (rawRows : list Row) : list Row * list Stmt :=
  let allIDs := collectIDs rawRows in
  let '(pivotData, log1) := foldl (loadPivot table allIDs) (∅, []) rels in
  let fkByTable := collectDemands table rels rawRows pivotData in
  let '(objCache, log2) := batchLoadRelated Query (walk fkByTable) in
  (materializeEntry table rels pivotData objCache <$> rawRows, log1 ++ log2).

End Resolver.

(** ** Dynamic mutation layer *)

(** A Go [error] is carried as its message. *)
Definition error : Type := string.

Section Mutation.

(** The database behind [*sql.DB]: a state machine fed with statements. *)
Context {DB : Type}.

(** [db.Exec]: the database after the statement, and the error reported. *)
Variable Exec : Stmt → DB → DB * option error.

(** [db.QueryRow(...).Scan(&newID)]: the database after the statement, and
    either the scanned first column or the error. *)
Variable QueryRowScan : Stmt → DB → DB * (string + error).

(** How [range] walks a [fields] map. *)
Variable rangeFields : gmap string value → list (string * value).

(** The connection: the database and the statements sent to it so far. *)
Record Conn : Type := { db : DB; sent : list Stmt }.

Definition exec (query : string) (args : list value) (c : Conn) : Conn * option error :=
  let '(d, err) := Exec (query, args) (db c) in
  ({| db := d; sent := sent c ++ [(query, args)] |}, err).

Definition queryRowScan (query : string) (args : list value) (c : Conn)
    : Conn * (string * option error) :=
  let '(d, r) := QueryRowScan (query, args) (db c) in
  ({| db := d; sent := sent c ++ [(query, args)] |},
   match r with
   | inl newID => (newID, None)
   | inr err => (EmptyString, Some err)
   end).

(** The accumulators of the loop [for col, val := range fields]. *)
Record Builder : Type := { parts : list string; params : list string; bound : list value; next : nat }.

Definition insertStep (b : Builder) (kv : string * value) : Builder :=
  {| parts := parts b ++ [quoteIdent kv.1];
     params := params b ++ ["$" +:+ Str.itoa (next b)];
     bound := bound b ++ [kv.2];
     next := next b + 1 |}.

Definition InsertDynamic (table : string) (fields : gmap string value) (c : Conn)
    : Conn * (string * option error) :=
  if size fields =? 0 then (c, (EmptyString, Some "aucune donnée à insérer"))
  else
    let b := foldl insertStep {| parts := []; params := []; bound := []; next := 1 |}
                   (rangeFields fields) in
    let query :=
      "INSERT INTO " +:+ quoteIdent table +:+ " (" +:+ Str.Join (parts b) ", "
        +:+ ") VALUES (" +:+ Str.Join (params b) ", " +:+ ") RETURNING id" in
    queryRowScan query (bound b) c.

Definition insertPivotQuery (pivotTable : string) : string :=
  "INSERT INTO " +:+ quoteIdent pivotTable +:+ " (left_id, right_id) VALUES ($1, $2)".

(** The loop [for _, r := range rightIDs] with its early [return err]. *)
Fixpoint insertEdges (query leftID : string) (rightIDs : list string) (c : Conn)
    : Conn * option error :=
  match rightIDs with
  | [] => (c, None)
  | r :: rest =>
      let '(c', err) := exec query [VString leftID; VString r] c in
      match err with
      | Some e => (c', Some e)
      | None => insertEdges query leftID rest c'
      end
  end.

Definition InsertPivotM2M (pivotTable leftID : string) (rightIDs : list string) (c : Conn)
    : Conn * option error :=
  if length rightIDs =? 0 then (c, None)
  else insertEdges (insertPivotQuery pivotTable) leftID rightIDs c.

Definition clearPivotQuery (pivotTable : string) : string :=
  "DELETE FROM " +:+ quoteIdent pivotTable +:+ " WHERE left_id = $1".

Definition ClearPivot (pivotTable leftID : string) (c : Conn) : Conn * option error :=
  exec (clearPivotQuery pivotTable) [VString leftID] c.

Definition updateStep (b : Builder) (kv : string * value) : Builder :=
  {| parts := parts b ++ [quoteIdent kv.1 +:+ " = $" +:+ Str.itoa (next b)];
     params := params b;
     bound := bound b ++ [kv.2];
     next := next b + 1 |}.

Definition UpdateDynamic (table id : string) (fields : gmap string value) (c : Conn)
    : Conn * option error :=
  if size fields =? 0 then (c, None)
  else
    let b := foldl updateStep {| parts := []; params := []; bound := []; next := 1 |}
                   (rangeFields fields) in
    let args := bound b ++ [VString id] in
    let q :=
      "UPDATE " +:+ quoteIdent table +:+ " SET " +:+ Str.Join (parts b) ", "
        +:+ " WHERE id = $" +:+ Str.itoa (length args) in
    exec q args c.

(** The sequence of the update path: [ClearPivot], then
    [InsertPivotM2M]; both errors are handed back. *)
Definition clearThenInsert (pivotTable leftID : string) (rightIDs : list string) (c : Conn)
    : Conn * (option error * option error) :=
  let '(c1, err1) := ClearPivot pivotTable leftID c in
  let '(c2, err2) := InsertPivotM2M pivotTable leftID rightIDs c1 in
  (c2, (err1, err2)).

End Mutation.

Arguments Conn : clear implicits.
Arguments Build_Conn {DB} _ _.

(** The statement [InsertPivotM2M] sends for one right id. *)
Definition pivotInsert (pivotTable leftID r : string) : Stmt :=
  (insertPivotQuery pivotTable, [VString leftID; VString r]).

(** The database after [stmts] went through one after the other, each
    without an error; [None] as soon as one is refused. *)
Fixpoint steps {DB : Type} (Exec : Stmt → DB → DB * option error)
    (stmts : list Stmt) (d : DB) : option DB :=
  match stmts with
  | [] => Some d
  | st :: rest =>
      match Exec st d with
      | (d', None) => steps Exec rest d'
      | (_, Some _) => None
      end
  end.

(** ** A reference pivot store *)

(** The storage side of the pivot statements: every pivot table is a bag of
    [(left_id, right_id)] rows kept in insertion order, without constraints.
    It answers the two statements of the pivot layer and refuses the rest. *)
Module PivotStore.

Abbreviation DB := (gmap string (list (string * string))).

Definition insertTail : string := " (left_id, right_id) VALUES ($1, $2)".
Definition deleteTail : string := " WHERE left_id = $1".

Definition keepOthers (leftID : string) (rows : list (string * string)) : list (string * string) :=
  filter (λ e, e.1 ≠ leftID) rows.

Definition edgesOf (leftID : string) (rows : list (string * string)) : list (string * string) :=
  filter (λ e, e.1 = leftID) rows.

Definition insertRow (d : DB) (stmt : string) (args : list value) : DB * option error :=
  match readIdent stmt, args with
  | Some (t, rest), [VString l; VString r] =>
      if String.eqb rest insertTail then
        match d !! t with
        | Some rows => (<[t := rows ++ [(l, r)]]> d, None)
        | None => (d, Some "relation does not exist")
        end
      else (d, Some "syntax error")
  | _, _ => (d, Some "syntax error")
  end.

Definition deleteRows (d : DB) (stmt : string) (args : list value) : DB * option error :=
  match readIdent stmt, args with
  | Some (t, rest), [VString l] =>
      if String.eqb rest deleteTail then
        match d !! t with
        | Some rows => (<[t := keepOthers l rows]> d, None)
        | None => (d, Some "relation does not exist")
        end
      else (d, Some "syntax error")
  | _, _ => (d, Some "syntax error")
  end.

Definition Exec (st : Stmt) (d : DB) : DB * option error :=
  match stripPrefix "INSERT INTO " st.1 with
  | Some stmt => insertRow d stmt st.2
  | None =>
      match stripPrefix "DELETE FROM " st.1 with
      | Some stmt => deleteRows d stmt st.2
      | None => (d, Some "syntax error")
      end
  end.

End PivotStore.

(** ** The dependency tables of a page *)

(** [SELECT * FROM <table>], the statement of the [dependencies] loop (and
    of the row fetch of the list handler). *)
Definition selectAll (table : string) : string :=
  "SELECT * FROM " +:+ quoteIdent table.

(** [row[c] = vals[i]] over the columns: a scanned row as a map. *)
Definition scanEntry (cols : list string) (vals : list value) : Row :=
  foldl (λ (row : Row) (ic : nat * string), <[ic.2 := default VNil (vals !! ic.1)]> row)
        ∅ (imap pair cols).

(** The rows of a result whose [Scan] went through. *)
Definition scannedRows (rs : Rows) : list Row :=
  omap (λ scan, scanEntry (Columns rs) <$> scan) (Scans rs).

Section Dependencies.

Variable Query : string → list value → option Rows.

(** One turn of the loop over the relations: the tables already asked for
    ([loaded]), the [dependencies] map and the statements sent. *)
Definition loadDependency
    (st : gset string * gmap string (list Row) * list Stmt)
    (rel : RelationDefinition) : gset string * gmap string (list Row) * list Stmt :=
  let '(loaded, dependencies, log) := st in
  if decide (ToTable rel ∈ loaded) then st
  else
    let q := selectAll (ToTable rel) in
    match Query q [] with
    | None => ({[ToTable rel]} ∪ loaded, dependencies, log ++ [(q, [])])
    | Some rs =>
        ({[ToTable rel]} ∪ loaded,
         <[FromColumn rel := scannedRows rs]> dependencies,
         log ++ [(q, [])])
    end.

Definition loadDependencies (rels : list RelationDefinition)
    : gset string * gmap string (list Row) * list Stmt :=
  foldl loadDependency (∅, ∅, []) rels.

End Dependencies.

(** ** The [GET /page/:id/:itemId] resolver *)

(** The statement that reads the pivot edges of one item. *)
Definition itemPivotQuery (pivot : string) : string :=
  "SELECT right_id FROM " +:+ quoteIdent pivot +:+ " WHERE left_id = $1".

(** Pass 1 of the item handler on one relation: a scalar that is present
    and not [nil] is registered. *)
Definition itemScalarFK (item : Row) (fk : gmap string (gset string))
    (rel : RelationDefinition) : gmap string (gset string) :=
  if isScalarRel rel then
    match item !! FromColumn rel with
    | Some v => if isNil v then fk else addFK fk (ToTable rel) (Sprintf_v v)
    | None => fk
    end
  else fk.

(** [rs.Scan(&rid)] with its error dropped: a refused [Scan] leaves [rid]
    as it was. *)
Definition scanRid (rid : string) (scan : option (list value)) : string :=
  match scan with
  | Some [v] => default rid (scanString v)
  | _ => rid
  end.

(** The body of [for rs.Next()] of the item handler: the scan variable,
    the right ids gathered for the pivot, the demands. *)
Definition itemEdge (pivot table : string)
    (st : string * gmap string (list string) * gmap string (gset string))
    (scan : option (list value)) : string * gmap string (list string) * gmap string (gset string) :=
  let '(rid, pivotData, fk) := st in
  let rid' := scanRid rid scan in
  (rid', <[pivot := default [] (pivotData !! pivot) ++ [rid']]> pivotData, addFK fk table rid').

(** Pass 2 of the item handler on one relation. *)
Definition resolveItemRelation (table : string)
    (pivotData : gmap string (list string)) (objCache : gmap string Row)
    (item : Row) (rel : RelationDefinition) : Row :=
  if isScalarRel rel then
    match item !! FromColumn rel with
    | Some fk =>
        if isNil fk then item
        else
          match objCache !! cacheKey (ToTable rel) (Sprintf_v fk) with
          | Some obj => <[FromColumn rel := VMap obj]> item
          | None => item
          end
    | None => item
    end
  else if isManyToMany rel then
    let rightIDs := default [] (pivotData !! pivotTableName table rel) in
    let list :=
      (λ rid, match objCache !! cacheKey (ToTable rel) rid with
              | Some obj => VMap obj
              | None => VString rid
              end) <$> rightIDs in
    <[FromColumn rel := VList list]> item
  else item.

Section ItemResolver.

Variable Query : string → list value → option Rows.

Variable walk : gmap string (gset string) → list (string * list string).

(** The loop over the many-to-many relations of the item handler. *)
Definition loadItemPivot (table itemID : string)
    (st : gmap string (list string) * gmap string (gset string) * list Stmt)
    (rel : RelationDefinition) : gmap string (list string) * gmap string (gset string) * list Stmt :=
  let '(pivotData, fk, log) := st in
  if negb (isManyToMany rel) then st
  else
    let pivot := pivotTableName table rel in
    let q := itemPivotQuery pivot in
    match Query q [VString itemID] with
    | None => (pivotData, fk, log ++ [(q, [VString itemID])])
    | Some rs =>
        let '(_, pivotData', fk') :=
          foldl (itemEdge pivot (ToTable rel)) (EmptyString, pivotData, fk) (Scans rs) in
        (pivotData', fk', log ++ [(q, [VString itemID])])
    end.

(** From the fetched [item] to the resolved one.  Second component: the
    statements sent, in order. *)
Definition resolveItem (table : string) (rels : list RelationDefinition)
    (itemID : string) (item : Row) : Row * list Stmt :=
  let fkByTable := foldl (itemScalarFK item) ∅ rels in
  let '(pivotData, fkByTable', log1) :=
    foldl (loadItemPivot table itemID) (∅, fkByTable, []) rels in
  let '(objCache, log2) := batchLoadRelated Query (walk fkByTable') in
  (foldl (resolveItemRelation table pivotData objCache) item rels, log1 ++ log2).

End ItemResolver.

(** ** The [POST /page/:id] handler *)

(** The ids of one many-to-many field of the payload: a string is taken as
    it is, an object gives the text of its [id] when it has one, anything else
    is left out. *)
Definition m2mIDs (arr : list value) : list string :=
  foldl (λ ids a,
           match a with
           | VString val => ids ++ [val]
           | VMap val =>
               match val !! "id" with
               | Some idv => ids ++ [Sprintf_v idv]
               | None => ids
               end
           | _ => ids
           end) [] arr.

(** One turn of the loop that takes the many-to-many fields out of the
    payload. *)
Definition splitField (st : Row * gmap string (list string)) (rel : RelationDefinition)
    : Row * gmap string (list string) :=
  let '(payload, m2mFields) := st in
  if isManyToMany rel then
    match payload !! FromColumn rel with
    | Some (VList arr) => (delete (FromColumn rel) payload, <[FromColumn rel := m2mIDs arr]> m2mFields)
    | _ => (delete (FromColumn rel) payload, m2mFields)
    end
  else st.

(** What the handler answers. *)
Inductive Response : Type :=
  | BadRequest (msg : string)
  | InternalServerError (msg : error)
  | Created (id : string).

Section CreateItem.

Context {DB : Type}.
Variable Exec : Stmt → DB → DB * option error.
Variable QueryRowScan : Stmt → DB → DB * (string + error).
Variable rangeFields : gmap string value → list (string * value).

(** One turn of the loop that writes the pivot edges; an error of
    [InsertPivotM2M] is printed and dropped. *)
Definition writePivot (table newID : string) (m2mFields : gmap string (list string))
    (c : Conn DB) (rel : RelationDefinition) : Conn DB :=
  if negb (isManyToMany rel) then c
  else
    let rightIDs := default [] (m2mFields !! FromColumn rel) in
    let pivotTable := pivotTableName table rel in
    if length rightIDs =? 0 then c
    else (InsertPivotM2M Exec pivotTable newID rightIDs c).1.

(** The handler from the page found and the payload bound. *)
Definition createItem (table : string) (rels : list RelationDefinition)
    (payload : Row) (c : Conn DB) : Conn DB * Response :=
  if String.eqb table EmptyString then (c, BadRequest "TableName manquant")
  else
    let '(simpleFields, m2mFields) := foldl splitField (payload, ∅) rels in
    let '(c1, (newID, err)) := InsertDynamic QueryRowScan rangeFields table simpleFields c in
    match err with
    | Some e => (c1, InternalServerError e)
    | None => (foldl (writePivot table newID m2mFields) c1 rels, Created newID)
    end.

End CreateItem.

(** ** Fetching the rows *)

(** [Bool]: a missing flag counts as [false]. *)
Definition Bool (b : option bool) : bool :=
  match b with
  | None => false
  | Some v => v
  end.

(** The statement of [getColumns], as written in the source. *)
Definition getColumnsQuery : string := "
        SELECT column_name 
        FROM information_schema.columns
        WHERE table_name = $1
        ORDER BY ordinal_position
    ".

Definition selectById (table : string) : string :=
  "SELECT * FROM " +:+ quoteIdent table +:+ " WHERE id = $1".

(** [db.QueryRow(...).Scan(dest...)] with [n] destinations: the error of the
    query, no row, a number of columns other than [n], or a refused [Scan] all
    end in an error; otherwise the cells of the first row. *)
Definition rowScan (res : option Rows) (n : nat) : option (list value) :=
  match res with
  | None => None
  | Some rs =>
      match Scans rs with
      | [] => None
      | scan :: _ => if length (Columns rs) =? n then scan else None
      end
  end.

(** What the handlers answer on the read path. *)
Inductive PageResponse : Type :=
  | PageBadRequest
  | PageNotFound
  | PageError
  | PageItem (item : Row) (dependencies : gmap string (list Row))
  | PageList (data : list Row) (dependencies : gmap string (list Row)).

Section Fetch.

Variable Query : string → list value → option Rows.

Variable walk : gmap string (gset string) → list (string * list string).

(** [getColumns]: the column names of [table]; a row whose [Scan] is
    refused is passed over. *)
Definition getColumns (table : string) : option (list string) :=
  match Query getColumnsQuery [VString table] with
  | None => None
  | Some rs =>
      Some (omap (λ scan, match scan with
                          | Some [v] => scanString v
                          | _ => None
                          end) (Scans rs))
  end.

(** The [GET /page/:id/:itemId] handler from the page found. *)
Definition getItem (deploy : option bool) (table : string)
    (rels : list RelationDefinition) (itemID : string) : PageResponse * list Stmt :=
  if negb (Bool deploy) || String.eqb table EmptyString then (PageBadRequest, [])
  else
    let query := selectById table in
    let row := Query query [VString itemID] in
    let cols := default [] (getColumns table) in
    let log0 := [(query, [VString itemID]); (getColumnsQuery, [VString table])] in
    match rowScan row (length cols) with
    | None => (PageNotFound, log0)
    | Some values =>
        let '(item, log1) := resolveItem Query walk table rels itemID (scanEntry cols values) in
        let '(_, dependencies, log2) := loadDependencies Query rels in
        (PageItem item dependencies, log0 ++ log1 ++ log2)
    end.

(** The [GET /page/:id] handler from the page found. *)
Definition listPage (deploy : option bool) (table : string)
    (rels : list RelationDefinition) : PageResponse * list Stmt :=
  if Bool deploy && negb (String.eqb table EmptyString) then
    match Query (selectAll table) [] with
    | None => (PageError, [(selectAll table, [])])
    | Some rs =>
        let rawRows := scannedRows rs in
        if length rawRows =? 0 then (PageList [] ∅, [(selectAll table, [])])
        else
          let '(data, log1) := resolveRows Query walk table rels rawRows in
          let '(_, dependencies, log2) := loadDependencies Query rels in
          (PageList data dependencies, [(selectAll table, [])] ++ log1 ++ log2)
    end
  else (PageList [] ∅, []).

End Fetch.

(** ** Notions used to state what the handlers do *)

(** No table of the demand map has an empty id set. *)
Definition populated (fk : gmap string (gset string)) : Prop :=
  ∀ table ids, fk !! table = Some ids → ids ≠ ∅.

(** [(table, id)] is asked for by a scalar relation on a row of [rows]. *)
Definition scalarDemand (rels : list RelationDefinition) (rows : list Row)
    (table id : string) : Prop :=
  ∃ rel entry v,
    rel ∈ rels ∧ isScalarRel rel = true ∧ ToTable rel = table ∧ entry ∈ rows ∧
    entry !! FromColumn rel = Some v ∧ isNil v = false ∧
    Sprintf_v v = id ∧ id ≠ EmptyString.

(** [(table, id)] is asked for by an edge of a loaded pivot. *)
Definition pivotDemand (page : string) (rels : list RelationDefinition)
    (pivotData : gmap string (gmap string (list string))) (table id : string) : Prop :=
  ∃ rel pairs lid rights,
    rel ∈ rels ∧ isManyToMany rel = true ∧ ToTable rel = table ∧
    pivotData !! pivotTableName page rel = Some pairs ∧
    pairs !! lid = Some rights ∧ id ∈ rights.

(** The distinct target tables of the relations. *)
Definition targetTables (rels : list RelationDefinition) : gset string :=
  list_to_set (ToTable <$> rels).

(** What one row of a pivot result contributes: its two cells as strings,
    nothing when the row is not two scannable cells. *)
Definition scanEdge (scan : option (list value)) : option (string * string) :=
  match scan with
  | Some [l; r] =>
      match scanString l, scanString r with
      | Some lid, Some rid => Some (lid, rid)
      | _, _ => None
      end
  | _ => None
  end.

(** The right ids that [edges] give for [lid], in the order of [edges]. *)
Definition rightsOf (lid : string) (edges : list (string * string)) : list string :=
  (filter (λ e : string * string, e.1 = lid) edges).*2.

(** The statement of the dependency loop for one table. *)
Definition dependencyQuery (table : string) : Stmt := (selectAll table, []).

(** The state of the dependency loop is in order: the statements sent are
    the dependency queries of a duplicate-free list of tables, which are the
    tables marked as loaded. *)
Definition askedOnce (st : gset string * gmap string (list Row) * list Stmt) : Prop :=
  ∃ tables, NoDup tables ∧ list_to_set tables = st.1.1 ∧ st.2 = dependencyQuery <$> tables.

(** Every entry of [dependencies] holds the scanned rows of the target table
    of a relation with that source column. *)
Definition fromRelations (Query : string → list value → option Rows)
    (rels : list RelationDefinition) (dependencies : gmap string (list Row)) : Prop :=
  ∀ column rows, dependencies !! column = Some rows →
    ∃ rel rs, rel ∈ rels ∧ FromColumn rel = column ∧
              Query (selectAll (ToTable rel)) [] = Some rs ∧ rows = scannedRows rs.

(** The successive values of the scan variable of the item handler, one per
    returned row, starting from [rid]. *)
Fixpoint runningRids (rid : string) (scans : list (option (list value))) : list string :=
  match scans with
  | [] => []
  | scan :: rest => scanRid rid scan :: runningRids (scanRid rid scan) rest
  end.

(** A returned row that [rs.Scan(&rid)] refuses: it leaves every value of
    the scan variable as it is. *)
Definition scanEdgeless (scan : option (list value)) : Prop :=
  ∀ rid, scanRid rid scan = rid.

(** The statement of the item handler for the pivot of one relation. *)
Definition itemPivotStmt (page itemID : string) (rel : RelationDefinition) : Stmt :=
  (itemPivotQuery (pivotTableName page rel), [VString itemID]).

(** The demands of the item handler once both loops of its pass 1 ran. *)
Definition itemDemands (Query : string → list value → option Rows)
    (page itemID : string) (rels : list RelationDefinition) (item : Row)
    : gmap string (gset string) :=
  (foldl (loadItemPivot Query page itemID) (∅, foldl (itemScalarFK item) ∅ rels, []) rels).1.2.

(** The right ids the item handler gathered per pivot. *)
Definition itemPivots (Query : string → list value → option Rows)
    (page itemID : string) (rels : list RelationDefinition) (item : Row)
    : gmap string (list string) :=
  (foldl (loadItemPivot Query page itemID) (∅, foldl (itemScalarFK item) ∅ rels, []) rels).1.1.

(** ** Closed forms of the statements of the mutation layer *)

(** [$first], ..., one placeholder per column. *)
Definition numbered (first n : nat) : list string :=
  (λ i, "$" +:+ Str.itoa i) <$> seq first n.

Definition insertQuery (table : string) (cols : list string) : string :=
  "INSERT INTO " +:+ quoteIdent table +:+ " (" +:+ Str.Join (quoteIdent <$> cols) ", "
    +:+ ") VALUES (" +:+ Str.Join (numbered 1 (length cols)) ", " +:+ ") RETURNING id".

Definition assignments (first : nat) (cols : list string) : list string :=
  imap (λ i col, quoteIdent col +:+ " = $" +:+ Str.itoa (first + i)) cols.

Definition updateQuery (table : string) (cols : list string) : string :=
  "UPDATE " +:+ quoteIdent table +:+ " SET " +:+ Str.Join (assignments 1 cols) ", "
    +:+ " WHERE id = $" +:+ Str.itoa (length cols + 1).

(** The source columns of the many-to-many relations. *)
Definition manyToManyColumns (rels : list RelationDefinition) : list string :=
  FromColumn <$> filter (λ rel, isManyToMany rel = true) rels.

(** ** Sample inputs *)

Definition demoDemand : gmap string (gset string) :=
  <["tags" := {["1"; "2"]}]> (<["users" := ∅]> ∅).

Definition demoRows : Rows :=
  {| Columns := ["id"; "name"];
     Scans := [Some [VInt 7; VString "x"]; Some [VNil; VString "y"]; None] |}.

Definition demoQuery (q : string) (args : list value) : option Rows := Some demoRows.

(** A database in which table [a] is missing and table [a:b] holds the row
    with id [c]; one source row pointing at both. *)
Definition clashQuery (q : string) (args : list value) : option Rows :=
  if String.eqb q (selectByIds "a:b" ["c"])
  then Some {| Columns := ["id"]; Scans := [Some [VString "c"]] |}
  else None.

Definition clashRels : list RelationDefinition :=
  [ {| Type_ := "one-to-one"; FromColumn := "x"; ToTable := "a";
       OnDelete := EmptyString; PivotTable := EmptyString |};
    {| Type_ := "one-to-one"; FromColumn := "y"; ToTable := "a:b";
       OnDelete := EmptyString; PivotTable := EmptyString |} ].

Definition clashRow : Row :=
  <["id" := VInt 1]> (<["x" := VString "b:c"]> (<["y" := VString "c"]> ∅)).

(** A database in which [tags] answers and every other table is missing. *)
Definition partialQuery (q : string) (args : list value) : option Rows :=
  if String.eqb q (selectByIds "tags" ["7"]) then Some demoRows else None.

Definition ownerRel : RelationDefinition :=
  {| Type_ := "one-to-one"; FromColumn := "owner"; ToTable := "users";
     OnDelete := EmptyString; PivotTable := EmptyString |}.

Definition tagsRel : RelationDefinition :=
  {| Type_ := "many-to-many"; FromColumn := "tags"; ToTable := "tags";
     OnDelete := EmptyString; PivotTable := EmptyString |}.

Definition blankOwnerRow : Row := <["id" := VInt 1]> (<["owner" := VString EmptyString]> ∅).

Definition ownedRow : Row := <["id" := VInt 1]> (<["owner" := VString "u1"]> ∅).

Definition demoPivots : gmap string (gmap string (list string)) :=
  {[ "pages_tags_tags" := {[ "1" := ["7"; "9"] ]} ]}.

Definition demoCache : gmap string Row :=
  {[ "tags:7" := <["id" := VInt 7]> (<["name" := VString "x"]> ∅) ]}.

(** A pivot with a foreign key on [right_id]: the right id [ghost] has no
    row in the target table. *)
Definition fkExec (st : Stmt) (d : list (string * string))
    : list (string * string) * option error :=
  match st.2 with
  | [VString l; VString r] =>
      if String.eqb r "ghost" then (d, Some "violates foreign key constraint")
      else (d ++ [(l, r)], None)
  | _ => (d, Some "bad arguments")
  end.

Definition demoStore : PivotStore.DB :=
  {[ "pages_tags_tags" := [("1", "3"); ("2", "7")] ]}.

Definition blankOwnerItem : Row := <["id" := VInt 1]> (<["owner" := VString EmptyString]> ∅).

(** A database whose only pivot holds, for item [1], the right id [7] and a
    row with a [NULL] right id. *)
Definition itemQuery (q : string) (args : list value) : option Rows :=
  if String.eqb q (itemPivotQuery "pages_tags_tags")
  then Some {| Columns := ["right_id"]; Scans := [Some [VString "7"]; Some [VNil]] |}
  else None.

Definition tagsOnlyPayload : Row := {[ "tags" := VList [VString "7"; VString "9"] ]}.

(** * Properties *)

Example quoteIdent_plain : quoteIdent "tags" = String Str.dquote "tags" +:+ String Str.dquote EmptyString.
Proof. reflexivity. Qed.

Example Sprintf_v_map :
  Sprintf_v (VMap (<["name" := VString "x"]> (<["id" := VInt 7]> ∅))) = "map[id:7 name:x]".
Proof. vm_compute. reflexivity. Qed.

Example Sprintf_v_nil : Sprintf_v VNil = "<nil>".
Proof. reflexivity. Qed.

Example selectByIds_two :
  selectByIds "tags" ["a"; "b"] = "SELECT * FROM " +:+ quoteIdent "tags" +:+ " WHERE id IN ($1,$2)".
Proof. reflexivity. Qed.

Example selectTarget_two : selectTarget (selectByIds "ta:gs" ["a"; "b"]) = Some "ta:gs".
Proof. reflexivity. Qed.

(** ** Strings and quoted identifiers *)

Section StringFacts.

Lemma sapp_cons c s t : String c s +:+ t = String c (s +:+ t).
Proof. reflexivity. Qed.

Lemma sapp_nil_l t : EmptyString +:+ t = t.
Proof. reflexivity. Qed.

Lemma sapp_nil_r s : s +:+ EmptyString = s.
Proof. induction s as [|c s IH]; [done|]. by rewrite sapp_cons, IH. Qed.

Lemma sapp_assoc s t u : (s +:+ t) +:+ u = s +:+ t +:+ u.
Proof. induction s as [|c s IH]; [done|]. by rewrite !sapp_cons, IH. Qed.

Lemma stripPrefix_app p s : stripPrefix p (p +:+ s) = Some s.
Proof.
  induction p as [|c p IH]; [by destruct s|].
  rewrite sapp_cons. cbn [stripPrefix]. by rewrite Ascii.eqb_refl.
Qed.




End StringFacts.

Lemma unquote_body_ReplaceAll t rest :
  startsQuote rest = false →
  unquote_body
    (Str.ReplaceAll t Str.dquote (String Str.dquote (String Str.dquote EmptyString))
       +:+ String Str.dquote rest) = Some (t, rest).
Proof.
  intros Hrest. induction t as [|c t IH].
  - cbn [Str.ReplaceAll]. rewrite sapp_nil_l. cbn [unquote_body].
    rewrite Ascii.eqb_refl. destruct rest as [|c' rest']; [done|].
    cbn [startsQuote] in Hrest. by rewrite Hrest.
  - cbn [Str.ReplaceAll]. destruct (Ascii.eqb c Str.dquote) eqn:Hc.
    + apply Ascii.eqb_eq in Hc as ->.
      rewrite !sapp_cons, sapp_nil_l. cbn [unquote_body].
      rewrite !Ascii.eqb_refl. by rewrite IH.
    + rewrite sapp_cons. cbn [unquote_body]. rewrite Hc. by rewrite IH.
Qed.

Lemma readIdent_quoteIdent t rest :
  startsQuote rest = false → readIdent (quoteIdent t +:+ rest) = Some (t, rest).
Proof.
  intros Hrest. unfold quoteIdent.
  rewrite !sapp_cons. cbn [readIdent]. rewrite Ascii.eqb_refl.
  rewrite sapp_assoc, sapp_cons, sapp_nil_l. by apply unquote_body_ReplaceAll.
Qed.

Lemma quoteIdent_inj t t' : quoteIdent t = quoteIdent t' → t = t'.
Proof.
  intros Heq.
  assert (readIdent (quoteIdent t +:+ EmptyString) = readIdent (quoteIdent t' +:+ EmptyString))
    as Hr by (by rewrite Heq).
  rewrite !readIdent_quoteIdent in Hr by done. congruence.
Qed.

Lemma selectTarget_selectByIds table ids :
  selectTarget (selectByIds table ids) = Some table.
Proof.
  unfold selectTarget, selectByIds.
  rewrite stripPrefix_app. cbn [mbind option_bind].
  by rewrite readIdent_quoteIdent.
Qed.

(** ** Pivot naming *)


(** ** Batch loader: the queries sent *)

Section LoaderLog.

Variable Query : string → list value → option Rows.

Lemma loadTable_log st d :
  (loadTable Query st d).2 = st.2 ++ (if decide (d.2 = []) then [] else [issued d]).
Proof.
  destruct d as [table [|id ids]]; cbn [loadTable fst snd].
  - by rewrite decide_True, app_nil_r.
  - rewrite decide_False by done. by destruct (Query _ _).
Qed.

Lemma loadTable_fold_log order st :
  (foldl (loadTable Query) st order).2 =
    st.2 ++ (issued <$> filter (λ d : string * list string, d.2 ≠ []) order).
Proof.
  revert st. induction order as [|d order IH]; intros st; cbn [foldl].
  - by rewrite filter_nil, app_nil_r.
  - rewrite IH, loadTable_log, filter_cons.
    destruct (decide (d.2 = [])) as [He|Hne].
    + rewrite decide_False by (intros H; by apply H). by rewrite app_nil_r.
    + rewrite decide_True by done. by rewrite fmap_cons, <- app_assoc.
Qed.

Lemma batchLoadRelated_log order :
  (batchLoadRelated Query order).2 =
    issued <$> filter (λ d : string * list string, d.2 ≠ []) order.
Proof. unfold batchLoadRelated. by rewrite loadTable_fold_log. Qed.

Lemma batchLoadRelated_targets order :
  selectTarget <$> (batchLoadRelated Query order).2.*1 =
    Some <$> (filter (λ d : string * list string, d.2 ≠ []) order).*1.
Proof.
  rewrite batchLoadRelated_log, <- !list_fmap_compose.
  apply list_fmap_ext. intros _ [t ids] _. cbn. apply selectTarget_selectByIds.
Qed.

End LoaderLog.

Lemma ranges_lookup fk order t ids :
  ranges fk order → (t, ids) ∈ order → ∃ s, fk !! t = Some s ∧ ids ≡ₚ elements s.
Proof.
  intros [_ Hall] Hin. rewrite Forall_forall in Hall. apply (Hall _ Hin).
Qed.

Lemma ranges_NoDup fk order : ranges fk order → NoDup order.*1.
Proof. intros [Hp _]. rewrite Hp. apply NoDup_fst_map_to_list. Qed.

Lemma ranges_rangeOf fk : ranges fk (rangeOf fk).
Proof.
  unfold ranges, rangeOf. split.
  - rewrite <- list_fmap_compose.
    replace (fst ∘ prod_map id elements <$> map_to_list fk) with (map_to_list fk).*1; [done|].
    apply list_fmap_ext. by intros ? [??].
  - apply Forall_fmap, Forall_forall. intros [t s] Hin. exists s.
    split; [by apply elem_of_map_to_list|done].
Qed.

Lemma Permutation_elements_nil (s : gset string) ids :
  ids ≡ₚ elements s → ids = [] ↔ s = ∅.
Proof.
  intros Hp. split.
  - intros ->. symmetry in Hp. apply Permutation_nil_r in Hp.
    by apply elements_empty_inv, leibniz_equiv in Hp.
  - intros ->. rewrite elements_empty in Hp. by apply Permutation_nil_r.
Qed.

Lemma NoDup_fst_filter {A B} (P : A * B → Prop) `{!∀ x, Decision (P x)} (l : list (A * B)) :
  NoDup l.*1 → NoDup (filter P l).*1.
Proof.
  induction l as [|x l IH]; [done|].
  rewrite fmap_cons, NoDup_cons. intros [Hx Hl]. rewrite filter_cons.
  destruct (decide (P x)); [|by apply IH].
  rewrite fmap_cons, NoDup_cons. split; [|by apply IH].
  intros Hin. apply Hx. apply list_elem_of_fmap in Hin as [y [-> Hy]].
  apply list_elem_of_filter in Hy as [_ Hy]. apply list_elem_of_fmap. by exists y.
Qed.

(** The tables for which a query goes out are the tables of the demand map
    with at least one id, whatever the order of the walk. *)
Lemma ranges_demanded fk order :
  ranges fk order →
  (filter (λ d : string * list string, d.2 ≠ []) order).*1 ≡ₚ (map_to_list (demanded fk)).*1.
Proof.
  intros Hr. apply NoDup_Permutation.
  - apply NoDup_fst_filter. by eapply ranges_NoDup.
  - apply NoDup_fst_map_to_list.
  - intros t. rewrite !list_elem_of_fmap. split.
    + intros [[t' ids] [-> Hin]]. apply list_elem_of_filter in Hin as [Hne Hin].
      destruct (ranges_lookup _ _ _ _ Hr Hin) as [s [Hs Hp]].
      exists (t', s). split; [done|]. apply elem_of_map_to_list.
      unfold demanded. apply map_lookup_filter_Some. split; [done|].
      cbn in *. intros He. apply Hne. by apply (Permutation_elements_nil s).
    + intros [[t' s] [-> Hin]]. apply elem_of_map_to_list in Hin.
      unfold demanded in Hin. apply map_lookup_filter_Some in Hin as [Hs Hne].
      assert (t' ∈ order.*1) as Ht.
      { destruct Hr as [Hp _]. rewrite Hp. apply list_elem_of_fmap.
        exists (t', s). split; [done|]. by apply elem_of_map_to_list. }
      apply list_elem_of_fmap in Ht as [[t'' ids] [Heq Hin]]. cbn in Heq; subst t''.
      exists (t', ids). split; [done|]. apply list_elem_of_filter. split; [|done].
      destruct (ranges_lookup _ _ _ _ Hr Hin) as [s' [Hs' Hp]].
      assert (s' = s) as -> by congruence.
      cbn in *. intros He. apply Hne. by apply (Permutation_elements_nil s ids).
Qed.

Lemma NoDup_filter_eq_one {A} `{EqDecision A} (l : list A) x :
  NoDup l → x ∈ l → length (filter (λ y, y = x) l) = 1.
Proof.
  induction l as [|y l IH]; [by intros _ ?%elem_of_nil|].
  rewrite NoDup_cons, elem_of_cons, filter_cons. intros [Hy Hl] Hx.
  destruct (decide (y = x)) as [->|Hne].
  - cbn. f_equal. apply length_zero_iff_nil.
    destruct (filter (λ y, y = x) l) as [|z l'] eqn:Hf; [done|].
    assert (z ∈ filter (λ y, y = x) l) as Hz by (rewrite Hf; left).
    apply list_elem_of_filter in Hz as [-> Hz]. done.
  - destruct Hx as [->|Hx]; [done|]. by apply IH.
Qed.

(** C1.  For every demand map and every order in which it is walked,
    [batchLoadRelated] sends one [SELECT ... WHERE id IN (...)] per table
    with a non-empty id set and none for a table with an empty id set: the
    number of queries is the number of such tables, the tables read (decoded
    from the statements) are those tables, each once, and every statement
    carries the ids of its table as bound arguments. *)
Theorem batchLoadRelated_one_query_per_table
    (Query : string → list value → option Rows)
    (fk : gmap string (gset string)) (order : list (string * list string)) :
  ranges fk order →
  let log := (batchLoadRelated Query order).2 in
  length log = size (demanded fk) ∧
  selectTarget <$> log.*1 ≡ₚ Some <$> (map_to_list (demanded fk)).*1 ∧
  (∀ t s, fk !! t = Some s ∧ s ≠ ∅ →
     length (filter (λ o, o = Some t) (selectTarget <$> log.*1)) = 1) ∧
  (∀ t, fk !! t = Some ∅ ∨ fk !! t = None → Some t ∉ selectTarget <$> log.*1) ∧
  Forall (λ st : Stmt, ∃ t s ids,
            fk !! t = Some s ∧ s ≠ ∅ ∧ ids ≡ₚ elements s ∧ st = issued (t, ids)) log.
Proof.
  intros Hr log.
  assert (selectTarget <$> log.*1 =
          Some <$> (filter (λ d : string * list string, d.2 ≠ []) order).*1) as Htargets.
  { subst log. apply batchLoadRelated_targets. }
  assert (selectTarget <$> log.*1 ≡ₚ Some <$> (map_to_list (demanded fk)).*1) as Hperm.
  { rewrite Htargets. by apply fmap_Permutation, ranges_demanded. }
  assert (NoDup (selectTarget <$> log.*1)) as Hnd.
  { rewrite Hperm. apply (NoDup_fmap_2 _), NoDup_fst_map_to_list. }
  split; [|split; [done|split; [|split]]].
  - apply Permutation_length in Hperm.
    rewrite !length_fmap in Hperm. etrans; [exact Hperm|apply length_map_to_list].
  - intros t s [Hs Hne]. apply NoDup_filter_eq_one; [done|].
    rewrite Hperm. apply list_elem_of_fmap. exists t. split; [done|].
    apply list_elem_of_fmap. exists (t, s). split; [done|].
    apply elem_of_map_to_list, map_lookup_filter_Some. done.
  - intros t Ht. rewrite Hperm. intros Hin.
    apply list_elem_of_fmap in Hin as [t' [[= <-] Hin]].
    apply list_elem_of_fmap in Hin as [[t'' s] [-> Hin]].
    apply elem_of_map_to_list, map_lookup_filter_Some in Hin as [Hs Hne].
    cbn in *. destruct Ht as [Ht|Ht]; congruence.
  - subst log. rewrite batchLoadRelated_log. apply Forall_fmap, Forall_forall.
    intros [t ids] Hin. apply list_elem_of_filter in Hin as [Hne Hin].
    destruct (ranges_lookup _ _ _ _ Hr Hin) as [s [Hs Hp]].
    exists t, s, ids. split; [done|]. split; [|done].
    cbn in Hne. intros He. apply Hne. by apply (Permutation_elements_nil s).
Qed.

Lemma batchLoadRelated_one_query_per_table_witness :
  ranges demoDemand (rangeOf demoDemand) ∧
  let log := (batchLoadRelated (λ _ _, None) (rangeOf demoDemand)).2 in
  length log = size (demanded demoDemand) ∧
  selectTarget <$> log.*1 ≡ₚ Some <$> (map_to_list (demanded demoDemand)).*1 ∧
  (∀ t s, demoDemand !! t = Some s ∧ s ≠ ∅ →
     length (filter (λ o, o = Some t) (selectTarget <$> log.*1)) = 1) ∧
  (∀ t, demoDemand !! t = Some ∅ ∨ demoDemand !! t = None →
     Some t ∉ selectTarget <$> log.*1) ∧
  Forall (λ st : Stmt, ∃ t s ids,
            demoDemand !! t = Some s ∧ s ≠ ∅ ∧ ids ≡ₚ elements s ∧ st = issued (t, ids)) log.
Proof.
  split; [apply ranges_rangeOf|].
  apply (batchLoadRelated_one_query_per_table (λ _ _, None) demoDemand (rangeOf demoDemand)).
  apply ranges_rangeOf.
Defined.

Example batchLoadRelated_demo_log :
  (batchLoadRelated (λ _ _, None) (rangeOf demoDemand)).2 =
    [("SELECT * FROM " +:+ quoteIdent "tags" +:+ " WHERE id IN ($1,$2)", [VString "1"; VString "2"])].
Proof. vm_compute. reflexivity. Qed.

(** In the list handler the number of statements does not grow with the
    number of rows: at most one pivot query per relation, then one batch
    query per demanded table. *)
Lemma loadPivot_fold_log_length Query page allIDs rels st :
  length (foldl (loadPivot Query page allIDs) st rels).2 ≤ length st.2 + length rels.
Proof.
  revert st. induction rels as [|rel rels IH]; intros st; cbn [foldl length]; [lia|].
  etrans; [apply IH|]. unfold loadPivot.
  destruct (negb (isManyToMany rel) || (length allIDs =? 0)); [lia|].
  destruct (Query _ _); cbn [snd]; rewrite length_app; cbn; lia.
Qed.

Lemma resolveRows_query_bound Query walk page rels rows :
  (∀ fk, ranges fk (walk fk)) →
  length (resolveRows Query walk page rels rows).2 ≤
    length rels +
    size (demanded (collectDemands page rels rows
                      (foldl (loadPivot Query page (collectIDs rows)) (∅, []) rels).1)).
Proof.
  intros Hwalk. unfold resolveRows.
  pose proof (loadPivot_fold_log_length Query page (collectIDs rows) rels (∅, [])) as Hlog1.
  destruct (foldl (loadPivot Query page (collectIDs rows)) (∅, []) rels) as [pivotData log1].
  cbn [fst snd] in *.
  pose proof (ranges_demanded _ _ (Hwalk (collectDemands page rels rows pivotData))) as Hperm.
  pose proof (batchLoadRelated_log Query (walk (collectDemands page rels rows pivotData))) as Hlog2.
  destruct (batchLoadRelated Query (walk (collectDemands page rels rows pivotData)))
    as [objCache log2].
  cbn [fst snd] in *. rewrite length_app, Hlog2, length_fmap.
  apply Permutation_length in Hperm. rewrite !length_fmap in Hperm.
  rewrite Hperm, length_map_to_list. cbn [length] in Hlog1. lia.
Qed.

(** ** Batch loader: the cache *)

Lemma scanInto_snoc cols c vals :
  scanInto (cols ++ [c]) vals =
    let acc := scanInto cols vals in
    let v := default VNil (vals !! length cols) in
    (<[c := v]> acc.1,
     if String.eqb c "id" && negb (isNil v) then Sprintf_v v else acc.2).
Proof.
  unfold scanInto. rewrite imap_app, foldl_app. cbn [imap foldl fst snd].
  by rewrite Nat.add_0_r.
Qed.

Lemma scanInto_lookup_None cols vals k :
  k ∉ cols → (scanInto cols vals).1 !! k = None.
Proof.
  induction cols as [|c cols IH] using rev_ind; [done|].
  rewrite elem_of_app, list_elem_of_singleton. intros Hk.
  rewrite scanInto_snoc. cbn [fst]. rewrite lookup_insert_ne by naive_solver.
  apply IH. naive_solver.
Qed.

(** With distinct column names, the remembered id text is the text of the
    row's own [id] cell. *)
Lemma scanInto_idText cols vals :
  NoDup cols → (scanInto cols vals).2 = idText (scanInto cols vals).1.
Proof.
  induction cols as [|c cols IH] using rev_ind; [done|].
  intros Hnd. apply NoDup_app in Hnd as (Hnd & Hc & _).
  rewrite scanInto_snoc. cbn [fst snd]. unfold idText.
  destruct (String.eqb_spec c "id") as [->|Hne]; cbn [andb].
  - rewrite lookup_insert_eq.
    destruct (isNil (default VNil (vals !! length cols))); cbn [negb]; [|done].
    rewrite IH by done. unfold idText.
    rewrite scanInto_lookup_None; [done|].
    intros Hin. apply (Hc _ Hin). by apply list_elem_of_singleton.
  - rewrite lookup_insert_ne by done. by apply IH.
Qed.

Lemma idText_nonempty row :
  idText row ≠ EmptyString →
  ∃ v, row !! "id" = Some v ∧ isNil v = false ∧ Sprintf_v v = idText row.
Proof.
  unfold idText. destruct (row !! "id") as [v|]; [|done].
  destruct (isNil v) eqn:Hv; [done|]. intros _. by exists v.
Qed.

Lemma keyed_mono tables tables' cache :
  tables ⊆ tables' → keyed tables cache → keyed tables' cache.
Proof.
  intros Hsub Hk key row Hrow.
  destruct (Hk key row Hrow) as (t & v & Ht & ?). exists t, v. split; [by apply Hsub|done].
Qed.

Lemma cacheRow_keyed tables table cols cache scan :
  NoDup cols → table ∈ tables → keyed tables cache → keyed tables (cacheRow table cols cache scan).
Proof.
  intros Hnd Ht Hk. destruct scan as [vals|]; [|done]. unfold cacheRow.
  pose proof (scanInto_idText cols vals Hnd) as Hid.
  destruct (scanInto cols vals) as [row idVal]. cbn [fst snd] in Hid.
  destruct (String.eqb_spec idVal EmptyString) as [He|Hne]; [done|].
  intros key row' Hrow'. destruct (decide (cacheKey table idVal = key)) as [<-|Hkey].
  - rewrite lookup_insert_eq in Hrow'. injection Hrow' as <-.
    rewrite Hid in Hne. destruct (idText_nonempty row Hne) as (v & Hv & Hnil & Htext).
    exists table, v. rewrite Hid, Htext. done.
  - rewrite lookup_insert_ne in Hrow' by done. by apply Hk.
Qed.

Lemma cacheRow_omits table cols cache vals :
  NoDup cols → idText (scanInto cols vals).1 = EmptyString →
  cacheRow table cols cache (Some vals) = cache.
Proof.
  intros Hnd He. unfold cacheRow.
  pose proof (scanInto_idText cols vals Hnd) as Hid.
  destruct (scanInto cols vals) as [row idVal]. cbn [fst snd] in *.
  by rewrite Hid, He.
Qed.

Section LoaderCache.

Variable Query : string → list value → option Rows.

Hypothesis Query_columns : ∀ q args rs, Query q args = Some rs → NoDup (Columns rs).

Lemma loadTable_keyed tables st d :
  d.1 ∈ tables → keyed tables st.1 → keyed tables (loadTable Query st d).1.
Proof.
  intros Ht Hk. destruct d as [table [|id ids]]; [done|]. cbn [loadTable].
  destruct (Query _ _) as [rs|] eqn:Hq; [|done]. cbn [fst].
  apply Query_columns in Hq. revert Hk. generalize st.1.
  induction (Scans rs) as [|scan scans IH]; intros cache Hk; [done|].
  cbn [foldl]. apply IH. by apply cacheRow_keyed.
Qed.

Lemma loadTable_fold_keyed tables order st :
  order.*1 ⊆ tables → keyed tables st.1 →
  keyed tables (foldl (loadTable Query) st order).1.
Proof.
  revert st. induction order as [|d order IH]; intros st Hsub Hk; [done|].
  cbn [foldl]. apply IH.
  - intros t Hin. apply Hsub. rewrite fmap_cons. by right.
  - apply loadTable_keyed; [|done]. apply Hsub. rewrite fmap_cons. by left.
Qed.

End LoaderCache.

(** C10.  Every entry of the cache returned by [batchLoadRelated] sits under
    the key [<table>:<id>] of a walked table and of the text of the stored
    row's own, non-nil [id] cell; a scanned row whose [id] cell is [nil],
    missing, or has an empty text leaves the cache as it is, so no such row
    is ever a cache value.  The database is assumed to name the columns of
    a result distinctly. *)
Theorem batchLoadRelated_cache_keys
    (Query : string → list value → option Rows) (order : list (string * list string)) :
  (∀ q args rs, Query q args = Some rs → NoDup (Columns rs)) →
  (∀ key row, (batchLoadRelated Query order).1 !! key = Some row →
     ∃ table v, table ∈ order.*1 ∧ row !! "id" = Some v ∧ isNil v = false ∧
                Sprintf_v v ≠ EmptyString ∧ key = cacheKey table (Sprintf_v v)) ∧
  (∀ key row, (batchLoadRelated Query order).1 !! key = Some row →
     idText row ≠ EmptyString) ∧
  (∀ table q args rs vals cache,
     Query q args = Some rs → idText (scanInto (Columns rs) vals).1 = EmptyString →
     cacheRow table (Columns rs) cache (Some vals) = cache).
Proof.
  intros Hcols.
  assert (keyed order.*1 (batchLoadRelated Query order).1) as Hk.
  { apply loadTable_fold_keyed; [done|done|]. intros key row Hrow.
    cbn in Hrow. by rewrite lookup_empty in Hrow. }
  split; [exact Hk|split].
  - intros key row Hrow. destruct (Hk key row Hrow) as (t & v & _ & Hv & Hnil & Hne & _).
    unfold idText. by rewrite Hv, Hnil.
  - intros table q args rs vals cache Hq He. apply cacheRow_omits; [|done].
    by eapply Hcols.
Qed.

Lemma batchLoadRelated_cache_keys_witness :
  (∀ q args rs, demoQuery q args = Some rs → NoDup (Columns rs)) ∧
  (∀ key row, (batchLoadRelated demoQuery (rangeOf demoDemand)).1 !! key = Some row →
     ∃ table v, table ∈ (rangeOf demoDemand).*1 ∧ row !! "id" = Some v ∧ isNil v = false ∧
                Sprintf_v v ≠ EmptyString ∧ key = cacheKey table (Sprintf_v v)) ∧
  (∀ key row, (batchLoadRelated demoQuery (rangeOf demoDemand)).1 !! key = Some row →
     idText row ≠ EmptyString) ∧
  (∀ table q args rs vals cache,
     demoQuery q args = Some rs → idText (scanInto (Columns rs) vals).1 = EmptyString →
     cacheRow table (Columns rs) cache (Some vals) = cache).
Proof.
  assert (∀ q args rs, demoQuery q args = Some rs → NoDup (Columns rs)) as Hcols.
  { intros q args rs [= <-]. cbn. apply (bool_decide_unpack _). vm_compute. exact I. }
  split; [exact Hcols|].
  exact (batchLoadRelated_cache_keys demoQuery (rangeOf demoDemand) Hcols).
Defined.

Example batchLoadRelated_demo_cache :
  (batchLoadRelated demoQuery (rangeOf demoDemand)).1 =
    {[ "tags:7" := <["id" := VInt 7]> (<["name" := VString "x"]> ∅) ]}.
Proof. vm_compute. reflexivity. Qed.

(** ** Batch loader: a table whose query fails *)

Lemma cacheKey_inj t t' x x' :
  colonFree t → colonFree t' → cacheKey t x = cacheKey t' x' → t = t' ∧ x = x'.
Proof.
  unfold colonFree, cacheKey. revert t'.
  induction t as [|c t IH]; intros [|c' t'] Ht Ht' Heq.
  - rewrite !sapp_nil_l in Heq. by simplify_eq.
  - rewrite sapp_nil_l, !sapp_cons in Heq. injection Heq as <- _.
    cbn in Ht'. by rewrite Ascii.eqb_refl in Ht'.
  - rewrite sapp_nil_l, !sapp_cons in Heq. injection Heq as -> _.
    cbn in Ht. by rewrite Ascii.eqb_refl in Ht.
  - rewrite !sapp_cons in Heq. injection Heq as -> Heq.
    cbn in Ht, Ht'. apply orb_false_iff in Ht as [_ Ht]. apply orb_false_iff in Ht' as [_ Ht'].
    destruct (IH t' Ht Ht' Heq) as [-> ->]. done.
Qed.

Lemma cacheRow_keysOf tables table cols cache scan :
  table ∈ tables → keysOf tables cache → keysOf tables (cacheRow table cols cache scan).
Proof.
  intros Ht Hk. destruct scan as [vals|]; [|done]. unfold cacheRow.
  destruct (scanInto cols vals) as [row idVal].
  destruct (String.eqb idVal EmptyString); [done|].
  intros key Hkey. destruct (decide (cacheKey table idVal = key)) as [<-|Hne].
  - by exists table, idVal.
  - rewrite lookup_insert_ne in Hkey by done. by apply Hk.
Qed.

Section LoaderFailure.

Variable Query : string → list value → option Rows.

Lemma loadTable_keysOf tables st d :
  d.1 ∈ tables → keysOf tables st.1 → keysOf tables (loadTable Query st d).1.
Proof.
  intros Ht Hk. destruct d as [table [|id ids]]; [done|]. cbn [loadTable].
  destruct (Query _ _) as [rs|]; [|done]. cbn [fst].
  revert Hk. generalize st.1.
  induction (Scans rs) as [|scan scans IH]; intros cache Hk; [done|].
  cbn [foldl]. apply IH. by apply cacheRow_keysOf.
Qed.

Lemma batchLoadRelated_keysOf order : keysOf order.*1 (batchLoadRelated Query order).1.
Proof.
  unfold batchLoadRelated.
  assert (keysOf order.*1 (∅ : gmap string Row, [] : list Stmt).1) as Hk.
  { intros key [row Hrow]. cbn in Hrow. by rewrite lookup_empty in Hrow. }
  revert Hk. generalize (∅ : gmap string Row, [] : list Stmt).
  assert (order.*1 ⊆ order.*1) as Hsub by done. revert Hsub.
  generalize order.*1 at 2 3 4. intros tables.
  induction order as [|d order IH]; intros Hsub st Hk; [done|].
  cbn [foldl]. apply IH.
  - intros t Hin. apply Hsub. rewrite fmap_cons. by right.
  - apply loadTable_keysOf; [|done]. apply Hsub. rewrite fmap_cons. by left.
Qed.

(** The cache a turn leaves depends on the cache it found, not on the log. *)
Lemma loadTable_cache st st' d :
  st.1 = st'.1 → (loadTable Query st d).1 = (loadTable Query st' d).1.
Proof.
  intros Heq. destruct d as [table [|id ids]]; [done|]. cbn [loadTable].
  destruct (Query _ _); cbn [fst]; by rewrite Heq.
Qed.

Lemma loadTable_fold_cache order st st' :
  st.1 = st'.1 → (foldl (loadTable Query) st order).1 = (foldl (loadTable Query) st' order).1.
Proof.
  revert st st'. induction order as [|d order IH]; intros st st' Heq; [done|].
  cbn [foldl]. apply IH. by apply loadTable_cache.
Qed.

Lemma loadTable_failed st table ids :
  Query (selectByIds table ids) (VString <$> ids) = None →
  (loadTable Query st (table, ids)).1 = st.1.
Proof.
  intros Hq. destruct ids as [|id ids]; [done|]. cbn [loadTable]. by rewrite Hq.
Qed.

Lemma batchLoadRelated_skip pre table ids post :
  Query (selectByIds table ids) (VString <$> ids) = None →
  (batchLoadRelated Query (pre ++ (table, ids) :: post)).1 =
    (batchLoadRelated Query (pre ++ post)).1.
Proof.
  intros Hq. unfold batchLoadRelated. rewrite !foldl_app. cbn [foldl].
  apply loadTable_fold_cache. by apply loadTable_failed.
Qed.

End LoaderFailure.

(** ** Substitution of one relation *)

Lemma isManyToMany_not_scalar rel : isManyToMany rel = true → isScalarRel rel = false.
Proof.
  unfold isManyToMany, isScalarRel. intros H%String.eqb_eq. by rewrite H.
Qed.

Lemma resolveRelation_scalar_miss table pivotData objCache entry rel :
  isScalarRel rel = true →
  (∀ id, objCache !! cacheKey (ToTable rel) id = None) →
  resolveRelation table pivotData objCache entry rel = entry.
Proof.
  intros Hrel Hmiss. unfold resolveRelation. rewrite Hrel.
  destruct (entry !! FromColumn rel) as [fk|]; [|done].
  destruct (isNil fk); [done|]. destruct (String.eqb _ _); [done|]. by rewrite Hmiss.
Qed.

Lemma resolveRelation_many_to_many table pivotData objCache entry rel :
  isManyToMany rel = true →
  resolveRelation table pivotData objCache entry rel =
    <[FromColumn rel :=
        VList ((λ rid, match objCache !! cacheKey (ToTable rel) rid with
                       | Some obj => VMap obj
                       | None => VString rid
                       end)
                 <$> default [] (pivotData !! pivotTableName table rel
                                   ≫= (.!! Sprintf_v (default VNil (entry !! "id")))))]> entry.
Proof.
  intros Hrel. unfold resolveRelation.
  rewrite (isManyToMany_not_scalar rel Hrel), Hrel.
  destruct (pivotData !! pivotTableName table rel) as [pairs|]; cbn [mbind option_bind]; [|done].
  destruct (pairs !! _) as [[|rid rightIDs]|]; done.
Qed.

(** C5.  When the query for one walked table fails, [batchLoadRelated]
    still hands back a cache, and that cache is the one obtained without the
    failed table, so whatever is resolved from it is the same; the failed
    query was sent.  When, in addition, no walked table has a [:] in its
    name, no key of the cache looks like one of the failed table: a scalar
    relation to it leaves the row as it is and a many-to-many relation to it
    stores the raw right ids. *)
Theorem batchLoadRelated_failed_table
    (Query : string → list value → option Rows)
    (pre post : list (string * list string)) (failed : string) (ids : list string) :
  ids ≠ [] →
  Query (selectByIds failed ids) (VString <$> ids) = None →
  let loaded := batchLoadRelated Query (pre ++ (failed, ids) :: post) in
  loaded.1 = (batchLoadRelated Query (pre ++ post)).1 ∧
  issued (failed, ids) ∈ loaded.2 ∧
  (∀ table rels pivotData entry,
     materializeEntry table rels pivotData loaded.1 entry =
     materializeEntry table rels pivotData (batchLoadRelated Query (pre ++ post)).1 entry) ∧
  (NoDup (pre ++ (failed, ids) :: post).*1 →
   Forall colonFree (pre ++ (failed, ids) :: post).*1 →
   (∀ id, loaded.1 !! cacheKey failed id = None) ∧
   (∀ table pivotData entry rel,
      isScalarRel rel = true → ToTable rel = failed →
      resolveRelation table pivotData loaded.1 entry rel = entry) ∧
   (∀ table pivotData entry rel,
      isManyToMany rel = true → ToTable rel = failed →
      resolveRelation table pivotData loaded.1 entry rel =
        <[FromColumn rel :=
            VList (VString <$> default [] (pivotData !! pivotTableName table rel
                                    ≫= (.!! Sprintf_v (default VNil (entry !! "id")))))]> entry)).
Proof.
  intros Hids Hq loaded.
  assert (loaded.1 = (batchLoadRelated Query (pre ++ post)).1) as Hskip
    by (by apply batchLoadRelated_skip).
  split; [done|]. split; [|split].
  - subst loaded. rewrite batchLoadRelated_log.
    apply list_elem_of_fmap. exists (failed, ids). split; [done|].
    apply list_elem_of_filter. split; [done|]. rewrite elem_of_app. right. left.
  - intros. by rewrite Hskip.
  - intros Hnd Hfree.
    assert (∀ id, loaded.1 !! cacheKey failed id = None) as Hmiss.
    { intros id. rewrite Hskip. apply eq_None_not_Some. intros Hsome.
      destruct (batchLoadRelated_keysOf Query (pre ++ post) _ Hsome) as (t & x & Ht & Heq).
      rewrite fmap_app, fmap_cons in Hnd, Hfree. cbn [fst] in Hnd, Hfree.
      apply NoDup_app in Hnd as (_ & Hpre & Hpost). apply NoDup_cons in Hpost as [Hpost _].
      rewrite Forall_app, Forall_cons in Hfree. destruct Hfree as (Hfpre & Hffailed & Hfpost).
      assert (colonFree t) as Hft.
      { rewrite fmap_app, elem_of_app in Ht. rewrite Forall_forall in Hfpre, Hfpost.
        destruct Ht as [Ht|Ht]; auto. }
      destruct (cacheKey_inj _ _ _ _ Hffailed Hft Heq) as [<- _].
      rewrite fmap_app, elem_of_app in Ht. destruct Ht as [Ht|Ht]; [|done].
      apply (Hpre _ Ht). left. }
    split; [done|]. split.
    + intros table pivotData entry rel Hrel <-. by apply resolveRelation_scalar_miss.
    + intros table pivotData entry rel Hrel <-.
      rewrite resolveRelation_many_to_many by done. do 2 f_equal.
      apply list_fmap_ext. intros _ rid _. by rewrite Hmiss.
Qed.

Lemma batchLoadRelated_failed_table_witness :
  ["u1"] ≠ [] ∧
  partialQuery (selectByIds "users" ["u1"]) (VString <$> ["u1"]) = None ∧
  let loaded := batchLoadRelated partialQuery ([("tags", ["7"])] ++ ("users", ["u1"]) :: []) in
  loaded.1 = (batchLoadRelated partialQuery ([("tags", ["7"])] ++ [])).1 ∧
  issued ("users", ["u1"]) ∈ loaded.2 ∧
  (∀ table rels pivotData entry,
     materializeEntry table rels pivotData loaded.1 entry =
     materializeEntry table rels pivotData
       (batchLoadRelated partialQuery ([("tags", ["7"])] ++ [])).1 entry) ∧
  (∀ id, loaded.1 !! cacheKey "users" id = None) ∧
  (∀ table pivotData entry rel,
     isScalarRel rel = true → ToTable rel = "users" →
     resolveRelation table pivotData loaded.1 entry rel = entry) ∧
  (∀ table pivotData entry rel,
     isManyToMany rel = true → ToTable rel = "users" →
     resolveRelation table pivotData loaded.1 entry rel =
       <[FromColumn rel :=
           VList (VString <$> default [] (pivotData !! pivotTableName table rel
                                   ≫= (.!! Sprintf_v (default VNil (entry !! "id")))))]> entry).
Proof.
  assert (["u1"] ≠ @nil string) as H1 by done.
  assert (partialQuery (selectByIds "users" ["u1"]) (VString <$> ["u1"]) = None) as H2
    by reflexivity.
  assert (NoDup ([("tags", ["7"])] ++ ("users", ["u1"]) :: []).*1) as H3
    by (apply (bool_decide_unpack _); vm_compute; exact I).
  assert (Forall colonFree ([("tags", ["7"])] ++ ("users", ["u1"]) :: []).*1) as H4
    by (repeat constructor).
  split; [exact H1|]. split; [exact H2|].
  destruct (batchLoadRelated_failed_table partialQuery [("tags", ["7"])] [] "users" ["u1"] H1 H2)
    as (Ha & Hb & Hc & Hd).
  split; [exact Ha|]. split; [exact Hb|]. split; [exact Hc|]. exact (Hd H3 H4).
Defined.

(** The last clause of C5 without the condition on names: table [a] is
    missing, table [a:b] holds a row with id [c], and the foreign key [b:c]
    into [a] comes back as that row. *)
Lemma failed_table_key_clash :
  clashQuery (selectByIds "a" ["b:c"]) (VString <$> ["b:c"]) = None ∧
  rangeOf (collectDemands "pages" clashRels [clashRow] ∅) = [("a:b", ["c"]); ("a", ["b:c"])] ∧
  (resolveRows clashQuery rangeOf "pages" clashRels [clashRow]).1 =
    [ <["x" := VMap {["id" := VString "c"]}]>
        (<["y" := VMap {["id" := VString "c"]}]> clashRow) ].
Proof. vm_compute. repeat split; reflexivity. Qed.

(** ** Demand collection *)

Lemma addFK_registered fk table id : registered (addFK fk table id) table id.
Proof.
  unfold registered, addFK. eexists. rewrite lookup_insert_eq. split; [done|]. set_solver.
Qed.

Lemma addFK_keeps fk table id table' id' :
  registered fk table' id' → registered (addFK fk table id) table' id'.
Proof.
  intros (ids & Hids & Hin). unfold registered, addFK.
  destruct (decide (table = table')) as [->|Hne].
  - eexists. rewrite lookup_insert_eq. split; [done|]. rewrite Hids. cbn. set_solver.
  - exists ids. by rewrite lookup_insert_ne.
Qed.

Lemma collectScalarFK_keeps rel fk entry table id :
  registered fk table id → registered (collectScalarFK rel fk entry) table id.
Proof.
  intros Hreg. unfold collectScalarFK.
  destruct (entry !! FromColumn rel) as [v|]; [|done].
  destruct (isNil v); [done|]. destruct (String.eqb _ _); [done|]. by apply addFK_keeps.
Qed.

Lemma collectScalarFK_fold_keeps rel rows fk table id :
  registered fk table id → registered (foldl (collectScalarFK rel) fk rows) table id.
Proof.
  revert fk. induction rows as [|entry rows IH]; intros fk Hreg; [done|].
  cbn [foldl]. by apply IH, collectScalarFK_keeps.
Qed.

Lemma collectScalarFKs_keeps rows fk rel table id :
  registered fk table id → registered (collectScalarFKs rows fk rel) table id.
Proof.
  intros Hreg. unfold collectScalarFKs. destruct (isScalarRel rel); [|done].
  by apply collectScalarFK_fold_keeps.
Qed.

Lemma collectScalarFKs_fold_keeps rows rels fk table id :
  registered fk table id → registered (foldl (collectScalarFKs rows) fk rels) table id.
Proof.
  revert fk. induction rels as [|rel rels IH]; intros fk Hreg; [done|].
  cbn [foldl]. by apply IH, collectScalarFKs_keeps.
Qed.

Lemma collectPivotFK_keeps page pivotData fk rel table id :
  registered fk table id → registered (collectPivotFK page pivotData fk rel) table id.
Proof.
  intros Hreg. unfold collectPivotFK. destruct (negb _); [done|].
  destruct (pivotData !! _) as [pairs|]; [|done].
  revert fk Hreg. induction (map_to_list pairs).*2 as [|rights rest IH]; intros fk Hreg; [done|].
  cbn [foldl]. apply IH. clear IH. revert fk Hreg.
  induction rights as [|rid rights IH]; intros fk Hreg; [done|].
  cbn [foldl]. by apply IH, addFK_keeps.
Qed.

Lemma collectPivotFK_fold_keeps page pivotData rels fk table id :
  registered fk table id → registered (foldl (collectPivotFK page pivotData) fk rels) table id.
Proof.
  revert fk. induction rels as [|rel rels IH]; intros fk Hreg; [done|].
  cbn [foldl]. by apply IH, collectPivotFK_keeps.
Qed.

Lemma collectScalarFK_registers rel fk entry v :
  entry !! FromColumn rel = Some v → isNil v = false → Sprintf_v v ≠ EmptyString →
  registered (collectScalarFK rel fk entry) (ToTable rel) (Sprintf_v v).
Proof.
  intros Hv Hnil Hne. unfold collectScalarFK. rewrite Hv, Hnil.
  destruct (String.eqb_spec (Sprintf_v v) EmptyString); [done|]. apply addFK_registered.
Qed.

Lemma collectScalarFK_fold_registers rel rows fk entry v :
  entry ∈ rows →
  entry !! FromColumn rel = Some v → isNil v = false → Sprintf_v v ≠ EmptyString →
  registered (foldl (collectScalarFK rel) fk rows) (ToTable rel) (Sprintf_v v).
Proof.
  intros Hin Hv Hnil Hne. revert fk.
  induction rows as [|entry' rows IH]; intros fk; [by apply elem_of_nil in Hin|].
  cbn [foldl]. apply elem_of_cons in Hin as [<-|Hin]; [|by apply IH].
  by apply collectScalarFK_fold_keeps, collectScalarFK_registers.
Qed.

Lemma collectDemands_registers page rels rows pivotData rel entry v :
  isScalarRel rel = true → rel ∈ rels → entry ∈ rows →
  entry !! FromColumn rel = Some v → isNil v = false → Sprintf_v v ≠ EmptyString →
  registered (collectDemands page rels rows pivotData) (ToTable rel) (Sprintf_v v).
Proof.
  intros Hrel Hin Hentry Hv Hnil Hne. unfold collectDemands.
  apply collectPivotFK_fold_keeps. generalize (∅ : gmap string (gset string)).
  induction rels as [|rel' rels IH]; intros fk; [by apply elem_of_nil in Hin|].
  cbn [foldl]. apply elem_of_cons in Hin as [<-|Hin]; [|by apply IH].
  apply collectScalarFKs_fold_keeps. unfold collectScalarFKs. rewrite Hrel.
  by apply (collectScalarFK_fold_registers _ _ _ entry).
Qed.

(** The scalar at [column] asks for nothing: missing, [nil], or with an
    empty text. *)
Lemma collectScalarFK_silent rel fk entry :
  idle entry (FromColumn rel) → collectScalarFK rel fk entry = fk.
Proof.
  unfold idle, collectScalarFK. destruct (entry !! FromColumn rel) as [v|]; [|done].
  destruct (isNil v); [done|]. intros [?|He]; [done|]. by rewrite He.
Qed.

Lemma resolveRelation_frame page pivotData objCache entry rel k :
  k ≠ FromColumn rel →
  resolveRelation page pivotData objCache entry rel !! k = entry !! k.
Proof.
  intros Hk. unfold resolveRelation.
  repeat (case_match; try done); by rewrite lookup_insert_ne.
Qed.

Lemma materializeEntry_frame page pivotData objCache rels entry k :
  k ∉ FromColumn <$> rels →
  materializeEntry page rels pivotData objCache entry !! k = entry !! k.
Proof.
  unfold materializeEntry. revert entry.
  induction rels as [|rel rels IH]; intros entry Hk; [done|].
  rewrite fmap_cons, not_elem_of_cons in Hk. destruct Hk as [Hk Hks].
  cbn [foldl]. rewrite IH by done. by apply resolveRelation_frame.
Qed.

(** C3.  The many-to-many case stores a list at the source column: one
    element per right id of the row's pivot edges, in their order, the cached
    object when the cache has the key [<table>:<right id>] and the raw right
    id string otherwise; with no edge for the row (or no pivot loaded) the
    empty list.  When no other relation is declared on the same column, that
    list is what the resolved row holds there. *)
Theorem many_to_many_stores_list
    (page : string) (pivotData : gmap string (gmap string (list string)))
    (objCache : gmap string Row) (rel : RelationDefinition) :
  isManyToMany rel = true →
  let element := λ rid, match objCache !! cacheKey (ToTable rel) rid with
                        | Some obj => VMap obj
                        | None => VString rid
                        end in
  let rightIDs := λ entry : Row,
    default [] (pivotData !! pivotTableName page rel
                  ≫= (.!! Sprintf_v (default VNil (entry !! "id")))) in
  (∀ entry,
     resolveRelation page pivotData objCache entry rel
       = <[FromColumn rel := VList (element <$> rightIDs entry)]> entry) ∧
  (∀ entry,
     resolveRelation page pivotData objCache entry rel !! FromColumn rel
       = Some (VList (element <$> rightIDs entry))) ∧
  (∀ entry, rightIDs entry = [] →
     resolveRelation page pivotData objCache entry rel !! FromColumn rel = Some (VList [])) ∧
  (∀ rels entry, rel ∈ rels → NoDup (FromColumn <$> rels) →
     ∃ l, materializeEntry page rels pivotData objCache entry !! FromColumn rel
            = Some (VList l)).
Proof.
  intros Hrel element rightIDs.
  assert (∀ entry, resolveRelation page pivotData objCache entry rel
            = <[FromColumn rel := VList (element <$> rightIDs entry)]> entry) as Hstep.
  { intros entry. by apply resolveRelation_many_to_many. }
  split; [done|]. split; [|split].
  - intros entry. by rewrite Hstep, lookup_insert_eq.
  - intros entry He. by rewrite Hstep, lookup_insert_eq, He.
  - intros rels entry Hin Hnd. unfold materializeEntry.
    apply list_elem_of_split in Hin as (before & after & ->).
    rewrite fmap_app, fmap_cons in Hnd.
    apply NoDup_app in Hnd as (_ & _ & Hnd). apply NoDup_cons in Hnd as [Hafter _].
    rewrite foldl_app. cbn [foldl].
    eexists. etrans; [apply (materializeEntry_frame page pivotData objCache after); done|].
    by rewrite Hstep, lookup_insert_eq.
Qed.

Lemma many_to_many_stores_list_witness :
  isManyToMany tagsRel = true ∧
  resolveRelation "pages" demoPivots demoCache (<["id" := VInt 1]> ∅) tagsRel !! "tags"
    = Some (VList [VMap (<["id" := VInt 7]> (<["name" := VString "x"]> ∅)); VString "9"]) ∧
  resolveRelation "pages" demoPivots demoCache (<["id" := VInt 2]> ∅) tagsRel !! "tags"
    = Some (VList []) ∧
  resolveRelation "pages" ∅ demoCache (<["id" := VInt 1]> ∅) tagsRel !! "tags"
    = Some (VList []).
Proof.
  assert (isManyToMany tagsRel = true) as Hrel by reflexivity.
  split; [exact Hrel|].
  pose proof (many_to_many_stores_list "pages" demoPivots demoCache tagsRel Hrel) as (_ & H1 & _).
  pose proof (many_to_many_stores_list "pages" ∅ demoCache tagsRel Hrel) as (_ & H2 & _).
  split; [exact (H1 (<["id" := VInt 1]> ∅))|].
  split; [exact (H1 (<["id" := VInt 2]> ∅))|exact (H2 (<["id" := VInt 1]> ∅))].
Defined.

Lemma idle_nil entry column : entry !! column = Some VNil → idle entry column.
Proof. unfold idle. intros ->. by left. Qed.

Lemma resolveRelation_idle page pivotData objCache entry rel :
  isScalarRel rel = true → idle entry (FromColumn rel) →
  resolveRelation page pivotData objCache entry rel = entry.
Proof.
  intros Hrel. unfold idle, resolveRelation. rewrite Hrel.
  destruct (entry !! FromColumn rel) as [v|]; [|done].
  destruct (isNil v); [done|]. intros [?|He]; [done|]. by rewrite He.
Qed.

(** C4, as the code has it.  For a one-to-one or one-to-many relation: a
    scalar at the source column that is not [nil] and whose text is not empty
    is registered, as [(target table, text)], among the demands of pass 1;
    pass 2 replaces it by the cached object when the cache has the key
    [<table>:<text>] and leaves the row as it is otherwise.  A scalar that is
    missing, [nil], or whose text is empty registers nothing and the row is
    left as it is. *)
Theorem scalar_relation_two_passes (rel : RelationDefinition) :
  isScalarRel rel = true →
  (∀ page rels rows pivotData entry v,
     rel ∈ rels → entry ∈ rows →
     entry !! FromColumn rel = Some v → isNil v = false → Sprintf_v v ≠ EmptyString →
     registered (collectDemands page rels rows pivotData) (ToTable rel) (Sprintf_v v)) ∧
  (∀ page pivotData objCache entry v obj,
     entry !! FromColumn rel = Some v → isNil v = false → Sprintf_v v ≠ EmptyString →
     objCache !! cacheKey (ToTable rel) (Sprintf_v v) = Some obj →
     resolveRelation page pivotData objCache entry rel = <[FromColumn rel := VMap obj]> entry) ∧
  (∀ page pivotData objCache entry v,
     entry !! FromColumn rel = Some v →
     objCache !! cacheKey (ToTable rel) (Sprintf_v v) = None →
     resolveRelation page pivotData objCache entry rel = entry) ∧
  (∀ entry, entry !! FromColumn rel = Some VNil → idle entry (FromColumn rel)) ∧
  (∀ fk entry, idle entry (FromColumn rel) → collectScalarFK rel fk entry = fk) ∧
  (∀ page pivotData objCache entry,
     idle entry (FromColumn rel) →
     resolveRelation page pivotData objCache entry rel = entry).
Proof.
  intros Hrel. repeat split.
  - intros. by eapply collectDemands_registers.
  - intros page pivotData objCache entry v obj Hv Hnil Hne Hobj.
    unfold resolveRelation. rewrite Hrel, Hv, Hnil.
    destruct (String.eqb_spec (Sprintf_v v) EmptyString); [done|]. by rewrite Hobj.
  - intros page pivotData objCache entry v Hv Hmiss.
    unfold resolveRelation. rewrite Hrel, Hv.
    destruct (isNil v); [done|]. destruct (String.eqb _ _); [done|]. by rewrite Hmiss.
  - intros. by apply idle_nil.
  - intros. by apply collectScalarFK_silent.
  - intros. by apply resolveRelation_idle.
Qed.

Lemma scalar_relation_two_passes_witness :
  isScalarRel ownerRel = true ∧
  registered (collectDemands "pages" [ownerRel] [ownedRow] ∅) "users" "u1" ∧
  resolveRelation "pages" ∅ {[ "users:u1" := {[ "id" := VString "u1" ]} ]} ownedRow ownerRel
    = <["owner" := VMap {[ "id" := VString "u1" ]}]> ownedRow ∧
  resolveRelation "pages" ∅ ∅ ownedRow ownerRel = ownedRow ∧
  collectScalarFK ownerRel ∅ (<["owner" := VNil]> ∅) = ∅ ∧
  resolveRelation "pages" ∅ ∅ (<["owner" := VNil]> ∅) ownerRel = <["owner" := VNil]> ∅.
Proof.
  assert (isScalarRel ownerRel = true) as Hrel by reflexivity.
  split; [exact Hrel|].
  pose proof (scalar_relation_two_passes ownerRel Hrel) as (H1 & H2 & H3 & H4 & H5 & H6).
  split.
  { apply (H1 "pages" [ownerRel] [ownedRow] ∅ ownedRow (VString "u1"));
      [left|left|reflexivity|reflexivity|discriminate]. }
  split.
  { apply (H2 "pages" ∅ _ ownedRow (VString "u1") {[ "id" := VString "u1" ]});
      [reflexivity|reflexivity|discriminate|reflexivity]. }
  split.
  { apply (H3 "pages" ∅ ∅ ownedRow (VString "u1")); reflexivity. }
  split.
  { apply H5, H4. reflexivity. }
  apply H6, H4. reflexivity.
Defined.

(** The first clause of C4 as worded: a scalar that is not [nil] but has an
    empty text is not registered. *)
Lemma empty_text_scalar_not_registered :
  isScalarRel ownerRel = true ∧
  blankOwnerRow !! FromColumn ownerRel = Some (VString EmptyString) ∧
  isNil (VString EmptyString) = false ∧
  collectDemands "pages" [ownerRel] [blankOwnerRow] ∅ = ∅ ∧
  ¬ registered (collectDemands "pages" [ownerRel] [blankOwnerRow] ∅)
      (ToTable ownerRel) (Sprintf_v (VString EmptyString)).
Proof.
  assert (collectDemands "pages" [ownerRel] [blankOwnerRow] ∅ = ∅) as He
    by (vm_compute; reflexivity).
  split; [reflexivity|]. split; [reflexivity|]. split; [reflexivity|]. split; [exact He|].
  rewrite He. intros (ids & Hids & _). by rewrite lookup_empty in Hids.
Qed.

(** ** Dynamic mutation layer *)

(** C7.  With an empty [fields] map, [InsertDynamic] fails with its
    empty-payload error and [UpdateDynamic] succeeds, and neither sends a
    statement nor touches the database; with a non-empty map each sends
    exactly one statement. *)
Theorem empty_fields_insert_error_update_noop {DB : Type}
    (Exec : Stmt → DB → DB * option error)
    (QueryRowScan : Stmt → DB → DB * (string + error))
    (rangeFields : gmap string value → list (string * value))
    (table id : string) (c : Conn DB) :
  InsertDynamic QueryRowScan rangeFields table ∅ c
    = (c, (EmptyString, Some "aucune donnée à insérer")) ∧
  UpdateDynamic Exec rangeFields table id ∅ c = (c, None) ∧
  sent (InsertDynamic QueryRowScan rangeFields table ∅ c).1 = sent c ∧
  sent (UpdateDynamic Exec rangeFields table id ∅ c).1 = sent c ∧
  (∀ fields, fields ≠ ∅ →
     length (sent (InsertDynamic QueryRowScan rangeFields table fields c).1) = S (length (sent c)) ∧
     length (sent (UpdateDynamic Exec rangeFields table id fields c).1) = S (length (sent c))).
Proof.
  assert (InsertDynamic QueryRowScan rangeFields table ∅ c
            = (c, (EmptyString, Some "aucune donnée à insérer"))) as Hi.
  { unfold InsertDynamic. by rewrite map_size_empty. }
  assert (UpdateDynamic Exec rangeFields table id ∅ c = (c, None)) as Hu.
  { unfold UpdateDynamic. by rewrite map_size_empty. }
  split; [done|]. split; [done|]. rewrite Hi, Hu. split; [done|]. split; [done|].
  intros fields Hne. apply map_size_non_empty_iff in Hne.
  unfold InsertDynamic, UpdateDynamic.
  destruct (Nat.eqb_spec (size fields) 0) as [|_]; [done|].
  unfold queryRowScan, exec. split.
  - destruct (QueryRowScan _ _) as [d r]. cbn. rewrite length_app. cbn. lia.
  - destruct (Exec _ _) as [d r]. cbn. rewrite length_app. cbn. lia.
Qed.

Section PivotInserts.

Context {DB : Type}.
Variable Exec : Stmt → DB → DB * option error.

Lemma insertEdges_all pivotTable leftID rightIDs c d' :
  steps Exec (pivotInsert pivotTable leftID <$> rightIDs) (db c) = Some d' →
  insertEdges Exec (insertPivotQuery pivotTable) leftID rightIDs c =
    ({| db := d'; sent := sent c ++ (pivotInsert pivotTable leftID <$> rightIDs) |}, None).
Proof.
  revert c. induction rightIDs as [|r rest IH]; intros [d log]; cbn [db sent].
  - cbn. intros [= <-]. by rewrite app_nil_r.
  - rewrite fmap_cons. cbn [steps insertEdges]. unfold exec. cbn [db sent].
    change (insertPivotQuery pivotTable, [VString leftID; VString r])
      with (pivotInsert pivotTable leftID r).
    destruct (Exec (pivotInsert pivotTable leftID r) d) as [d1 [e|]]; [done|]. intros Hsteps.
    cbv beta iota zeta. etrans; [by apply IH|].
    cbn [db sent]. by rewrite <- app_assoc.
Qed.

Lemma insertEdges_stop pivotTable leftID pre r post c d1 d2 e :
  steps Exec (pivotInsert pivotTable leftID <$> pre) (db c) = Some d1 →
  Exec (pivotInsert pivotTable leftID r) d1 = (d2, Some e) →
  insertEdges Exec (insertPivotQuery pivotTable) leftID (pre ++ r :: post) c =
    ({| db := d2;
        sent := sent c ++ (pivotInsert pivotTable leftID <$> pre)
                  ++ [pivotInsert pivotTable leftID r] |}, Some e).
Proof.
  revert c. induction pre as [|r' pre IH]; intros [d log]; cbn [db sent].
  - cbn [fmap list_fmap steps]. intros [= <-] Hfail.
    cbn [app insertEdges]. unfold exec. cbn [db sent].
    change (insertPivotQuery pivotTable, [VString leftID; VString r])
      with (pivotInsert pivotTable leftID r).
    by rewrite Hfail.
  - rewrite fmap_cons. cbn [steps]. intros Hsteps Hfail.
    rewrite <- app_comm_cons. cbn [insertEdges]. unfold exec. cbn [db sent].
    change (insertPivotQuery pivotTable, [VString leftID; VString r'])
      with (pivotInsert pivotTable leftID r').
    destruct (Exec (pivotInsert pivotTable leftID r') d) as [d' [e'|]]; [done|].
    cbv beta iota zeta. etrans; [by apply IH|].
    cbn [db sent]. by rewrite <- !app_assoc.
Qed.

End PivotInserts.

(** C8.  [InsertPivotM2M] sends one [INSERT] of [(left id, right id)] per
    element of the list, in order, and nothing else.  When all go through,
    it returns no error.  When the insert of some element is refused after
    those before it went through, that error is returned, nothing is sent for
    the elements after it, and the database is left as the refused statement
    left it on top of the earlier inserts: no statement undoes them. *)
Theorem InsertPivotM2M_sequential {DB : Type}
    (Exec : Stmt → DB → DB * option error) (pivotTable leftID : string) :
  (∀ rightIDs c d',
     steps Exec (pivotInsert pivotTable leftID <$> rightIDs) (db c) = Some d' →
     InsertPivotM2M Exec pivotTable leftID rightIDs c =
       ({| db := d'; sent := sent c ++ (pivotInsert pivotTable leftID <$> rightIDs) |}, None)) ∧
  (∀ pre r post c d1 d2 e,
     steps Exec (pivotInsert pivotTable leftID <$> pre) (db c) = Some d1 →
     Exec (pivotInsert pivotTable leftID r) d1 = (d2, Some e) →
     InsertPivotM2M Exec pivotTable leftID (pre ++ r :: post) c =
       ({| db := d2;
           sent := sent c ++ (pivotInsert pivotTable leftID <$> pre)
                     ++ [pivotInsert pivotTable leftID r] |}, Some e)).
Proof.
  split.
  - intros rightIDs c d' Hsteps. unfold InsertPivotM2M.
    destruct rightIDs as [|r rest]; [|by apply insertEdges_all].
    cbn in *. injection Hsteps as <-. rewrite app_nil_r. by destruct c.
  - intros pre r post c d1 d2 e Hsteps Hfail. unfold InsertPivotM2M.
    destruct (Nat.eqb_spec (length (pre ++ r :: post)) 0) as [Hlen|_].
    + rewrite length_app in Hlen. cbn in Hlen. lia.
    + by apply (insertEdges_stop Exec pivotTable leftID pre r post c d1).
Qed.

Lemma InsertPivotM2M_sequential_witness :
  InsertPivotM2M fkExec "pages_tags_tags" "1" ["7"; "9"] {| db := []; sent := [] |} =
    ({| db := [("1", "7"); ("1", "9")];
        sent := [pivotInsert "pages_tags_tags" "1" "7"; pivotInsert "pages_tags_tags" "1" "9"] |},
     None) ∧
  InsertPivotM2M fkExec "pages_tags_tags" "1" ["7"; "ghost"; "9"] {| db := []; sent := [] |} =
    ({| db := [("1", "7")];
        sent := [pivotInsert "pages_tags_tags" "1" "7"; pivotInsert "pages_tags_tags" "1" "ghost"] |},
     Some "violates foreign key constraint").
Proof.
  pose proof (InsertPivotM2M_sequential fkExec "pages_tags_tags" "1") as [Hall Hstop].
  split.
  - exact (Hall ["7"; "9"] {| db := []; sent := [] |} [("1", "7"); ("1", "9")] eq_refl).
  - exact (Hstop ["7"] "ghost" ["9"] {| db := []; sent := [] |} [("1", "7")] [("1", "7")]
             "violates foreign key constraint" eq_refl eq_refl).
Defined.

(** ** The pivot statements against the reference store *)

Lemma store_insert (d : PivotStore.DB) pivotTable leftID r :
  PivotStore.Exec (pivotInsert pivotTable leftID r) d =
    match d !! pivotTable with
    | Some rows => (<[pivotTable := rows ++ [(leftID, r)]]> d, None)
    | None => (d, Some "relation does not exist")
    end.
Proof.
  unfold PivotStore.Exec, pivotInsert, insertPivotQuery. cbn [fst snd].
  rewrite stripPrefix_app. unfold PivotStore.insertRow.
  rewrite readIdent_quoteIdent by done.
  by rewrite String.eqb_refl.
Qed.

Lemma store_clear (d : PivotStore.DB) pivotTable leftID :
  PivotStore.Exec (clearPivotQuery pivotTable, [VString leftID]) d =
    match d !! pivotTable with
    | Some rows => (<[pivotTable := PivotStore.keepOthers leftID rows]> d, None)
    | None => (d, Some "relation does not exist")
    end.
Proof.
  unfold PivotStore.Exec, clearPivotQuery. cbn [fst snd].
  change (stripPrefix "INSERT INTO " ("DELETE FROM " +:+ quoteIdent pivotTable +:+ " WHERE left_id = $1"))
    with (@None string).
  rewrite stripPrefix_app. unfold PivotStore.deleteRows.
  rewrite readIdent_quoteIdent by done.
  by rewrite String.eqb_refl.
Qed.

Lemma store_steps (d : PivotStore.DB) pivotTable leftID rightIDs rows :
  d !! pivotTable = Some rows →
  steps PivotStore.Exec (pivotInsert pivotTable leftID <$> rightIDs) d =
    Some (<[pivotTable := rows ++ (pair leftID <$> rightIDs)]> d).
Proof.
  revert d rows. induction rightIDs as [|r rest IH]; intros d rows Hrows.
  - cbn. by rewrite app_nil_r, insert_id.
  - rewrite fmap_cons. cbn [steps]. rewrite store_insert, Hrows.
    rewrite (IH _ (rows ++ [(leftID, r)])) by apply lookup_insert_eq.
    by rewrite insert_insert_eq, fmap_cons, <- app_assoc.
Qed.

Lemma keepOthers_edges leftID rows rightIDs :
  PivotStore.keepOthers leftID (rows ++ (pair leftID <$> rightIDs)) =
    PivotStore.keepOthers leftID rows.
Proof.
  unfold PivotStore.keepOthers. rewrite filter_app.
  replace (filter (λ e : string * string, e.1 ≠ leftID) (pair leftID <$> rightIDs))
    with (@nil (string * string)); [by rewrite app_nil_r|].
  induction rightIDs as [|r rest IH]; [done|].
  rewrite fmap_cons, filter_cons_False; [done|]. cbn. by intros H.
Qed.

Lemma keepOthers_idemp leftID rows :
  PivotStore.keepOthers leftID (PivotStore.keepOthers leftID rows) =
    PivotStore.keepOthers leftID rows.
Proof.
  unfold PivotStore.keepOthers. induction rows as [|e rows IH]; [done|].
  rewrite filter_cons. destruct (decide (e.1 ≠ leftID)); [|done].
  by rewrite filter_cons_True, IH.
Qed.

Lemma edgesOf_rewritten leftID rows rightIDs :
  PivotStore.edgesOf leftID (PivotStore.keepOthers leftID rows ++ (pair leftID <$> rightIDs)) =
    pair leftID <$> rightIDs.
Proof.
  unfold PivotStore.edgesOf, PivotStore.keepOthers. rewrite filter_app.
  replace (filter (λ e : string * string, e.1 = leftID)
             (filter (λ e : string * string, e.1 ≠ leftID) rows))
    with (@nil (string * string)).
  - cbn [app]. induction rightIDs as [|r rest IH]; [done|].
    by rewrite fmap_cons, filter_cons_True, IH.
  - induction rows as [|e rows IH]; [done|].
    rewrite filter_cons. destruct (decide (e.1 ≠ leftID)); [|done].
    by rewrite filter_cons_False.
Qed.

Lemma store_clearThenInsert (d : PivotStore.DB) pivotTable leftID rightIDs rows log :
  d !! pivotTable = Some rows →
  clearThenInsert PivotStore.Exec pivotTable leftID rightIDs {| db := d; sent := log |} =
    ({| db := <[pivotTable :=
                  PivotStore.keepOthers leftID rows ++ (pair leftID <$> rightIDs)]> d;
        sent := (log ++ [(clearPivotQuery pivotTable, [VString leftID])])
                  ++ (pivotInsert pivotTable leftID <$> rightIDs) |},
     (None, None)).
Proof.
  intros Hrows. unfold clearThenInsert, ClearPivot, exec. cbn [db sent].
  rewrite store_clear, Hrows. unfold InsertPivotM2M.
  destruct rightIDs as [|r rest]; [by rewrite !app_nil_r|].
  cbn [length Nat.eqb].
  rewrite (insertEdges_all PivotStore.Exec pivotTable leftID (r :: rest) _
             (<[pivotTable :=
                  PivotStore.keepOthers leftID rows ++ (pair leftID <$> r :: rest)]> d)).
  - done.
  - cbn [db]. rewrite (store_steps _ _ _ _ (PivotStore.keepOthers leftID rows))
      by apply lookup_insert_eq.
    by rewrite insert_insert_eq.
Qed.

(** C9.  On a pivot table that exists, for a right-id list without
    repetition: [ClearPivot] then [InsertPivotM2M], run twice, both succeed
    and leave the store as one run leaves it; the edges of the left id are
    then one [(left id, right id)] per right id, without a duplicate, and the
    edges of the other left ids are those of before. *)
Theorem clear_then_insert_twice
    (pivotTable leftID : string) (rightIDs : list string)
    (d : PivotStore.DB) (rows : list (string * string)) (log : list Stmt) :
  d !! pivotTable = Some rows →
  NoDup rightIDs →
  let once := clearThenInsert PivotStore.Exec pivotTable leftID rightIDs
                {| db := d; sent := log |} in
  let twice := clearThenInsert PivotStore.Exec pivotTable leftID rightIDs once.1 in
  once.2 = (None, None) ∧ twice.2 = (None, None) ∧
  db twice.1 = db once.1 ∧
  db twice.1 =
    <[pivotTable := PivotStore.keepOthers leftID rows ++ (pair leftID <$> rightIDs)]> d ∧
  ∃ rows2, db twice.1 !! pivotTable = Some rows2 ∧
           PivotStore.edgesOf leftID rows2 = pair leftID <$> rightIDs ∧
           NoDup (PivotStore.edgesOf leftID rows2) ∧
           PivotStore.keepOthers leftID rows2 = PivotStore.keepOthers leftID rows.
Proof.
  intros Hrows Hnd once twice.
  assert (once = ({| db := <[pivotTable :=
                       PivotStore.keepOthers leftID rows ++ (pair leftID <$> rightIDs)]> d;
                     sent := (log ++ [(clearPivotQuery pivotTable, [VString leftID])])
                               ++ (pivotInsert pivotTable leftID <$> rightIDs) |},
                  (None, None))) as Honce.
  { subst once. by apply store_clearThenInsert. }
  assert (twice.2 = (None, None) ∧
          db twice.1 = <[pivotTable :=
                 PivotStore.keepOthers leftID rows ++ (pair leftID <$> rightIDs)]> d) as [Ht2 Ht1].
  { subst twice. rewrite Honce. cbn [fst].
    rewrite (store_clearThenInsert _ _ _ _
               (PivotStore.keepOthers leftID rows ++ (pair leftID <$> rightIDs)))
      by apply lookup_insert_eq.
    cbn [fst snd db]. split; [done|].
    by rewrite insert_insert_eq, keepOthers_edges, keepOthers_idemp. }
  split; [by rewrite Honce|]. split; [done|]. split; [by rewrite Ht1, Honce|].
  split; [done|].
  exists (PivotStore.keepOthers leftID rows ++ (pair leftID <$> rightIDs)).
  split; [by rewrite Ht1, lookup_insert_eq|].
  rewrite edgesOf_rewritten. split; [done|]. split.
  - apply NoDup_fmap_2; [|done]. by intros ?? [=].
  - by rewrite keepOthers_edges, keepOthers_idemp.
Qed.

Lemma clear_then_insert_twice_witness :
  demoStore !! "pages_tags_tags" = Some [("1", "3"); ("2", "7")] ∧
  NoDup ["7"; "9"] ∧
  let once := clearThenInsert PivotStore.Exec "pages_tags_tags" "1" ["7"; "9"]
                {| db := demoStore; sent := [] |} in
  let twice := clearThenInsert PivotStore.Exec "pages_tags_tags" "1" ["7"; "9"] once.1 in
  once.2 = (None, None) ∧ twice.2 = (None, None) ∧
  db twice.1 = db once.1 ∧
  db twice.1 =
    <["pages_tags_tags" :=
        PivotStore.keepOthers "1" [("1", "3"); ("2", "7")] ++ (pair "1" <$> ["7"; "9"])]> demoStore ∧
  ∃ rows2, db twice.1 !! "pages_tags_tags" = Some rows2 ∧
           PivotStore.edgesOf "1" rows2 = pair "1" <$> ["7"; "9"] ∧
           NoDup (PivotStore.edgesOf "1" rows2) ∧
           PivotStore.keepOthers "1" rows2 = PivotStore.keepOthers "1" [("1", "3"); ("2", "7")].
Proof.
  assert (demoStore !! "pages_tags_tags" = Some [("1", "3"); ("2", "7")]) as H1 by reflexivity.
  assert (NoDup ["7"; "9"]) as H2 by (apply (bool_decide_unpack _); vm_compute; exact I).
  split; [exact H1|]. split; [exact H2|].
  exact (clear_then_insert_twice "pages_tags_tags" "1" ["7"; "9"] demoStore _ [] H1 H2).
Defined.

Example clear_then_insert_twice_demo :
  db (clearThenInsert PivotStore.Exec "pages_tags_tags" "1" ["7"; "9"]
        (clearThenInsert PivotStore.Exec "pages_tags_tags" "1" ["7"; "9"]
           {| db := demoStore; sent := [] |}).1).1
  = {[ "pages_tags_tags" := [("2", "7"); ("1", "7"); ("1", "9")] ]}.
Proof. vm_compute. reflexivity. Qed.

(** With a right id listed twice the edge is stored twice. *)
Example clear_then_insert_repeated_id :
  db (clearThenInsert PivotStore.Exec "pages_tags_tags" "1" ["7"; "7"]
        {| db := demoStore; sent := [] |}).1
  = {[ "pages_tags_tags" := [("2", "7"); ("1", "7"); ("1", "7")] ]}.
Proof. vm_compute. reflexivity. Qed.

(** ** Statement texts and bound values *)

Lemma slength_app s t : String.length (s +:+ t) = String.length s + String.length t.
Proof. induction s as [|c s IH]; [done|]. rewrite sapp_cons. cbn. by rewrite IH. Qed.

Lemma sapp_inj_r s s' t : s +:+ t = s' +:+ t → s = s'.
Proof.
  revert s'. induction s as [|c s IH]; intros [|c' s'] Heq.
  - done.
  - apply (f_equal String.length) in Heq. rewrite sapp_nil_l, slength_app in Heq. cbn in Heq. lia.
  - apply (f_equal String.length) in Heq. rewrite sapp_nil_l, slength_app in Heq. cbn in Heq. lia.
  - rewrite !sapp_cons in Heq. injection Heq as -> Heq. f_equal. by apply IH.
Qed.

Lemma imap_index_only {A B} (g : nat → B) (l l' : list A) :
  length l = length l' → imap (λ i _, g i) l = imap (λ i _, g i) l'.
Proof.
  revert g l'. induction l as [|x l IH]; intros g [|x' l'] Hlen; try done.
  cbn [imap]. f_equal. apply (IH (g ∘ S)). by injection Hlen.
Qed.

(** The text of the batch query is fixed by the table and the number of
    ids; the ids travel as arguments. *)
Lemma selectByIds_values_free table ids ids' :
  length ids = length ids' → selectByIds table ids = selectByIds table ids'.
Proof.
  intros Hlen. unfold selectByIds, placeholders.
  by rewrite (imap_index_only _ ids ids' Hlen).
Qed.

Lemma insertStep_fold_keys (kvs kvs' : list (string * value)) b b' :
  kvs.*1 = kvs'.*1 → parts b = parts b' → params b = params b' → next b = next b' →
  let r := foldl insertStep b kvs in
  let r' := foldl insertStep b' kvs' in
  parts r = parts r' ∧ params r = params r' ∧ next r = next r'.
Proof.
  revert kvs' b b'. induction kvs as [|kv kvs IH]; intros [|kv' kvs'] b b' Hk Hp Hq Hn; try done.
  rewrite !fmap_cons in Hk. injection Hk as Hk1 Hk. cbn [foldl].
  apply IH; [done|..]; unfold insertStep; cbn [parts params next]; congruence.
Qed.

Lemma updateStep_fold_keys (kvs kvs' : list (string * value)) b b' :
  kvs.*1 = kvs'.*1 → parts b = parts b' → next b = next b' →
  length (bound b) = length (bound b') →
  let r := foldl updateStep b kvs in
  let r' := foldl updateStep b' kvs' in
  parts r = parts r' ∧ next r = next r' ∧ length (bound r) = length (bound r').
Proof.
  revert kvs' b b'. induction kvs as [|kv kvs IH]; intros [|kv' kvs'] b b' Hk Hp Hn Hb; try done.
  rewrite !fmap_cons in Hk. injection Hk as Hk1 Hk. cbn [foldl].
  apply IH; [done|..]; unfold updateStep; cbn [parts bound next]; [congruence..|].
  rewrite !length_app. cbn. lia.
Qed.

(** The texts of the mutation layer are fixed by the table and the column
    names: two payloads with the same columns in the same walk order yield
    the same text whatever the values (and, for the update, whatever the
    row id). *)
Lemma mutation_texts_values_free {DB : Type}
    (Exec : Stmt → DB → DB * option error)
    (QueryRowScan : Stmt → DB → DB * (string + error))
    (rangeFields : gmap string value → list (string * value))
    (table id id' : string) (fields fields' : gmap string value) (c : Conn DB) :
  fields ≠ ∅ → fields' ≠ ∅ →
  (rangeFields fields).*1 = (rangeFields fields').*1 →
  fst <$> last (sent (InsertDynamic QueryRowScan rangeFields table fields c).1) =
  fst <$> last (sent (InsertDynamic QueryRowScan rangeFields table fields' c).1) ∧
  fst <$> last (sent (UpdateDynamic Exec rangeFields table id fields c).1) =
  fst <$> last (sent (UpdateDynamic Exec rangeFields table id' fields' c).1).
Proof.
  intros Hne Hne' Hkeys.
  apply map_size_non_empty_iff in Hne. apply map_size_non_empty_iff in Hne'.
  unfold InsertDynamic, UpdateDynamic.
  destruct (Nat.eqb_spec (size fields) 0) as [|_]; [done|].
  destruct (Nat.eqb_spec (size fields') 0) as [|_]; [done|].
  unfold queryRowScan, exec. split.
  - destruct (QueryRowScan _ _) as [d r]. destruct (QueryRowScan _ _) as [d' r'].
    cbn [fst sent]. rewrite !last_snoc. cbn.
    destruct (insertStep_fold_keys (rangeFields fields) (rangeFields fields')
                {| parts := []; params := []; bound := []; next := 1 |}
                {| parts := []; params := []; bound := []; next := 1 |} Hkeys)
      as (-> & -> & _); done.
  - destruct (Exec _ _) as [d r]. destruct (Exec _ _) as [d' r'].
    cbn [fst sent]. rewrite !last_snoc. cbn.
    destruct (updateStep_fold_keys (rangeFields fields) (rangeFields fields')
                {| parts := []; params := []; bound := []; next := 1 |}
                {| parts := []; params := []; bound := []; next := 1 |} Hkeys)
      as (-> & _ & Hlen); [done..|].
    rewrite !length_app. cbn. by rewrite Hlen.
Qed.

(** C2 at the pivot-edge query of the list handler: the row ids are written
    into the statement text and nothing is bound.  Two runs on the same table
    and relation whose single row differs in its id send different texts; in
    general the text for one id determines that id. *)
Theorem pivot_query_carries_ids :
  (resolveRows (λ _ _, None) rangeOf "pages" [tagsRel] [<["id" := VInt 1]> ∅]).2 =
    [("SELECT left_id, right_id FROM " +:+ quoteIdent "pages_tags_tags"
        +:+ " WHERE left_id IN ('1')", [])] ∧
  (resolveRows (λ _ _, None) rangeOf "pages" [tagsRel] [<["id" := VInt 2]> ∅]).2 =
    [("SELECT left_id, right_id FROM " +:+ quoteIdent "pages_tags_tags"
        +:+ " WHERE left_id IN ('2')", [])] ∧
  pivotQuery "pages_tags_tags" ["1"] ≠ pivotQuery "pages_tags_tags" ["2"] ∧
  (∀ pivot a b, pivotQuery pivot [a] = pivotQuery pivot [b] → a = b).
Proof.
  split; [vm_compute; reflexivity|]. split; [vm_compute; reflexivity|].
  assert (∀ pivot a b, pivotQuery pivot [a] = pivotQuery pivot [b] → a = b) as Hinj.
  { intros pivot a b. unfold pivotQuery, Str.Join. cbn [String.concat].
    intros Heq. do 3 apply String.app_inj in Heq.
    apply sapp_inj_r, String.app_inj in Heq. by apply sapp_inj_r in Heq. }
  split; [|done]. intros Heq. by apply Hinj in Heq.
Qed.

Example itoa_samples : Str.itoa 0 = "0" ∧ Str.itoa 12 = "12" ∧ Str.FormatInt (-5) = "-5".
Proof. repeat split; reflexivity. Qed.

Example Sprintf_v_bytes : Sprintf_v (VBytes [Byte.x68; Byte.x69]) = "[104 105]".
Proof. reflexivity. Qed.

Example Sprintf_v_list : Sprintf_v (VList [VString "a"; VNil; VInt 3]) = "[a <nil> 3]".
Proof. reflexivity. Qed.

Example quoteIdent_embedded :
  quoteIdent (String "a" (String Str.dquote "b")) =
    String Str.dquote (String "a" (String Str.dquote (String Str.dquote (String "b" (String Str.dquote EmptyString))))).
Proof. reflexivity. Qed.

Example pivotTableName_explicit :
  pivotTableName "pages"
    {| Type_ := "many-to-many"; FromColumn := "tags"; ToTable := "tags";
       OnDelete := EmptyString; PivotTable := "Page_Tags" |} = "Page_Tags".
Proof. reflexivity. Qed.

Example pivotTableName_lowered :
  pivotTableName "Pages"
    {| Type_ := "many-to-many"; FromColumn := "Tags"; ToTable := "TAGS";
       OnDelete := EmptyString; PivotTable := EmptyString |} = "pages_tags_tags".
Proof. reflexivity. Qed.

(** * Further properties of the resolver and of the mutation layer *)

Set Warnings "-clear-no-such-hyp".

(** ** The identifier sanitizer *)

(** X1.  A table or column name written by [quoteIdent] at the head of a
    statement is read back whole by the database-side reader, whatever bytes
    it contains, and what follows it is what the statement builder appended:
    a name cannot end its own quoting.  Two different names never give the
    same quoted text. *)
Theorem quoteIdent_read_back :
  (∀ ident rest, startsQuote rest = false →
     readIdent (quoteIdent ident +:+ rest) = Some (ident, rest)) ∧
  (∀ ident, readIdent (quoteIdent ident) = Some (ident, EmptyString)) ∧
  (∀ a b, quoteIdent a = quoteIdent b → a = b) ∧
  (∀ ident, String.length (quoteIdent ident) ≥ String.length ident + 2).
Proof.
  split; [intros; by apply readIdent_quoteIdent|]. split; [|split].
  - intros ident. rewrite <- (sapp_nil_r (quoteIdent ident)) at 1.
    by apply readIdent_quoteIdent.
  - apply quoteIdent_inj.
  - intros ident. unfold quoteIdent. rewrite sapp_cons. cbn [String.length].
    rewrite slength_app. cbn [String.length].
    assert (String.length ident ≤
            String.length (Str.ReplaceAll ident Str.dquote
                             (String Str.dquote (String Str.dquote EmptyString)))) as Hlen.
    { induction ident as [|c s IH]; [done|]. cbn [Str.ReplaceAll].
      destruct (Ascii.eqb c Str.dquote).
      - rewrite !sapp_cons, sapp_nil_l. cbn [String.length]. lia.
      - cbn [String.length]. lia. }
    lia.
Qed.

(** ** Demands *)

Lemma registered_empty table id : ¬ registered ∅ table id.
Proof. intros (ids & Hids & _). by rewrite lookup_empty in Hids. Qed.

Lemma addFK_registered_iff fk table id table' id' :
  registered (addFK fk table id) table' id' ↔
  (table' = table ∧ id' = id) ∨ registered fk table' id'.
Proof.
  unfold registered, addFK. split.
  - intros (ids & Hids & Hin). destruct (decide (table = table')) as [<-|Hne].
    + rewrite lookup_insert_eq in Hids. injection Hids as <-.
      apply elem_of_union in Hin as [Hin|Hin].
      { left. by apply elem_of_singleton in Hin. }
      right. destruct (fk !! table) as [s|]; [by exists s|by apply elem_of_empty in Hin].
    + rewrite lookup_insert_ne in Hids by done. right. by exists ids.
  - intros [[-> ->]|Hreg].
    + eexists. rewrite lookup_insert_eq. split; [done|].
      by apply elem_of_union_l, elem_of_singleton.
    + by apply addFK_keeps.
Qed.

Lemma addFK_populated fk table id : populated fk → populated (addFK fk table id).
Proof.
  intros Hp t s. unfold addFK. destruct (decide (table = t)) as [<-|Hne].
  - rewrite lookup_insert_eq. intros [= <-]. set_solver.
  - rewrite lookup_insert_ne by done. apply Hp.
Qed.

(** X2.  [addFK] adds exactly the pair it is given: afterwards a pair is
    among the demands when it is that pair or was there before.  Adding a
    pair that is there changes nothing, the order of two additions does not
    matter, and the id set of a table is never left empty. *)
Theorem addFK_exact (fk : gmap string (gset string)) (table id : string) :
  (∀ table' id',
     registered (addFK fk table id) table' id' ↔
     (table' = table ∧ id' = id) ∨ registered fk table' id') ∧
  (registered fk table id → addFK fk table id = fk) ∧
  (∀ table' id',
     addFK (addFK fk table id) table' id' = addFK (addFK fk table' id') table id) ∧
  (∃ ids, addFK fk table id !! table = Some ids ∧ ids ≠ ∅).
Proof.
  split; [intros; apply addFK_registered_iff|]. split; [|split].
  - intros (ids & Hids & Hin). unfold addFK. rewrite Hids. cbn [default].
    apply map_eq. intros t. destruct (decide (table = t)) as [<-|Hne].
    + rewrite lookup_insert_eq, Hids. f_equal. set_solver.
    + by rewrite lookup_insert_ne.
  - intros table' id'. unfold addFK. apply map_eq. intros t.
    destruct (decide (table = table')) as [<-|Hne].
    + rewrite !lookup_insert_eq. cbn [default].
      destruct (decide (table = t)) as [<-|Hne'].
      * rewrite !lookup_insert_eq. f_equal. set_solver.
      * by rewrite !lookup_insert_ne.
    + rewrite (lookup_insert_ne _ table table') by done.
      rewrite (lookup_insert_ne _ table' table) by done.
      destruct (decide (table' = t)) as [<-|Hne1].
      * rewrite lookup_insert_eq, lookup_insert_ne, lookup_insert_eq by done. done.
      * rewrite (lookup_insert_ne _ table' t) by done.
        destruct (decide (table = t)) as [<-|Hne2].
        -- by rewrite !lookup_insert_eq.
        -- by rewrite !lookup_insert_ne.
  - eexists. unfold addFK. rewrite lookup_insert_eq. split; [done|]. set_solver.
Qed.

Lemma collectScalarFK_registered_iff rel fk entry table id :
  registered (collectScalarFK rel fk entry) table id ↔
  registered fk table id ∨
  (ToTable rel = table ∧
   ∃ v, entry !! FromColumn rel = Some v ∧ isNil v = false ∧
        Sprintf_v v = id ∧ id ≠ EmptyString).
Proof.
  unfold collectScalarFK. destruct (entry !! FromColumn rel) as [v|] eqn:Hv.
  - destruct (isNil v) eqn:Hnil.
    + split; [by left|]. intros [?|(_ & v' & [= <-] & ? & _)]; [done|congruence].
    + destruct (String.eqb_spec (Sprintf_v v) EmptyString) as [He|Hne].
      * split; [by left|]. intros [?|(_ & v' & [= <-] & _ & <- & ?)]; done.
      * rewrite addFK_registered_iff. split.
        -- intros [[-> ->]|?]; [|by left]. right. split; [done|]. by exists v.
        -- intros [?|(<- & v' & [= <-] & _ & <- & _)]; [by right|by left].
  - split; [by left|]. by intros [?|(_ & v' & ? & _)].
Qed.

Lemma collectScalarFK_fold_registered_iff rel rows fk table id :
  registered (foldl (collectScalarFK rel) fk rows) table id ↔
  registered fk table id ∨
  (ToTable rel = table ∧
   ∃ entry v, entry ∈ rows ∧ entry !! FromColumn rel = Some v ∧ isNil v = false ∧
              Sprintf_v v = id ∧ id ≠ EmptyString).
Proof.
  revert fk. induction rows as [|entry rows IH]; intros fk; cbn [foldl].
  - split; [by left|]. intros [?|(_ & e & v & Hin & _)]; [done|]. by apply elem_of_nil in Hin.
  - rewrite IH, collectScalarFK_registered_iff. split.
    + intros [[?|(Ht & v & ?)]|(Ht & e & v & Hin & ?)]; [by left|right..].
      * split; [done|]. exists entry, v. split; [left|done].
      * split; [done|]. exists e, v. split; [by right|done].
    + intros [?|(Ht & e & v & Hin & ?)]; [by left; left|].
      apply elem_of_cons in Hin as [->|Hin].
      * left. right. split; [done|]. by exists v.
      * right. split; [done|]. by exists e, v.
Qed.

Lemma collectScalarFKs_fold_registered_iff rows rels fk table id :
  registered (foldl (collectScalarFKs rows) fk rels) table id ↔
  registered fk table id ∨ scalarDemand rels rows table id.
Proof.
  revert fk. induction rels as [|rel rels IH]; intros fk; cbn [foldl].
  - split; [by left|]. intros [?|(r & e & v & Hin & _)]; [done|]. by apply elem_of_nil in Hin.
  - rewrite IH. unfold collectScalarFKs. split.
    + intros [Hreg|(r & e & v & Hin & ?)].
      * destruct (isScalarRel rel) eqn:Hrel; [|by left].
        apply collectScalarFK_fold_registered_iff in Hreg as [?|(Ht & e & v & ?)]; [by left|].
        right. exists rel, e, v. split; [left|]. naive_solver.
      * right. exists r, e, v. split; [by right|done].
    + intros [Hreg|(r & e & v & Hin & Hrel & Ht & He & Hv & Hnil & Hs & Hne)].
      * left. destruct (isScalarRel rel); [|done].
        apply collectScalarFK_fold_registered_iff. by left.
      * apply elem_of_cons in Hin as [->|Hin].
        -- left. rewrite Hrel. apply collectScalarFK_fold_registered_iff.
           right. split; [done|]. by exists e, v.
        -- right. by exists r, e, v.
Qed.

Lemma addFK_fold_registered_iff target rights fk table id :
  registered (foldl (λ fk rid, addFK fk target rid) fk rights) table id ↔
  registered fk table id ∨ (table = target ∧ id ∈ rights).
Proof.
  revert fk. induction rights as [|rid rights IH]; intros fk; cbn [foldl].
  - split; [by left|]. intros [?|[_ Hin]]; [done|]. by apply elem_of_nil in Hin.
  - rewrite IH, addFK_registered_iff, elem_of_cons. naive_solver.
Qed.

Lemma collectPivotFK_registered_iff page pivotData fk rel table id :
  registered (collectPivotFK page pivotData fk rel) table id ↔
  registered fk table id ∨
  (isManyToMany rel = true ∧ ToTable rel = table ∧
   ∃ pairs lid rights, pivotData !! pivotTableName page rel = Some pairs ∧
                       pairs !! lid = Some rights ∧ id ∈ rights).
Proof.
  unfold collectPivotFK. destruct (isManyToMany rel) eqn:Hrel; cbn [negb].
  2: { split; [by left|]. by intros [?|[? _]]. }
  destruct (pivotData !! pivotTableName page rel) as [pairs|] eqn:Hp.
  2: { split; [by left|]. by intros [?|(_ & _ & ? & ? & ? & ? & _)]. }
  assert (∀ l fk,
            registered (foldl (λ fk rights, foldl (λ fk rid, addFK fk (ToTable rel) rid) fk rights)
                         fk l) table id ↔
            registered fk table id ∨ (table = ToTable rel ∧ ∃ rights, rights ∈ l ∧ id ∈ rights))
    as Hfold.
  { induction l as [|rights l IH]; intros fk'; cbn [foldl].
    - split; [by left|]. intros [?|(_ & r & Hin & _)]; [done|]. by apply elem_of_nil in Hin.
    - rewrite IH, addFK_fold_registered_iff. split.
      + intros [[?|[-> ?]]|(-> & r & Hin & ?)]; [by left|right..].
        * split; [done|]. exists rights. split; [left|done].
        * split; [done|]. exists r. split; [by right|done].
      + intros [?|(-> & r & Hin & ?)]; [by left; left|].
        apply elem_of_cons in Hin as [->|Hin]; [left; by right|].
        right. split; [done|]. by exists r. }
  rewrite Hfold. split.
  - intros [?|(-> & rights & Hin & ?)]; [by left|]. right. split; [done|]. split; [done|].
    apply list_elem_of_fmap in Hin as [[lid r] [-> Hin]]. apply elem_of_map_to_list in Hin.
    by exists pairs, lid, r.
  - intros [?|(_ & <- & pairs' & lid & rights & [= <-] & Hl & ?)]; [by left|].
    right. split; [done|]. exists rights. split; [|done].
    apply list_elem_of_fmap. exists (lid, rights). split; [done|]. by apply elem_of_map_to_list.
Qed.

Lemma collectPivotFK_fold_registered_iff page pivotData rels fk table id :
  registered (foldl (collectPivotFK page pivotData) fk rels) table id ↔
  registered fk table id ∨ pivotDemand page rels pivotData table id.
Proof.
  revert fk. induction rels as [|rel rels IH]; intros fk; cbn [foldl].
  - split; [by left|]. intros [?|(r & ? & ? & ? & Hin & _)]; [done|]. by apply elem_of_nil in Hin.
  - rewrite IH, collectPivotFK_registered_iff. unfold pivotDemand. split.
    + intros [[?|(? & ? & pairs & lid & rights & ?)]|(r & pairs & lid & rights & Hin & ?)];
        [by left|right..].
      * exists rel, pairs, lid, rights. split; [left|]. naive_solver.
      * exists r, pairs, lid, rights. split; [by right|done].
    + intros [?|(r & pairs & lid & rights & Hin & ? & ? & ?)]; [by left; left|].
      apply elem_of_cons in Hin as [->|Hin].
      * left. right. split; [done|]. split; [done|]. by exists pairs, lid, rights.
      * right. by exists r, pairs, lid, rights.
Qed.

Lemma populated_empty : populated ∅.
Proof. intros t s Hs. by rewrite lookup_empty in Hs. Qed.

Lemma addFK_fold_populated target rights fk :
  populated fk → populated (foldl (λ fk rid, addFK fk target rid) fk rights).
Proof.
  revert fk. induction rights as [|rid rights IH]; intros fk Hfk; [done|].
  cbn [foldl]. by apply IH, addFK_populated.
Qed.

Lemma collectScalarFK_fold_populated rel rows fk :
  populated fk → populated (foldl (collectScalarFK rel) fk rows).
Proof.
  revert fk. induction rows as [|entry rows IH]; intros fk Hfk; [done|].
  cbn [foldl]. apply IH. unfold collectScalarFK.
  repeat (case_match; try done). by apply addFK_populated.
Qed.

Lemma collectScalarFKs_fold_populated rows rels fk :
  populated fk → populated (foldl (collectScalarFKs rows) fk rels).
Proof.
  revert fk. induction rels as [|rel rels IH]; intros fk Hfk; [done|].
  cbn [foldl]. apply IH. unfold collectScalarFKs. destruct (isScalarRel rel); [|done].
  by apply collectScalarFK_fold_populated.
Qed.

Lemma collectPivotFK_fold_populated page pivotData rels fk :
  populated fk → populated (foldl (collectPivotFK page pivotData) fk rels).
Proof.
  revert fk. induction rels as [|rel rels IH]; intros fk Hfk; [done|].
  cbn [foldl]. apply IH. unfold collectPivotFK. destruct (negb _); [done|].
  destruct (pivotData !! _) as [pairs|]; [|done].
  revert fk Hfk. induction (map_to_list pairs).*2 as [|rights l IHl]; intros fk Hfk; [done|].
  cbn [foldl]. by apply IHl, addFK_fold_populated.
Qed.

Lemma collectDemands_populated page rels rows pivotData :
  populated (collectDemands page rels rows pivotData).
Proof.
  unfold collectDemands.
  apply collectPivotFK_fold_populated, collectScalarFKs_fold_populated, populated_empty.
Qed.

(** X3.  Pass 1 of the list handler registers exactly the demands of the
    page: a pair [(table, id)] is registered when, and only when, a
    one-to-one or one-to-many relation to [table] finds on some row a scalar
    that is not [nil] and whose non-empty text is [id], or a many-to-many
    relation to [table] has [id] among the right ids of its loaded pivot.  No
    table is registered with an empty id set, and every registered table is
    the target of a relation. *)
Theorem collectDemands_exact
    (page : string) (rels : list RelationDefinition) (rows : list Row)
    (pivotData : gmap string (gmap string (list string))) :
  (∀ table id,
     registered (collectDemands page rels rows pivotData) table id ↔
     scalarDemand rels rows table id ∨ pivotDemand page rels pivotData table id) ∧
  populated (collectDemands page rels rows pivotData) ∧
  dom (collectDemands page rels rows pivotData) ⊆ targetTables rels.
Proof.
  assert (∀ table id,
            registered (collectDemands page rels rows pivotData) table id ↔
            scalarDemand rels rows table id ∨ pivotDemand page rels pivotData table id) as Hex.
  { intros table id. unfold collectDemands.
    rewrite collectPivotFK_fold_registered_iff, collectScalarFKs_fold_registered_iff.
    pose proof (registered_empty table id). naive_solver. }
  pose proof (collectDemands_populated page rels rows pivotData) as Hpop.
  split; [done|]. split; [done|].
  intros table Hin. apply elem_of_dom in Hin as [ids Hids].
  destruct (set_choose_L ids (Hpop _ _ Hids)) as [id Hid].
  assert (registered (collectDemands page rels rows pivotData) table id) as Hreg
    by (by exists ids).
  unfold targetTables. apply elem_of_list_to_set, list_elem_of_fmap.
  apply Hex in Hreg as [(rel & _ & _ & Hin & _ & <- & _)|(rel & _ & _ & _ & Hin & _ & <- & _)];
    by exists rel.
Qed.

(** ** Pivot edges of the list handler *)

Lemma addEdge_scanEdge m scan :
  addEdge m scan =
    match scanEdge scan with
    | Some (lid, rid) => <[lid := default [] (m !! lid) ++ [rid]]> m
    | None => m
    end.
Proof.
  unfold addEdge, scanEdge.
  destruct scan as [[|l [|r [|x vals]]]|]; try done.
  by destruct (scanString l), (scanString r).
Qed.

Lemma addEdge_fold_lookup scans m lid :
  default [] (foldl addEdge m scans !! lid) =
    default [] (m !! lid) ++ rightsOf lid (omap scanEdge scans).
Proof.
  unfold rightsOf. revert m. induction scans as [|scan scans IH]; intros m; cbn [foldl omap list_omap].
  - by rewrite app_nil_r.
  - rewrite IH, addEdge_scanEdge. destruct (scanEdge scan) as [[l r]|]; [|done].
    destruct (decide (l = lid)) as [->|Hne].
    + rewrite filter_cons_True by done.
      rewrite lookup_insert_eq, fmap_cons. simpl. by rewrite <- app_assoc.
    + rewrite filter_cons_False by done. by rewrite lookup_insert_ne.
Qed.

Lemma addEdge_fold_is_Some scans m lid :
  is_Some (foldl addEdge m scans !! lid) ↔
  is_Some (m !! lid) ∨ lid ∈ (omap scanEdge scans).*1.
Proof.
  revert m. induction scans as [|scan scans IH]; intros m; cbn [foldl omap list_omap].
  - split; [by left|]. intros [?|Hin]; [done|]. by apply elem_of_nil in Hin.
  - rewrite IH, addEdge_scanEdge. destruct (scanEdge scan) as [[l r]|]; [|done].
    rewrite fmap_cons, elem_of_cons. cbn [fst].
    destruct (decide (l = lid)) as [->|Hne].
    + rewrite lookup_insert_eq. split; [intros _; right; by left|intros _; left; done].
    + rewrite lookup_insert_ne by done. naive_solver.
Qed.

(** X4.  The pivot edges of the list handler are grouped by left id and kept
    in the order in which the pivot query returned them: the right ids stored
    for a left id are those of the returned rows with that left id, in that
    order, a row that is not two scannable cells (a [NULL] id) being passed
    over; a left id has an entry when some returned row carries it. *)
Theorem pivot_edges_in_returned_order (scans : list (option (list value))) (lid : string) :
  default [] (foldl addEdge ∅ scans !! lid) = rightsOf lid (omap scanEdge scans) ∧
  (is_Some (foldl addEdge ∅ scans !! lid) ↔ lid ∈ (omap scanEdge scans).*1) ∧
  (∀ rights, foldl addEdge ∅ scans !! lid = Some rights → rights ≠ []).
Proof.
  pose proof (addEdge_fold_lookup scans ∅ lid) as Hl.
  pose proof (addEdge_fold_is_Some scans ∅ lid) as Hs.
  rewrite lookup_empty in Hl, Hs. cbn [default app] in Hl.
  split; [done|]. split.
  - rewrite Hs. split; [|by right]. intros [[? Hx]|?]; done.
  - intros rights Hr. rewrite Hr in Hl. simpl in Hl. rewrite Hl.
    assert (lid ∈ (omap scanEdge scans).*1) as Hin.
    { destruct Hs as [Hs _]. destruct Hs as [[? Hx]|?]; [by rewrite Hr|done|done]. }
    apply list_elem_of_fmap in Hin as [[l r] [-> Hin]]. unfold rightsOf.
    intros Hnil. apply fmap_nil_inv in Hnil.
    assert ((l, r) ∈ filter (λ e : string * string, e.1 = (l, r).1) (omap scanEdge scans)) as Hf
      by (by apply list_elem_of_filter).
    rewrite Hnil in Hf. by apply elem_of_nil in Hf.
Qed.

Section PivotLoading.

Variable Query : string → list value → option Rows.

Lemma loadPivot_fold_log page allIDs rels st :
  allIDs ≠ [] →
  (foldl (loadPivot Query page allIDs) st rels).2 =
    st.2 ++ ((λ rel, (pivotQuery (pivotTableName page rel) allIDs, []) : Stmt)
               <$> filter (λ rel, isManyToMany rel = true) rels).
Proof.
  intros Hne. revert st. induction rels as [|rel rels IH]; intros st; cbn [foldl].
  - by rewrite filter_nil, app_nil_r.
  - rewrite IH, filter_cons. unfold loadPivot.
    destruct (isManyToMany rel) eqn:Hrel; cbn [negb orb].
    + destruct allIDs as [|x xs]; [done|]. cbn [length Nat.eqb].
      rewrite decide_True by done. rewrite fmap_cons.
      destruct (Query _ _); cbn [snd]; by rewrite <- app_assoc.
    + by rewrite decide_False.
Qed.

Lemma loadPivot_fold_none page rels st :
  foldl (loadPivot Query page []) st rels = st.
Proof.
  revert st. induction rels as [|rel rels IH]; intros st; [done|].
  cbn [foldl]. rewrite IH. unfold loadPivot. cbn [length Nat.eqb]. by rewrite orb_true_r.
Qed.

Lemma loadPivot_fold_keys page allIDs rels st pivot :
  is_Some ((foldl (loadPivot Query page allIDs) st rels).1 !! pivot) →
  is_Some (st.1 !! pivot) ∨
  ∃ rel, rel ∈ rels ∧ isManyToMany rel = true ∧ pivotTableName page rel = pivot ∧
         is_Some (Query (pivotQuery pivot allIDs) []).
Proof.
  revert st. induction rels as [|rel rels IH]; intros st; cbn [foldl]; [by left|].
  intros Hs. apply IH in Hs as [Hs|(r & Hin & ?)].
  - unfold loadPivot in Hs.
    destruct (negb (isManyToMany rel) || (length allIDs =? 0)) eqn:Hskip; [by left|].
    apply orb_false_iff in Hskip as [Hrel%negb_false_iff _].
    destruct (Query (pivotQuery (pivotTableName page rel) allIDs) []) as [rs|] eqn:Hq;
      cbn [fst] in Hs; [|by left].
    destruct (decide (pivotTableName page rel = pivot)) as [<-|Hne].
    + right. exists rel. split; [left|]. by rewrite Hq.
    + rewrite lookup_insert_ne in Hs by done. by left.
  - right. exists r. split; [by right|done].
Qed.

End PivotLoading.

(** X5.  The list handler sends one pivot query per many-to-many relation,
    in the order of the relations, each without bound argument, when some
    fetched row has an id; when no row has one it sends none and no pivot is
    loaded.  A pivot is loaded only when a many-to-many relation names it and
    its query went through. *)
Theorem loadPivot_statements
    (Query : string → list value → option Rows)
    (page : string) (allIDs : list string) (rels : list RelationDefinition) :
  let loaded := foldl (loadPivot Query page allIDs) (∅, []) rels in
  (allIDs ≠ [] →
   loaded.2 = (λ rel, (pivotQuery (pivotTableName page rel) allIDs, []) : Stmt)
                <$> filter (λ rel, isManyToMany rel = true) rels) ∧
  (allIDs = [] → loaded = (∅, [])) ∧
  (∀ pivot, is_Some (loaded.1 !! pivot) →
     ∃ rel, rel ∈ rels ∧ isManyToMany rel = true ∧ pivotTableName page rel = pivot ∧
            is_Some (Query (pivotQuery pivot allIDs) [])).
Proof.
  intros loaded. split; [|split].
  - intros Hne. subst loaded. by rewrite loadPivot_fold_log.
  - intros ->. subst loaded. apply loadPivot_fold_none.
  - intros pivot Hs. apply loadPivot_fold_keys in Hs as [[x Hx]|?]; [|done].
    cbn in Hx. by rewrite lookup_empty in Hx.
Qed.

(** ** What substitution leaves alone *)

Lemma resolveRelation_dom page pivotData objCache entry rel :
  dom entry ⊆ dom (resolveRelation page pivotData objCache entry rel) ∧
  dom (resolveRelation page pivotData objCache entry rel) ⊆
    dom entry ∪ (if isManyToMany rel then {[FromColumn rel]} else ∅).
Proof.
  unfold resolveRelation. destruct (isScalarRel rel) eqn:Hs.
  - assert (isManyToMany rel = false) as ->.
    { destruct (isManyToMany rel) eqn:Hm; [|done].
      apply isManyToMany_not_scalar in Hm. congruence. }
    destruct (entry !! FromColumn rel) as [fk|] eqn:Hfk; [|set_solver].
    destruct (isNil fk); [set_solver|]. destruct (String.eqb _ _); [set_solver|].
    destruct (objCache !! _); [|set_solver].
    rewrite dom_insert_L. apply elem_of_dom_2 in Hfk. set_solver.
  - destruct (isManyToMany rel); [|set_solver].
    repeat case_match; rewrite dom_insert_L; set_solver.
Qed.

Lemma materializeEntry_dom page pivotData objCache rels entry :
  dom entry ⊆ dom (materializeEntry page rels pivotData objCache entry) ∧
  dom (materializeEntry page rels pivotData objCache entry) ⊆
    dom entry ∪ list_to_set (FromColumn <$> filter (λ rel, isManyToMany rel = true) rels).
Proof.
  unfold materializeEntry. revert entry.
  induction rels as [|rel rels IH]; intros entry; cbn [foldl]; [set_solver|].
  destruct (IH (resolveRelation page pivotData objCache entry rel)) as [IH1 IH2].
  destruct (resolveRelation_dom page pivotData objCache entry rel) as [H1 H2].
  rewrite filter_cons. destruct (isManyToMany rel) eqn:Hm.
  - rewrite decide_True by done. rewrite fmap_cons, list_to_set_cons. set_solver.
  - rewrite decide_False by done. set_solver.
Qed.

Lemma resolveRows_data Query walk page rels rows :
  ∃ pivotData objCache,
    (resolveRows Query walk page rels rows).1 =
      materializeEntry page rels pivotData objCache <$> rows.
Proof.
  unfold resolveRows.
  destruct (foldl (loadPivot Query page (collectIDs rows)) (∅, []) rels) as [pivotData log1].
  destruct (batchLoadRelated Query _) as [objCache log2]. by exists pivotData, objCache.
Qed.

(** X6.  The list handler answers one row per fetched row, in the same
    order.  A resolved row keeps every column of the fetched row; a column
    that is not the source column of a relation keeps its value; the only
    columns that can be added are source columns of many-to-many relations. *)
Theorem resolveRows_keeps_rows_and_columns
    (Query : string → list value → option Rows)
    (walk : gmap string (gset string) → list (string * list string))
    (page : string) (rels : list RelationDefinition) (rows : list Row) :
  let data := (resolveRows Query walk page rels rows).1 in
  length data = length rows ∧
  ∀ i entry, rows !! i = Some entry →
    ∃ entry', data !! i = Some entry' ∧
      (∀ column, column ∉ FromColumn <$> rels → entry' !! column = entry !! column) ∧
      dom entry ⊆ dom entry' ∧
      dom entry' ⊆
        dom entry ∪ list_to_set (FromColumn <$> filter (λ rel, isManyToMany rel = true) rels).
Proof.
  intros data. destruct (resolveRows_data Query walk page rels rows) as (pivotData & objCache & Hd).
  subst data. rewrite Hd. split; [by rewrite length_fmap|].
  intros i entry Hi. exists (materializeEntry page rels pivotData objCache entry).
  split; [by rewrite list_lookup_fmap, Hi|]. split.
  - intros column Hc. by apply materializeEntry_frame.
  - apply materializeEntry_dom.
Qed.

(** ** The cache holds what the database returned *)

Lemma scanInto_scanEntry cols vals : (scanInto cols vals).1 = scanEntry cols vals.
Proof.
  unfold scanInto, scanEntry.
  assert (∀ (l : list (nat * string)) (acc : Row * string),
            (foldl (λ (acc : Row * string) (ic : nat * string),
                      let v := default VNil (vals !! ic.1) in
                      (<[ic.2 := v]> acc.1,
                       if String.eqb ic.2 "id" && negb (isNil v) then Sprintf_v v else acc.2))
                   acc l).1 =
            foldl (λ (row : Row) (ic : nat * string),
                     <[ic.2 := default VNil (vals !! ic.1)]> row) acc.1 l) as Hfold.
  { induction l as [|ic l IH]; intros acc; [done|]. cbn [foldl]. by rewrite IH. }
  apply (Hfold _ (∅, EmptyString)).
Qed.

Lemma cacheRow_keeps table cols cache scan key :
  is_Some (cache !! key) → is_Some (cacheRow table cols cache scan !! key).
Proof.
  intros Hs. destruct scan as [vals|]; [|done]. unfold cacheRow.
  destruct (scanInto cols vals) as [row idVal].
  destruct (String.eqb idVal EmptyString); [done|].
  destruct (decide (cacheKey table idVal = key)) as [<-|Hne].
  - by rewrite lookup_insert_eq.
  - by rewrite lookup_insert_ne.
Qed.

Lemma cacheRow_fold_keeps table cols scans cache key :
  is_Some (cache !! key) → is_Some (foldl (cacheRow table cols) cache scans !! key).
Proof.
  revert cache. induction scans as [|scan scans IH]; intros cache Hs; [done|].
  cbn [foldl]. by apply IH, cacheRow_keeps.
Qed.

Lemma cacheRow_fold_adds table cols scans cache vals :
  NoDup cols → Some vals ∈ scans → idText (scanEntry cols vals) ≠ EmptyString →
  is_Some (foldl (cacheRow table cols) cache scans
             !! cacheKey table (idText (scanEntry cols vals))).
Proof.
  intros Hnd Hin Hne. revert cache.
  induction scans as [|scan scans IH]; intros cache; [by apply elem_of_nil in Hin|].
  cbn [foldl]. apply elem_of_cons in Hin as [<-|Hin]; [|by apply IH].
  apply cacheRow_fold_keeps. unfold cacheRow.
  pose proof (scanInto_idText cols vals Hnd) as Hid.
  pose proof (scanInto_scanEntry cols vals) as Hrow.
  destruct (scanInto cols vals) as [row idVal]. cbn [fst snd] in Hid, Hrow. subst row.
  rewrite Hid. destruct (String.eqb_spec (idText (scanEntry cols vals)) EmptyString); [done|].
  by rewrite lookup_insert_eq.
Qed.

Section LoaderKeeps.

Variable Query : string → list value → option Rows.

Lemma loadTable_keeps st d key :
  is_Some (st.1 !! key) → is_Some ((loadTable Query st d).1 !! key).
Proof.
  intros Hs. destruct d as [table [|id ids]]; [done|]. cbn [loadTable].
  destruct (Query _ _); [|done]. cbn [fst]. by apply cacheRow_fold_keeps.
Qed.

Lemma loadTable_fold_keeps order st key :
  is_Some (st.1 !! key) → is_Some ((foldl (loadTable Query) st order).1 !! key).
Proof.
  revert st. induction order as [|d order IH]; intros st Hs; [done|].
  cbn [foldl]. by apply IH, loadTable_keeps.
Qed.

End LoaderKeeps.

(** X7.  A row that the database returns for a walked table, with a usable
    id (not [nil], non-empty text) and distinct column names, is found
    again from the cache: the key made of that table and of the text of the
    row's id is present in the cache that [batchLoadRelated] returns. *)
Theorem batchLoadRelated_key_present
    (Query : string → list value → option Rows)
    (order : list (string * list string)) (table : string) (ids : list string)
    (rs : Rows) (vals : list value) :
  (table, ids) ∈ order →
  ids ≠ [] →
  Query (selectByIds table ids) (VString <$> ids) = Some rs →
  Some vals ∈ Scans rs →
  NoDup (Columns rs) →
  idText (scanEntry (Columns rs) vals) ≠ EmptyString →
  is_Some ((batchLoadRelated Query order).1
             !! cacheKey table (idText (scanEntry (Columns rs) vals))).
Proof.
  intros Hin Hids Hq Hvals Hnd Hne. unfold batchLoadRelated.
  generalize (∅ : gmap string Row, [] : list Stmt).
  induction order as [|d order IH]; intros st; [by apply elem_of_nil in Hin|].
  cbn [foldl]. apply elem_of_cons in Hin as [<-|Hin]; [|by apply IH].
  apply loadTable_fold_keeps. destruct ids as [|id ids']; [done|].
  cbn [loadTable]. rewrite Hq. cbn [fst]. by apply cacheRow_fold_adds.
Qed.

Lemma batchLoadRelated_key_present_witness :
  ("tags", ["7"]) ∈ [("tags", ["7"])] ∧
  ["7"] ≠ [] ∧
  partialQuery (selectByIds "tags" ["7"]) (VString <$> ["7"]) = Some demoRows ∧
  Some [VInt 7; VString "x"] ∈ Scans demoRows ∧
  NoDup (Columns demoRows) ∧
  idText (scanEntry (Columns demoRows) [VInt 7; VString "x"]) ≠ EmptyString ∧
  is_Some ((batchLoadRelated partialQuery [("tags", ["7"])]).1
             !! cacheKey "tags" (idText (scanEntry (Columns demoRows) [VInt 7; VString "x"]))).
Proof.
  assert (("tags", ["7"]) ∈ [("tags", ["7"])]) as H1 by left.
  assert (["7"] ≠ @nil string) as H2 by done.
  assert (partialQuery (selectByIds "tags" ["7"]) (VString <$> ["7"]) = Some demoRows) as H3
    by reflexivity.
  assert (Some [VInt 7; VString "x"] ∈ Scans demoRows) as H4 by left.
  assert (NoDup (Columns demoRows)) as H5
    by (apply (bool_decide_unpack _); vm_compute; exact I).
  assert (idText (scanEntry (Columns demoRows) [VInt 7; VString "x"]) ≠ EmptyString) as H6
    by (vm_compute; discriminate).
  repeat (split; [assumption|]).
  exact (batchLoadRelated_key_present partialQuery [("tags", ["7"])] "tags" ["7"] demoRows
           [VInt 7; VString "x"] H1 H2 H3 H4 H5 H6).
Defined.

(** ** Dependency tables *)

Lemma selectTarget_selectAll table : selectTarget (selectAll table) = Some table.
Proof.
  unfold selectTarget, selectAll. rewrite stripPrefix_app. cbn [mbind option_bind].
  rewrite <- (sapp_nil_r (quoteIdent table)). by rewrite readIdent_quoteIdent.
Qed.

Section DependencyFacts.

Variable Query : string → list value → option Rows.

Lemma loadDependency_askedOnce st rel :
  askedOnce st →
  askedOnce (loadDependency Query st rel) ∧
  (loadDependency Query st rel).1.1 = {[ToTable rel]} ∪ st.1.1.
Proof.
  destruct st as [[loaded deps] log]. intros (tables & Hnd & Hset & Hlog).
  cbn [fst snd] in *. subst loaded log. unfold loadDependency.
  destruct (decide (ToTable rel ∈ list_to_set tables)) as [Hin|Hnin].
  - split; [by exists tables|]. cbn [fst]. set_solver.
  - assert (askedOnce ({[ToTable rel]} ∪ list_to_set tables, deps,
                       (dependencyQuery <$> tables) ++ [dependencyQuery (ToTable rel)])) as Hnew.
    { exists (tables ++ [ToTable rel]). cbn [fst snd]. split; [|split].
      - apply NoDup_app. split; [done|]. split; [|apply NoDup_singleton].
        intros t Ht ->%list_elem_of_singleton. apply Hnin. by apply elem_of_list_to_set.
      - rewrite list_to_set_snoc_L. set_solver.
      - by rewrite fmap_app. }
    destruct (Query (selectAll (ToTable rel)) []) as [rs|]; split; try done;
      destruct Hnew as (l & ? & ? & ?); by exists l.
Qed.

Lemma loadDependency_fold_askedOnce rels st :
  askedOnce st →
  askedOnce (foldl (loadDependency Query) st rels) ∧
  (foldl (loadDependency Query) st rels).1.1 = targetTables rels ∪ st.1.1.
Proof.
  revert st. induction rels as [|rel rels IH]; intros st Hst; cbn [foldl].
  - split; [done|]. unfold targetTables. set_solver.
  - destruct (loadDependency_askedOnce st rel Hst) as [H1 H2].
    destruct (IH _ H1) as [H3 H4]. split; [done|]. rewrite H4, H2.
    unfold targetTables. rewrite fmap_cons, list_to_set_cons. set_solver.
Qed.

Lemma loadDependency_fold_fromRelations all rels st :
  rels ⊆ all → fromRelations Query all st.1.2 →
  fromRelations Query all (foldl (loadDependency Query) st rels).1.2.
Proof.
  revert st. induction rels as [|rel rels IH]; intros st Hsub Hst; [done|].
  cbn [foldl]. apply IH; [set_solver|].
  destruct st as [[loaded deps] log]. unfold loadDependency. cbn [fst snd] in *.
  destruct (decide (ToTable rel ∈ loaded)); [done|].
  destruct (Query (selectAll (ToTable rel)) []) as [rs|] eqn:Hq; [|done]. cbn [fst snd].
  intros column rows. destruct (decide (FromColumn rel = column)) as [<-|Hne].
  - rewrite lookup_insert_eq. intros [= <-]. exists rel, rs. split; [set_solver|done].
  - rewrite lookup_insert_ne by done. apply Hst.
Qed.

End DependencyFacts.

Lemma loadDependencies_tables Query rels :
  ∃ tables, NoDup tables ∧ list_to_set tables = targetTables rels ∧
            (loadDependencies Query rels).2 = dependencyQuery <$> tables.
Proof.
  assert (askedOnce (∅, ∅, []) ) as H0.
  { exists []. cbn. split; [apply NoDup_nil_2|]. split; [set_solver|done]. }
  destruct (loadDependency_fold_askedOnce Query rels (∅, ∅, []) H0)
    as [(tables & Hnd & Hset & Hlog) Hloaded].
  fold (loadDependencies Query rels) in Hset, Hlog, Hloaded.
  cbn [fst snd] in Hloaded. rewrite Hloaded in Hset.
  exists tables. split; [done|]. split; [set_solver|done].
Qed.

Lemma loadDependencies_log_length Query rels :
  length (loadDependencies Query rels).2 = size (targetTables rels).
Proof.
  destruct (loadDependencies_tables Query rels) as (tables & Hnd & Htabs & Hlog).
  rewrite Hlog, length_fmap, <- Htabs. symmetry. by apply size_list_to_set.
Qed.

(** X8.  The dependency loop asks for each distinct target table of the
    relations once, with [SELECT * FROM <table>] and no argument, also when
    several relations point at the table and also when its query failed: the
    number of statements is the number of distinct target tables.  Every entry
    of [dependencies] sits under the source column of a relation and holds the
    scanned rows of that relation's target table. *)
Theorem loadDependencies_once_per_table
    (Query : string → list value → option Rows) (rels : list RelationDefinition) :
  let loaded := loadDependencies Query rels in
  (∃ tables, NoDup tables ∧ list_to_set tables = targetTables rels ∧
             loaded.2 = dependencyQuery <$> tables) ∧
  length loaded.2 = size (targetTables rels) ∧
  selectTarget <$> loaded.2.*1 ≡ₚ Some <$> elements (targetTables rels) ∧
  fromRelations Query rels loaded.1.2.
Proof.
  intros loaded.
  destruct (loadDependencies_tables Query rels) as (tables & Hnd & Htabs & Hlog).
  fold loaded in Hlog.
  split; [by exists tables|]. split; [|split].
  - rewrite Hlog, length_fmap, <- Htabs. symmetry. by apply size_list_to_set.
  - rewrite Hlog, <- !list_fmap_compose.
    replace (selectTarget ∘ fst ∘ dependencyQuery <$> tables) with (Some <$> tables).
    + apply fmap_Permutation. rewrite <- Htabs. symmetry. by apply elements_list_to_set.
    + apply list_fmap_ext. intros _ t _. cbn. symmetry. apply selectTarget_selectAll.
  - subst loaded. apply (loadDependency_fold_fromRelations Query rels rels (∅, ∅, [])); [done|].
    intros column rows Hl. cbn in Hl. by rewrite lookup_empty in Hl.
Qed.

(** ** The list handler as a whole *)

Lemma collectDemands_dom page rels rows pivotData :
  dom (collectDemands page rels rows pivotData) ⊆ targetTables rels.
Proof.
  intros table Hin. apply elem_of_dom in Hin as [ids Hids].
  destruct (set_choose_L ids (collectDemands_populated page rels rows pivotData _ _ Hids))
    as [id Hid].
  assert (registered (collectDemands page rels rows pivotData) table id) as Hreg
    by (by exists ids).
  unfold collectDemands in Hreg.
  rewrite collectPivotFK_fold_registered_iff, collectScalarFKs_fold_registered_iff in Hreg.
  unfold targetTables. apply elem_of_list_to_set, list_elem_of_fmap.
  destruct Hreg as [[Hreg|(rel & _ & _ & Hin & _ & <- & _)]|(rel & _ & _ & _ & Hin & _ & <- & _)];
    [by apply registered_empty in Hreg|by exists rel..].
Qed.

Lemma loadPivot_fold_log_bound Query page allIDs rels :
  length (foldl (loadPivot Query page allIDs) (∅, []) rels).2 ≤
    length (filter (λ rel, isManyToMany rel = true) rels).
Proof.
  destruct allIDs as [|x xs].
  - rewrite loadPivot_fold_none. cbn. lia.
  - rewrite loadPivot_fold_log by done. cbn [snd app]. by rewrite length_fmap.
Qed.

Lemma demanded_size_bound (fk : gmap string (gset string)) (tables : gset string) :
  dom fk ⊆ tables → size (demanded fk) ≤ size tables.
Proof.
  intros Hsub. etrans; [apply map_subseteq_size, map_filter_subseteq|].
  rewrite <- size_dom. by apply subseteq_size.
Qed.

Lemma batchLoadRelated_log_length Query fk order :
  ranges fk order → length (batchLoadRelated Query order).2 = size (demanded fk).
Proof.
  intros Hr. rewrite batchLoadRelated_log, length_fmap.
  pose proof (ranges_demanded fk order Hr) as Hperm.
  apply Permutation_length in Hperm. rewrite !length_fmap in Hperm.
  rewrite Hperm. apply length_map_to_list.
Qed.

Lemma resolveRows_log_bound Query walk page rels rows :
  (∀ fk, ranges fk (walk fk)) →
  length (resolveRows Query walk page rels rows).2 ≤
    length (filter (λ rel, isManyToMany rel = true) rels) + size (targetTables rels).
Proof.
  intros Hwalk. unfold resolveRows.
  pose proof (loadPivot_fold_log_bound Query page (collectIDs rows) rels) as H1.
  destruct (foldl (loadPivot Query page (collectIDs rows)) (∅, []) rels) as [pivotData log1].
  pose proof (batchLoadRelated_log_length Query _ _
                (Hwalk (collectDemands page rels rows pivotData))) as H2.
  pose proof (demanded_size_bound _ _ (collectDemands_dom page rels rows pivotData)) as H3.
  destruct (batchLoadRelated Query (walk (collectDemands page rels rows pivotData)))
    as [objCache log2].
  cbn [fst snd] in *. rewrite length_app. lia.
Qed.

(** X9.  The list handler sends a number of statements that does not grow
    with the number of rows: the row fetch, at most one pivot query per
    many-to-many relation, and at most two queries per distinct target table
    (batch load and dependency).  A page that is not deployed or has no table
    sends nothing; when the row fetch fails the answer is an error; when the
    table has no row the answer is empty and no relation is looked at, not
    even for the dependencies. *)
Theorem listPage_statements
    (Query : string → list value → option Rows)
    (walk : gmap string (gset string) → list (string * list string))
    (deploy : option bool) (table : string) (rels : list RelationDefinition) :
  (∀ fk, ranges fk (walk fk)) →
  let answer := listPage Query walk deploy table rels in
  length answer.2 ≤
    1 + length (filter (λ rel, isManyToMany rel = true) rels) + 2 * size (targetTables rels) ∧
  (Bool deploy = false ∨ table = EmptyString → answer = (PageList [] ∅, [])) ∧
  (Bool deploy = true ∧ table ≠ EmptyString ∧ Query (selectAll table) [] = None →
     answer = (PageError, [(selectAll table, [])])) ∧
  (∀ rs, Bool deploy = true ∧ table ≠ EmptyString ∧
         Query (selectAll table) [] = Some rs ∧ scannedRows rs = [] →
     answer = (PageList [] ∅, [(selectAll table, [])])).
Proof.
  intros Hwalk answer. subst answer. unfold listPage. split; [|split; [|split]].
  - destruct (Bool deploy && negb (String.eqb table EmptyString)); [|cbn; lia].
    destruct (Query (selectAll table) []) as [rs|]; [|cbn; lia].
    destruct (length (scannedRows rs) =? 0); [cbn; lia|].
    pose proof (resolveRows_log_bound Query walk table rels (scannedRows rs) Hwalk) as H1.
    destruct (resolveRows Query walk table rels (scannedRows rs)) as [data log1].
    pose proof (loadDependencies_log_length Query rels) as H2.
    destruct (loadDependencies Query rels) as [[loaded deps] log2].
    cbn [fst snd] in *. rewrite !length_app. cbn [length]. lia.
  - intros [->| ->]; [done|]. by rewrite andb_false_r.
  - intros (-> & Hne%String.eqb_neq & ->). by rewrite Hne.
  - intros rs (-> & Hne%String.eqb_neq & -> & ->). by rewrite Hne.
Qed.

(** ** The item handler: pivot edges *)

Lemma runningRids_length rid scans : length (runningRids rid scans) = length scans.
Proof.
  revert rid. induction scans as [|scan scans IH]; intros rid; [done|].
  cbn [runningRids length]. by rewrite IH.
Qed.

Lemma runningRids_strings rid ids :
  runningRids rid ((λ r, Some [VString r]) <$> ids) = ids.
Proof.
  revert rid. induction ids as [|r ids IH]; intros rid; [done|].
  rewrite fmap_cons. cbn [runningRids scanRid scanString default]. by rewrite IH.
Qed.

Lemma itemEdge_fold pivot table scans rid pd fk :
  let st := foldl (itemEdge pivot table) (rid, pd, fk) scans in
  default [] (st.1.2 !! pivot) = default [] (pd !! pivot) ++ runningRids rid scans ∧
  (∀ p, p ≠ pivot → st.1.2 !! p = pd !! p) ∧
  (∀ t id, registered st.2 t id ↔
             registered fk t id ∨ (t = table ∧ id ∈ runningRids rid scans)) ∧
  dom st.2 ⊆ dom fk ∪ {[table]}.
Proof.
  revert rid pd fk. induction scans as [|scan scans IH]; intros rid pd fk; cbn [foldl runningRids].
  - cbn [fst snd]. rewrite app_nil_r. split; [done|]. split; [done|]. split; [|set_solver].
    intros t id. split; [by left|]. intros [?|[_ Hin]]; [done|]. by apply elem_of_nil in Hin.
  - unfold itemEdge at 2. destruct (IH (scanRid rid scan)
        (<[pivot := default [] (pd !! pivot) ++ [scanRid rid scan]]> pd)
        (addFK fk table (scanRid rid scan))) as (H1 & H2 & H3 & H4).
    cbv zeta in H1, H2, H3, H4. split; [|split; [|split]].
    + rewrite H1, lookup_insert_eq. simpl. by rewrite <- app_assoc.
    + intros p Hp. rewrite H2 by done. by rewrite lookup_insert_ne.
    + intros t id. rewrite H3, addFK_registered_iff, elem_of_cons. naive_solver.
    + etrans; [apply H4|]. unfold addFK. rewrite dom_insert_L. set_solver.
Qed.

Section ItemPivots.

Variable Query : string → list value → option Rows.

Lemma loadItemPivot_log page itemID st rel :
  (loadItemPivot Query page itemID st rel).2 =
    st.2 ++ (if isManyToMany rel then [itemPivotStmt page itemID rel] else []).
Proof.
  destruct st as [[pd fk] log]. unfold loadItemPivot. cbn [snd].
  destruct (isManyToMany rel); cbn [negb]; [|by rewrite app_nil_r].
  destruct (Query _ _) as [rs|]; [|done].
  by destruct (foldl _ _ _) as [[? ?] ?].
Qed.

Lemma loadItemPivot_fold_log page itemID rels st :
  (foldl (loadItemPivot Query page itemID) st rels).2 =
    st.2 ++ (itemPivotStmt page itemID <$> filter (λ rel, isManyToMany rel = true) rels).
Proof.
  revert st. induction rels as [|rel rels IH]; intros st; cbn [foldl].
  - by rewrite filter_nil, app_nil_r.
  - rewrite IH, loadItemPivot_log, filter_cons. destruct (isManyToMany rel).
    + rewrite decide_True by done. by rewrite fmap_cons, <- app_assoc.
    + rewrite decide_False by done. by rewrite app_nil_r.
Qed.

(** What one turn of the pivot loop does to the right ids of a pivot and to
    the demands. *)
Lemma loadItemPivot_step page itemID st rel :
  let st' := loadItemPivot Query page itemID st rel in
  (∀ p, default [] (st'.1.1 !! p) =
          default [] (st.1.1 !! p) ++
          (if decide (isManyToMany rel = true ∧ pivotTableName page rel = p) then
             match Query (itemPivotQuery p) [VString itemID] with
             | Some rs => runningRids EmptyString (Scans rs)
             | None => []
             end
           else [])) ∧
  (∀ t id, registered st.1.2 t id → registered st'.1.2 t id) ∧
  dom st'.1.2 ⊆ dom st.1.2 ∪ {[ToTable rel]}.
Proof.
  destruct st as [[pd fk] log]. unfold loadItemPivot. cbn [fst snd].
  destruct (isManyToMany rel) eqn:Hrel; cbn [negb].
  2: { cbn [fst snd]. split; [|split; [done|set_solver]].
       intros p. rewrite decide_False by naive_solver. by rewrite app_nil_r. }
  destruct (Query (itemPivotQuery (pivotTableName page rel)) [VString itemID]) as [rs|] eqn:Hq.
  2: { cbn [fst snd]. split; [|split; [done|set_solver]].
       intros p. destruct (decide _) as [[_ <-]|]; [rewrite Hq|]; by rewrite app_nil_r. }
  destruct (itemEdge_fold (pivotTableName page rel) (ToTable rel) (Scans rs) EmptyString pd fk)
    as (H1 & H2 & H3 & H4). cbv zeta in H1, H2, H3, H4.
  destruct (foldl _ _ (Scans rs)) as [[rid' pd'] fk']. cbn [fst snd] in *.
  split; [|split; [|done]].
  - intros p. destruct (decide _) as [[_ <-]|Hne].
    + by rewrite Hq.
    + rewrite app_nil_r. rewrite H2; [done|]. naive_solver.
  - intros t id Hreg. apply H3. by left.
Qed.

End ItemPivots.

(** X10.  The item handler reads the pivot edges with one statement per
    many-to-many relation, in the order of the relations, and binds the item
    id as the argument of [$1]: the texts sent are the same for every item
    id and every database. *)
Theorem item_pivot_statements
    (Query Query' : string → list value → option Rows)
    (page itemID itemID' : string) (rels : list RelationDefinition)
    (fk fk' : gmap string (gset string)) :
  let sent := (foldl (loadItemPivot Query page itemID) (∅, fk, []) rels).2 in
  let sent' := (foldl (loadItemPivot Query' page itemID') (∅, fk', []) rels).2 in
  sent = itemPivotStmt page itemID <$> filter (λ rel, isManyToMany rel = true) rels ∧
  Forall (λ st : Stmt, st.2 = [VString itemID] ∧
                       ∃ pivot, st.1 = "SELECT right_id FROM " +:+ quoteIdent pivot
                                         +:+ " WHERE left_id = $1") sent ∧
  sent.*1 = sent'.*1.
Proof.
  intros sent sent'. subst sent sent'. rewrite !loadItemPivot_fold_log. cbn [snd app].
  split; [done|]. split.
  - apply Forall_fmap, Forall_forall. intros rel _. cbn. split; [done|].
    by exists (pivotTableName page rel).
  - rewrite <- !list_fmap_compose. by apply list_fmap_ext.
Qed.

(** X11.  In the item handler every row returned by a pivot query gives one
    right id, also a row whose [Scan] is refused: the scan variable then
    still holds the id of the row before (or the empty string on the first
    row), and that value is appended again.  When every row scans, the ids are
    those of the rows in their order.  Every id appended is also registered
    as a demand on the target table. *)
Theorem item_edge_per_returned_row
    (pivot table : string) (scans : list (option (list value)))
    (pd : gmap string (list string)) (fk : gmap string (gset string)) :
  let st := foldl (itemEdge pivot table) (EmptyString, pd, fk) scans in
  default [] (st.1.2 !! pivot) = default [] (pd !! pivot) ++ runningRids EmptyString scans ∧
  length (runningRids EmptyString scans) = length scans ∧
  (∀ ids, scans = (λ r, Some [VString r]) <$> ids → runningRids EmptyString scans = ids) ∧
  (∀ i scan, scans !! (S i) = Some scan → scanEdgeless scan →
     runningRids EmptyString scans !! (S i) = runningRids EmptyString scans !! i) ∧
  (∀ id, id ∈ runningRids EmptyString scans → registered st.2 table id).
Proof.
  intros st. destruct (itemEdge_fold pivot table scans EmptyString pd fk) as (H1 & _ & H3 & _).
  cbv zeta in H1, H3. fold st in H1, H3.
  split; [done|]. split; [apply runningRids_length|]. split; [|split].
  - intros ids ->. apply runningRids_strings.
  - intros i scan Hi Hbad.
    assert (∀ rid l j sc, l !! (S j) = Some sc → scanEdgeless sc →
              runningRids rid l !! (S j) = runningRids rid l !! j) as Hgen.
    { intros rid l. revert rid. induction l as [|s0 l IH]; intros rid j sc Hj Hsc; [done|].
      cbn [runningRids]. destruct j as [|j].
      - destruct l as [|s1 l]; [done|]. cbn in Hj. injection Hj as ->.
        cbn [runningRids lookup list_lookup]. f_equal. by apply Hsc.
      - cbn in Hj. cbn [lookup list_lookup]. by eapply IH. }
    by eapply Hgen.
  - intros id Hin. apply H3. by right.
Qed.

(** ** The item handler: resolution *)

Lemma resolveItemRelation_frame page pivotData objCache item rel k :
  k ≠ FromColumn rel →
  resolveItemRelation page pivotData objCache item rel !! k = item !! k.
Proof.
  intros Hk. unfold resolveItemRelation.
  repeat (case_match; try done); by rewrite lookup_insert_ne.
Qed.

Lemma resolveItemRelation_fold_frame page pivotData objCache rels item k :
  k ∉ FromColumn <$> rels →
  foldl (resolveItemRelation page pivotData objCache) item rels !! k = item !! k.
Proof.
  revert item. induction rels as [|rel rels IH]; intros item Hk; [done|].
  rewrite fmap_cons, not_elem_of_cons in Hk. destruct Hk as [Hk Hks].
  cbn [foldl]. rewrite IH by done. by apply resolveItemRelation_frame.
Qed.

Lemma resolveItemRelation_many_to_many page pivotData objCache item rel :
  isManyToMany rel = true →
  resolveItemRelation page pivotData objCache item rel =
    <[FromColumn rel :=
        VList ((λ rid, match objCache !! cacheKey (ToTable rel) rid with
                       | Some obj => VMap obj
                       | None => VString rid
                       end) <$> default [] (pivotData !! pivotTableName page rel))]> item.
Proof.
  intros Hrel. unfold resolveItemRelation.
  by rewrite (isManyToMany_not_scalar rel Hrel), Hrel.
Qed.

Section ItemFacts.

Variable Query : string → list value → option Rows.

(** The right ids one relation contributes to the pivot [p]. *)
Lemma loadItemPivot_fold_other page itemID rels st p :
  (∀ rel, rel ∈ rels → isManyToMany rel = true → pivotTableName page rel ≠ p) →
  default [] ((foldl (loadItemPivot Query page itemID) st rels).1.1 !! p) =
    default [] (st.1.1 !! p).
Proof.
  revert st. induction rels as [|rel rels IH]; intros st Hne; [done|].
  cbn [foldl]. rewrite IH by (intros; apply Hne; [by right|done]).
  destruct (loadItemPivot_step Query page itemID st rel) as (H1 & _). cbv zeta in H1.
  rewrite H1. rewrite decide_False; [by rewrite app_nil_r|].
  intros [Hm Hp]. by apply (Hne rel); [left|..].
Qed.

Lemma loadItemPivot_fold_own page itemID rels st rel :
  rel ∈ rels → isManyToMany rel = true →
  NoDup (pivotTableName page <$> filter (λ r, isManyToMany r = true) rels) →
  default [] ((foldl (loadItemPivot Query page itemID) st rels).1.1 !! pivotTableName page rel) =
    default [] (st.1.1 !! pivotTableName page rel) ++
    match Query (itemPivotQuery (pivotTableName page rel)) [VString itemID] with
    | Some rs => runningRids EmptyString (Scans rs)
    | None => []
    end.
Proof.
  intros Hin Hrel Hnd. apply list_elem_of_split in Hin as (before & after & ->).
  rewrite filter_app, filter_cons_True, fmap_app, fmap_cons in Hnd by done.
  apply NoDup_app in Hnd as (_ & Hbefore & Hnd). apply NoDup_cons in Hnd as [Hafter _].
  rewrite foldl_app. cbn [foldl]. rewrite loadItemPivot_fold_other.
  2: { intros r Hr Hm Heq. apply Hafter. rewrite <- Heq. apply list_elem_of_fmap.
       exists r. split; [done|]. by apply list_elem_of_filter. }
  destruct (loadItemPivot_step Query page itemID
              (foldl (loadItemPivot Query page itemID) st before) rel) as (H1 & _).
  cbv zeta in H1. rewrite H1, decide_True by done.
  rewrite loadItemPivot_fold_other; [done|].
  intros r Hr Hm Heq. apply (Hbefore (pivotTableName page rel)); [|left].
  rewrite <- Heq. apply list_elem_of_fmap. exists r. split; [done|].
  by apply list_elem_of_filter.
Qed.

Lemma loadItemPivot_fold_registered page itemID rels st t id :
  registered st.1.2 t id →
  registered (foldl (loadItemPivot Query page itemID) st rels).1.2 t id.
Proof.
  revert st. induction rels as [|rel rels IH]; intros st Hreg; [done|].
  cbn [foldl]. apply IH.
  destruct (loadItemPivot_step Query page itemID st rel) as (_ & H2 & _). by apply H2.
Qed.

Lemma loadItemPivot_fold_dom page itemID rels st :
  dom (foldl (loadItemPivot Query page itemID) st rels).1.2 ⊆ dom st.1.2 ∪ targetTables rels.
Proof.
  revert st. induction rels as [|rel rels IH]; intros st; cbn [foldl]; [set_solver|].
  etrans; [apply IH|].
  destruct (loadItemPivot_step Query page itemID st rel) as (_ & _ & H3). cbv zeta in H3.
  unfold targetTables. rewrite fmap_cons, list_to_set_cons. set_solver.
Qed.

Lemma itemScalarFK_fold_registered item rels fk rel v :
  rel ∈ rels → isScalarRel rel = true →
  item !! FromColumn rel = Some v → isNil v = false →
  registered (foldl (itemScalarFK item) fk rels) (ToTable rel) (Sprintf_v v).
Proof.
  intros Hin Hrel Hv Hnil. revert fk.
  induction rels as [|rel' rels IH]; intros fk; [by apply elem_of_nil in Hin|].
  cbn [foldl]. apply elem_of_cons in Hin as [<-|Hin]; [|by apply IH].
  assert (∀ l fk', registered fk' (ToTable rel) (Sprintf_v v) →
            registered (foldl (itemScalarFK item) fk' l) (ToTable rel) (Sprintf_v v)) as Hkeep.
  { induction l as [|r l IHl]; intros fk' Hreg; [done|]. cbn [foldl]. apply IHl.
    unfold itemScalarFK. repeat (case_match; try done). by apply addFK_keeps. }
  apply Hkeep. unfold itemScalarFK. rewrite Hrel, Hv, Hnil. apply addFK_registered.
Qed.

Lemma itemScalarFK_fold_dom item rels fk :
  dom (foldl (itemScalarFK item) fk rels) ⊆ dom fk ∪ targetTables rels.
Proof.
  revert fk. induction rels as [|rel rels IH]; intros fk; cbn [foldl]; [set_solver|].
  etrans; [apply IH|]. unfold targetTables. rewrite fmap_cons, list_to_set_cons.
  unfold itemScalarFK. repeat case_match; try set_solver.
  all: unfold addFK; rewrite dom_insert_L; set_solver.
Qed.

Lemma itemDemands_dom page itemID rels item :
  dom (itemDemands Query page itemID rels item) ⊆ targetTables rels.
Proof.
  unfold itemDemands. etrans; [apply loadItemPivot_fold_dom|]. cbn [fst snd].
  pose proof (itemScalarFK_fold_dom item rels ∅). set_solver.
Qed.

Lemma resolveItem_unfold walk page rels itemID item :
  resolveItem Query walk page rels itemID item =
    (foldl (resolveItemRelation page (itemPivots Query page itemID rels item)
              (batchLoadRelated Query (walk (itemDemands Query page itemID rels item))).1)
           item rels,
     (itemPivotStmt page itemID <$> filter (λ rel, isManyToMany rel = true) rels) ++
     (batchLoadRelated Query (walk (itemDemands Query page itemID rels item))).2).
Proof.
  unfold resolveItem, itemPivots, itemDemands.
  pose proof (loadItemPivot_fold_log Query page itemID rels
                (∅, foldl (itemScalarFK item) ∅ rels, [])) as Hlog.
  destruct (foldl (loadItemPivot Query page itemID) _ rels) as [[pd fk] log1].
  cbn [fst snd app] in *. subst log1.
  by destruct (batchLoadRelated Query (walk fk)) as [objCache log2].
Qed.

End ItemFacts.

(** X12.  In the item handler a many-to-many column always comes back as a
    list, with one element per row that the pivot query returned, and as the
    empty list when that query failed, provided the relation shares neither
    its source column nor its pivot table with another relation. *)
Theorem item_many_to_many_list
    (Query : string → list value → option Rows)
    (walk : gmap string (gset string) → list (string * list string))
    (page : string) (rels : list RelationDefinition) (itemID : string) (item : Row)
    (rel : RelationDefinition) :
  rel ∈ rels →
  isManyToMany rel = true →
  NoDup (FromColumn <$> rels) →
  NoDup (pivotTableName page <$> filter (λ r, isManyToMany r = true) rels) →
  ∃ l, (resolveItem Query walk page rels itemID item).1 !! FromColumn rel = Some (VList l) ∧
       length l =
         match Query (itemPivotQuery (pivotTableName page rel)) [VString itemID] with
         | Some rs => length (Scans rs)
         | None => 0
         end.
Proof.
  intros Hin Hrel Hcols Hpivots. rewrite resolveItem_unfold. cbn [fst].
  pose proof (loadItemPivot_fold_own Query page itemID rels
                (∅, foldl (itemScalarFK item) ∅ rels, []) rel Hin Hrel Hpivots) as Hown.
  fold (itemPivots Query page itemID rels item) in Hown. cbn [fst snd] in Hown.
  rewrite lookup_empty in Hown. cbn [default app] in Hown.
  apply list_elem_of_split in Hin as (before & after & ->).
  rewrite fmap_app, fmap_cons in Hcols.
  apply NoDup_app in Hcols as (_ & _ & Hcols). apply NoDup_cons in Hcols as [Hafter _].
  rewrite foldl_app. cbn [foldl].
  rewrite resolveItemRelation_fold_frame by done.
  rewrite resolveItemRelation_many_to_many by done. rewrite lookup_insert_eq.
  eexists. split; [done|]. rewrite length_fmap, Hown.
  destruct (Query _ _); [apply runningRids_length|done].
Qed.

Lemma item_many_to_many_list_witness :
  tagsRel ∈ [ownerRel; tagsRel] ∧
  isManyToMany tagsRel = true ∧
  NoDup (FromColumn <$> [ownerRel; tagsRel]) ∧
  NoDup (pivotTableName "pages" <$> filter (λ r, isManyToMany r = true) [ownerRel; tagsRel]) ∧
  ∃ l, (resolveItem itemQuery rangeOf "pages" [ownerRel; tagsRel] "1" ownedRow).1
         !! FromColumn tagsRel = Some (VList l) ∧
       length l =
         match itemQuery (itemPivotQuery (pivotTableName "pages" tagsRel)) [VString "1"] with
         | Some rs => length (Scans rs)
         | None => 0
         end.
Proof.
  assert (tagsRel ∈ [ownerRel; tagsRel]) as H1 by (right; left).
  assert (isManyToMany tagsRel = true) as H2 by reflexivity.
  assert (NoDup (FromColumn <$> [ownerRel; tagsRel])) as H3
    by (apply (bool_decide_unpack _); vm_compute; exact I).
  assert (NoDup (pivotTableName "pages" <$>
                   filter (λ r, isManyToMany r = true) [ownerRel; tagsRel])) as H4
    by (apply (bool_decide_unpack _); vm_compute; exact I).
  repeat (split; [assumption|]).
  exact (item_many_to_many_list itemQuery rangeOf "pages" [ownerRel; tagsRel] "1" ownedRow
           tagsRel H1 H2 H3 H4).
Defined.

Example item_repeats_id_after_null :
  (resolveItem itemQuery rangeOf "pages" [tagsRel] "1" (<["id" := VInt 1]> ∅)).1 !! "tags"
    = Some (VList [VString "7"; VString "7"]).
Proof. vm_compute. reflexivity. Qed.

(** X13.  The item handler registers every scalar of a one-to-one or
    one-to-many relation that is present and not [nil], whatever its text,
    the empty text included, and the batch query for the target table is sent
    with that text among its arguments. *)
Theorem item_scalar_registered
    (Query : string → list value → option Rows)
    (walk : gmap string (gset string) → list (string * list string))
    (page : string) (rels : list RelationDefinition) (itemID : string) (item : Row)
    (rel : RelationDefinition) (v : value) :
  (∀ fk, ranges fk (walk fk)) →
  rel ∈ rels →
  isScalarRel rel = true →
  item !! FromColumn rel = Some v →
  isNil v = false →
  registered (itemDemands Query page itemID rels item) (ToTable rel) (Sprintf_v v) ∧
  ∃ ids, Sprintf_v v ∈ ids ∧
         issued (ToTable rel, ids) ∈ (resolveItem Query walk page rels itemID item).2.
Proof.
  intros Hwalk Hin Hrel Hv Hnil.
  assert (registered (itemDemands Query page itemID rels item) (ToTable rel) (Sprintf_v v))
    as Hreg.
  { unfold itemDemands. apply loadItemPivot_fold_registered. cbn [fst snd].
    by apply itemScalarFK_fold_registered. }
  split; [done|]. destruct Hreg as (s & Hs & Hins).
  destruct (Hwalk (itemDemands Query page itemID rels item)) as [Hperm Hall].
  assert (ToTable rel ∈ (walk (itemDemands Query page itemID rels item)).*1) as Ht.
  { rewrite Hperm. apply list_elem_of_fmap. exists (ToTable rel, s).
    split; [done|]. by apply elem_of_map_to_list. }
  apply list_elem_of_fmap in Ht as [[t ids] [Heq Hd]]. cbn in Heq. subst t.
  rewrite Forall_forall in Hall. destruct (Hall _ Hd) as (s' & Hs' & Hp). cbn [fst snd] in *.
  assert (s' = s) as -> by congruence.
  assert (Sprintf_v v ∈ ids) as Hinids.
  { rewrite Hp. by apply elem_of_elements. }
  exists ids. split; [done|]. rewrite resolveItem_unfold. cbn [snd].
  apply elem_of_app. right. rewrite batchLoadRelated_log.
  apply list_elem_of_fmap. exists (ToTable rel, ids). split; [done|].
  apply list_elem_of_filter. split; [|done]. cbn. intros ->. by apply elem_of_nil in Hinids.
Qed.

Lemma item_scalar_registered_witness :
  (∀ fk, ranges fk (rangeOf fk)) ∧
  ownerRel ∈ [ownerRel] ∧
  isScalarRel ownerRel = true ∧
  blankOwnerItem !! FromColumn ownerRel = Some (VString EmptyString) ∧
  isNil (VString EmptyString) = false ∧
  registered (itemDemands (λ _ _, None) "pages" "1" [ownerRel] blankOwnerItem)
    (ToTable ownerRel) (Sprintf_v (VString EmptyString)) ∧
  ∃ ids, Sprintf_v (VString EmptyString) ∈ ids ∧
         issued (ToTable ownerRel, ids) ∈
           (resolveItem (λ _ _, None) rangeOf "pages" [ownerRel] "1" blankOwnerItem).2.
Proof.
  assert (ownerRel ∈ [ownerRel]) as H2 by left.
  assert (isScalarRel ownerRel = true) as H3 by reflexivity.
  assert (blankOwnerItem !! FromColumn ownerRel = Some (VString EmptyString)) as H4
    by reflexivity.
  assert (isNil (VString EmptyString) = false) as H5 by reflexivity.
  split; [exact ranges_rangeOf|]. repeat (split; [assumption|]).
  exact (item_scalar_registered (λ _ _, None) rangeOf "pages" [ownerRel] "1" blankOwnerItem
           ownerRel (VString EmptyString) ranges_rangeOf H2 H3 H4 H5).
Defined.

(** X14.  The item handler answers 400 without a statement when the page is
    not deployed or has no table.  It answers 404, after the row query and
    the column introspection and before any relation is looked at, when the
    row query fails, returns no row, or returns a row whose number of columns
    is not the number of introspected columns (as when the introspection
    itself failed).  In every case the number of statements is bounded by
    the relations alone. *)
Theorem getItem_statements
    (Query : string → list value → option Rows)
    (walk : gmap string (gset string) → list (string * list string))
    (deploy : option bool) (table : string) (rels : list RelationDefinition)
    (itemID : string) :
  (∀ fk, ranges fk (walk fk)) →
  let answer := getItem Query walk deploy table rels itemID in
  let fetch := [(selectById table, [VString itemID]); (getColumnsQuery, [VString table])] in
  length answer.2 ≤
    2 + length (filter (λ rel, isManyToMany rel = true) rels) + 2 * size (targetTables rels) ∧
  (Bool deploy = false ∨ table = EmptyString → answer = (PageBadRequest, [])) ∧
  (Bool deploy = true ∧ table ≠ EmptyString ∧
   (Query (selectById table) [VString itemID] = None ∨
    ∃ rs, Query (selectById table) [VString itemID] = Some rs ∧
          (Scans rs = [] ∨
           length (Columns rs) ≠ length (default [] (getColumns Query table)))) →
   answer = (PageNotFound, fetch)) ∧
  (Bool deploy = true ∧ table ≠ EmptyString ∧ getColumns Query table = None ∧
   (∀ rs, Query (selectById table) [VString itemID] = Some rs → Columns rs ≠ []) →
   answer = (PageNotFound, fetch)).
Proof.
  intros Hwalk answer fetch.
  assert (Bool deploy = true ∧ table ≠ EmptyString ∧
          (Query (selectById table) [VString itemID] = None ∨
           ∃ rs, Query (selectById table) [VString itemID] = Some rs ∧
                 (Scans rs = [] ∨
                  length (Columns rs) ≠ length (default [] (getColumns Query table)))) →
          answer = (PageNotFound, fetch)) as Hnotfound.
  { intros (Hd & Hne%String.eqb_neq & Hrow). subst answer. unfold getItem.
    rewrite Hd, Hne. cbn [negb orb].
    assert (rowScan (Query (selectById table) [VString itemID])
              (length (default [] (getColumns Query table))) = None) as ->; [|done].
    destruct Hrow as [->|(rs & -> & [Hs|Hc])]; [done|..]; unfold rowScan.
    - by rewrite Hs.
    - destruct (Scans rs); [done|].
      by destruct (Nat.eqb_spec (length (Columns rs))
                     (length (default [] (getColumns Query table)))). }
  split; [|split; [|split; [done|]]].
  - subst answer. unfold getItem.
    destruct (negb (Bool deploy) || String.eqb table EmptyString); [cbn; lia|].
    destruct (rowScan _ _) as [values|]; [|cbn; lia].
    rewrite resolveItem_unfold.
    pose proof (batchLoadRelated_log_length Query _ _
                  (Hwalk (itemDemands Query table itemID rels
                            (scanEntry (default [] (getColumns Query table)) values)))) as H1.
    pose proof (demanded_size_bound _ _
                  (itemDemands_dom Query table itemID rels
                     (scanEntry (default [] (getColumns Query table)) values))) as H2.
    pose proof (loadDependencies_log_length Query rels) as H3.
    destruct (loadDependencies Query rels) as [[loaded deps] log2].
    cbn [fst snd] in *. rewrite !length_app, length_fmap. cbn [length]. lia.
  - intros [Hd| ->]; subst answer; unfold getItem; [by rewrite Hd|].
    by rewrite orb_true_r.
  - intros (Hd & Hne & Hcols & Hrow). apply Hnotfound. split; [done|]. split; [done|].
    destruct (Query (selectById table) [VString itemID]) as [rs|] eqn:Hq; [|by left].
    right. exists rs. split; [done|]. right. rewrite Hcols. cbn.
    specialize (Hrow rs eq_refl). destruct (Columns rs); [done|]. cbn. lia.
Qed.

Lemma getItem_statements_witness :
  (∀ fk, ranges fk (rangeOf fk)) ∧
  let answer := getItem itemQuery rangeOf (Some true) "pages" [ownerRel; tagsRel] "1" in
  length answer.2 ≤
    2 + length (filter (λ rel, isManyToMany rel = true) [ownerRel; tagsRel])
      + 2 * size (targetTables [ownerRel; tagsRel]) ∧
  answer = (PageNotFound,
            [(selectById "pages", [VString "1"]); (getColumnsQuery, [VString "pages"])]).
Proof.
  split; [exact ranges_rangeOf|].
  destruct (getItem_statements itemQuery rangeOf (Some true) "pages" [ownerRel; tagsRel] "1"
              ranges_rangeOf) as (H1 & _ & H3 & _).
  split; [exact H1|]. apply H3. split; [reflexivity|]. split; [discriminate|]. by left.
Defined.

Lemma listPage_statements_witness :
  (∀ fk, ranges fk (rangeOf fk)) ∧
  let answer := listPage demoQuery rangeOf (Some true) "pages" [ownerRel; tagsRel] in
  length answer.2 ≤
    1 + length (filter (λ rel, isManyToMany rel = true) [ownerRel; tagsRel])
      + 2 * size (targetTables [ownerRel; tagsRel]).
Proof.
  split; [exact ranges_rangeOf|].
  destruct (listPage_statements demoQuery rangeOf (Some true) "pages" [ownerRel; tagsRel]
              ranges_rangeOf) as (H1 & _).
  exact H1.
Defined.

(** ** The statements of [InsertDynamic] and [UpdateDynamic] *)

Lemma insertStep_fold_closed kvs b :
  let r := foldl insertStep b kvs in
  parts r = parts b ++ (quoteIdent <$> kvs.*1) ∧
  params r = params b ++ numbered (next b) (length kvs) ∧
  bound r = bound b ++ kvs.*2 ∧
  next r = next b + length kvs.
Proof.
  revert b. induction kvs as [|kv kvs IH]; intros b; cbn [foldl].
  - unfold numbered. cbn. rewrite !app_nil_r. split; [done|]. split; [done|]. split; [done|lia].
  - destruct (IH (insertStep b kv)) as (H1 & H2 & H3 & H4). cbv zeta in *.
    rewrite H1, H2, H3, H4. unfold insertStep, numbered. cbn [parts params bound next].
    rewrite !fmap_cons, <- !app_assoc. cbn [length seq fmap list_fmap app].
    split; [done|]. split; [by rewrite Nat.add_1_r|]. split; [done|]. cbn [length]. lia.
Qed.

Lemma updateStep_fold_closed kvs b :
  let r := foldl updateStep b kvs in
  parts r = parts b ++ assignments (next b) kvs.*1 ∧
  bound r = bound b ++ kvs.*2 ∧
  next r = next b + length kvs.
Proof.
  revert b. induction kvs as [|kv kvs IH]; intros b; cbn [foldl].
  - unfold assignments. cbn. rewrite !app_nil_r. split; [done|]. split; [done|lia].
  - destruct (IH (updateStep b kv)) as (H1 & H2 & H3). cbv zeta in *.
    rewrite H1, H2, H3. unfold updateStep, assignments. cbn [parts bound next].
    rewrite !fmap_cons, <- !app_assoc. cbn [imap app fst]. rewrite Nat.add_0_r.
    split; [|split; [done|cbn [length]; lia]]. do 2 f_equal.
    apply imap_ext. intros i col _. cbn [compose].
    by replace (next b + 1 + i) with (next b + S i) by lia.
Qed.

Lemma InsertDynamic_nonempty {DB : Type}
    (QueryRowScan : Stmt → DB → DB * (string + error))
    (rangeFields : gmap string value → list (string * value))
    (table : string) (fields : gmap string value) (c : Conn DB) :
  fields ≠ ∅ →
  InsertDynamic QueryRowScan rangeFields table fields c =
    queryRowScan QueryRowScan (insertQuery table (rangeFields fields).*1)
      (rangeFields fields).*2 c.
Proof.
  intros Hne%map_size_non_empty_iff. unfold InsertDynamic.
  destruct (Nat.eqb_spec (size fields) 0) as [|_]; [done|].
  destruct (insertStep_fold_closed (rangeFields fields)
              {| parts := []; params := []; bound := []; next := 1 |}) as (H1 & H2 & H3 & _).
  cbv zeta in *. cbn [parts params bound next app] in *. rewrite H1, H2, H3.
  unfold insertQuery. by rewrite !length_fmap.
Qed.

(** X15.  For a non-empty [fields] map walked column by column,
    [InsertDynamic] sends exactly one statement: [INSERT INTO <table> (...)
    VALUES ($1, ..., $n) RETURNING id] with the quoted columns in the order of
    the walk and one placeholder per column, and as arguments the values in
    that same order, so that the i-th placeholder is bound to the value of
    the i-th column, each column of the map occurring once.  It returns the id
    the database hands back, or the empty string with the database's
    error. *)
Theorem InsertDynamic_statement {DB : Type}
    (QueryRowScan : Stmt → DB → DB * (string + error))
    (rangeFields : gmap string value → list (string * value))
    (table : string) (fields : gmap string value) (c : Conn DB) :
  fields ≠ ∅ →
  rangeFields fields ≡ₚ map_to_list fields →
  let kvs := rangeFields fields in
  let stmt : Stmt := (insertQuery table kvs.*1, kvs.*2) in
  let out := InsertDynamic QueryRowScan rangeFields table fields c in
  sent out.1 = sent c ++ [stmt] ∧
  db out.1 = (QueryRowScan stmt (db c)).1 ∧
  out.2 = match (QueryRowScan stmt (db c)).2 with
          | inl newID => (newID, None)
          | inr err => (EmptyString, Some err)
          end ∧
  NoDup kvs.*1 ∧
  length kvs = size fields ∧
  (∀ i col v, kvs !! i = Some (col, v) →
     fields !! col = Some v ∧
     (quoteIdent <$> kvs.*1) !! i = Some (quoteIdent col) ∧
     numbered 1 (length kvs.*1) !! i = Some ("$" +:+ Str.itoa (i + 1)) ∧
     stmt.2 !! i = Some v).
Proof.
  intros Hne Hperm kvs stmt out. subst out. rewrite InsertDynamic_nonempty by done.
  fold kvs. unfold queryRowScan. fold stmt.
  destruct (QueryRowScan stmt (db c)) as [d r]. cbn [fst snd db sent].
  split; [done|]. split; [done|]. split; [done|]. split; [|split].
  - subst kvs. rewrite Hperm. apply NoDup_fst_map_to_list.
  - subst kvs. rewrite Hperm. apply length_map_to_list.
  - intros i col v Hi. split; [|split; [|split]].
    + apply elem_of_map_to_list. rewrite <- Hperm. by eapply list_elem_of_lookup_2.
    + by rewrite !list_lookup_fmap, Hi.
    + unfold numbered. rewrite list_lookup_fmap, lookup_seq_lt.
      * by rewrite (Nat.add_comm 1 i).
      * rewrite length_fmap. by eapply lookup_lt_Some.
    + subst stmt. cbn [snd]. by rewrite list_lookup_fmap, Hi.
Qed.

Lemma InsertDynamic_statement_witness :
  ({[ "name" := VString "x" ]} : gmap string value) ≠ ∅ ∧
  map_to_list ({[ "name" := VString "x" ]} : gmap string value)
    ≡ₚ map_to_list ({[ "name" := VString "x" ]} : gmap string value) ∧
  sent (InsertDynamic (λ _ (d : nat), (S d, inl "42")) map_to_list "widgets"
          {[ "name" := VString "x" ]} {| db := 0; sent := [] |}).1
    = [(insertQuery "widgets" ["name"], [VString "x"])].
Proof.
  assert (({[ "name" := VString "x" ]} : gmap string value) ≠ ∅) as H1.
  { intros H. apply (f_equal (λ m : gmap string value, m !! "name")) in H.
    by rewrite lookup_singleton_eq, lookup_empty in H. }
  split; [exact H1|]. split; [done|].
  destruct (InsertDynamic_statement (λ _ (d : nat), (S d, inl "42")) map_to_list "widgets"
              {[ "name" := VString "x" ]} {| db := 0; sent := [] |} H1 (reflexivity _))
    as (Hs & _).
  exact Hs.
Defined.

(** X16.  For a non-empty [fields] map, [UpdateDynamic] sends exactly one
    statement: [UPDATE <table> SET <col> = $i, ... WHERE id = $n+1] with the
    assignments numbered from 1 in the order of the walk, and as arguments
    the values in that order followed by the row id, so that the row id is
    the last argument and the placeholder of the [WHERE] clause is its
    number.  The error of the database is returned as it is. *)
Theorem UpdateDynamic_statement {DB : Type}
    (Exec : Stmt → DB → DB * option error)
    (rangeFields : gmap string value → list (string * value))
    (table id : string) (fields : gmap string value) (c : Conn DB) :
  fields ≠ ∅ →
  let kvs := rangeFields fields in
  let stmt : Stmt := (updateQuery table kvs.*1, kvs.*2 ++ [VString id]) in
  let out := UpdateDynamic Exec rangeFields table id fields c in
  sent out.1 = sent c ++ [stmt] ∧
  db out.1 = (Exec stmt (db c)).1 ∧
  out.2 = (Exec stmt (db c)).2 ∧
  last stmt.2 = Some (VString id) ∧
  length stmt.2 = length kvs + 1 ∧
  (∀ i col v, kvs !! i = Some (col, v) →
     assignments 1 kvs.*1 !! i = Some (quoteIdent col +:+ " = $" +:+ Str.itoa (i + 1)) ∧
     stmt.2 !! i = Some v).
Proof.
  intros Hne%map_size_non_empty_iff kvs stmt out. subst out. unfold UpdateDynamic.
  destruct (Nat.eqb_spec (size fields) 0) as [|_]; [done|].
  destruct (updateStep_fold_closed (rangeFields fields)
              {| parts := []; params := []; bound := []; next := 1 |}) as (H1 & H2 & _).
  cbv zeta in H1, H2. cbn [parts bound next app] in H1, H2. rewrite H1, H2. fold kvs.
  assert (length (kvs.*2 ++ [VString id]) = length kvs.*1 + 1) as Hlen
    by (rewrite length_app, !length_fmap; done).
  rewrite Hlen. change (updateQuery table kvs.*1, kvs.*2 ++ [VString id]) with stmt.
  unfold exec.
  change ("UPDATE " +:+ quoteIdent table +:+ " SET " +:+ Str.Join (assignments 1 kvs.*1) ", "
            +:+ " WHERE id = $" +:+ Str.itoa (length kvs.*1 + 1))
    with (updateQuery table kvs.*1).
  change (updateQuery table kvs.*1, kvs.*2 ++ [VString id]) with stmt.
  destruct (Exec stmt (db c)) as [d r]. cbn [fst snd db sent].
  split; [done|]. split; [done|]. split; [done|]. split; [|split].
  - subst stmt. cbn [snd]. apply last_snoc.
  - subst stmt. cbn [snd]. by rewrite length_app, length_fmap.
  - intros i col v Hi. split.
    + unfold assignments. rewrite list_lookup_imap, list_lookup_fmap, Hi.
      by rewrite (Nat.add_comm 1 i).
    + subst stmt. cbn [snd]. rewrite lookup_app_l.
      * by rewrite list_lookup_fmap, Hi.
      * rewrite length_fmap. by eapply lookup_lt_Some.
Qed.

Lemma UpdateDynamic_statement_witness :
  ({[ "name" := VString "x" ]} : gmap string value) ≠ ∅ ∧
  sent (UpdateDynamic (λ _ (d : nat), (S d, None)) map_to_list "widgets" "9"
          {[ "name" := VString "x" ]} {| db := 0; sent := [] |}).1
    = [(updateQuery "widgets" ["name"], [VString "x"; VString "9"])].
Proof.
  assert (({[ "name" := VString "x" ]} : gmap string value) ≠ ∅) as H1.
  { intros H. apply (f_equal (λ m : gmap string value, m !! "name")) in H.
    by rewrite lookup_singleton_eq, lookup_empty in H. }
  split; [exact H1|].
  destruct (UpdateDynamic_statement (λ _ (d : nat), (S d, None)) map_to_list "widgets" "9"
              {[ "name" := VString "x" ]} {| db := 0; sent := [] |} H1) as (Hs & _).
  exact Hs.
Defined.

Example updateQuery_sample :
  updateQuery "widgets" ["name"; "size"] =
    "UPDATE " +:+ quoteIdent "widgets" +:+ " SET " +:+ quoteIdent "name" +:+ " = $1, "
      +:+ quoteIdent "size" +:+ " = $2 WHERE id = $3".
Proof. reflexivity. Qed.

Example insertQuery_sample :
  insertQuery "widgets" ["name"; "size"] =
    "INSERT INTO " +:+ quoteIdent "widgets" +:+ " (" +:+ quoteIdent "name" +:+ ", "
      +:+ quoteIdent "size" +:+ ") VALUES ($1, $2) RETURNING id".
Proof. reflexivity. Qed.

(** ** The [POST /page/:id] handler *)

Lemma splitField_fold rels payload m2m :
  let out := foldl splitField (payload, m2m) rels in
  (∀ k, out.1 !! k = if decide (k ∈ manyToManyColumns rels) then None else payload !! k) ∧
  (∀ k, out.2 !! k =
          if decide (k ∈ manyToManyColumns rels) then
            match payload !! k with
            | Some (VList arr) => Some (m2mIDs arr)
            | _ => m2m !! k
            end
          else m2m !! k).
Proof.
  unfold manyToManyColumns. revert payload m2m.
  induction rels as [|rel rels IH]; intros payload m2m; cbn [foldl].
  - split; intros k; rewrite decide_False; try done; by intros ?%elem_of_nil.
  - rewrite filter_cons. destruct (isManyToMany rel) eqn:Hrel.
    + rewrite decide_True by done. rewrite fmap_cons.
      destruct (splitField (payload, m2m) rel) as [payload' m2m'] eqn:Hst.
      unfold splitField in Hst. rewrite Hrel in Hst.
      assert (payload' = delete (FromColumn rel) payload) as ->.
      { repeat case_match; by simplify_eq. }
      assert (∀ k, m2m' !! k =
                     if decide (k = FromColumn rel) then
                       match payload !! k with
                       | Some (VList arr) => Some (m2mIDs arr)
                       | _ => m2m !! k
                       end
                     else m2m !! k) as Hm.
      { intros k. destruct (decide (k = FromColumn rel)) as [->|Hne].
        - repeat case_match; simplify_eq; try done; by rewrite lookup_insert_eq.
        - repeat case_match; simplify_eq; try done; by rewrite lookup_insert_ne. }
      clear Hst.
      destruct (IH (delete (FromColumn rel) payload) m2m') as [H1 H2]. cbv zeta in H1, H2.
      split; intros k.
      * rewrite H1. destruct (decide (k = FromColumn rel)) as [->|Hne].
        -- rewrite (decide_True (P := _ ∈ _ :: _)) by left.
           destruct (decide _); [done|]. by rewrite lookup_delete_eq.
        -- rewrite lookup_delete_ne by done.
           destruct (decide (k ∈ FromColumn <$> filter _ rels)) as [Hin|Hnin].
           ++ rewrite decide_True; [done|]. by right.
           ++ rewrite decide_False; [done|]. by intros [?|?]%elem_of_cons.
      * rewrite H2, Hm. destruct (decide (k = FromColumn rel)) as [->|Hne].
        -- rewrite (decide_True (P := _ ∈ _ :: _)) by left.
           rewrite lookup_delete_eq. by destruct (decide _).
        -- rewrite lookup_delete_ne by done.
           destruct (decide (k ∈ FromColumn <$> filter _ rels)) as [Hin|Hnin].
           ++ rewrite decide_True; [done|]. by right.
           ++ rewrite decide_False; [done|]. by intros [?|?]%elem_of_cons.
    + rewrite decide_False by done.
      replace (splitField (payload, m2m) rel) with (payload, m2m)
        by (unfold splitField; by rewrite Hrel).
      apply IH.
Qed.

(** X17.  Before the insert, the handler takes every source column of a
    many-to-many relation out of the payload: the fields handed to
    [InsertDynamic] are the payload without those columns, each other column
    with its value.  A many-to-many column is kept aside with its ids exactly
    when the payload holds a list there; with [null] or any other value it is
    dropped without ids. *)
Theorem payload_split (rels : list RelationDefinition) (payload : Row) :
  let out := foldl splitField (payload, ∅) rels in
  (∀ k, out.1 !! k = if decide (k ∈ manyToManyColumns rels) then None else payload !! k) ∧
  (∀ k ids, out.2 !! k = Some ids ↔
     k ∈ manyToManyColumns rels ∧ ∃ arr, payload !! k = Some (VList arr) ∧ ids = m2mIDs arr) ∧
  dom out.1 ## list_to_set (manyToManyColumns rels) ∧
  dom out.1 ⊆ dom payload.
Proof.
  intros out. destruct (splitField_fold rels payload ∅) as [H1 H2]. cbv zeta in H1, H2.
  fold out in H1, H2. split; [done|]. split; [|split].
  - intros k ids. rewrite H2. destruct (decide (k ∈ manyToManyColumns rels)) as [Hin|Hnin].
    + destruct (payload !! k) as [[]|]; rewrite ?lookup_empty; try naive_solver.
    + rewrite lookup_empty. naive_solver.
  - intros k Hk Hin. apply elem_of_list_to_set in Hin. apply elem_of_dom in Hk as [v Hv].
    rewrite H1, decide_True in Hv by done. done.
  - intros k Hk. apply elem_of_dom in Hk as [v Hv]. rewrite H1 in Hv.
    destruct (decide _); [done|]. by apply elem_of_dom_2 in Hv.
Qed.

Section CreateItemFacts.

Context {DB : Type}.
Variable Exec : Stmt → DB → DB * option error.

Lemma insertEdges_sent query leftID rightIDs (c : Conn DB) :
  ∃ n, sent (insertEdges Exec query leftID rightIDs c).1 =
         sent c ++ ((λ r, (query, [VString leftID; VString r]) : Stmt) <$> take n rightIDs) ∧
       (rightIDs ≠ [] → 0 < n).
Proof.
  revert c. induction rightIDs as [|r rest IH]; intros c.
  - exists 0. cbn. by rewrite app_nil_r.
  - cbn [insertEdges]. unfold exec. destruct (Exec _ (db c)) as [d [e|]].
    + exists 1. cbn. split; [done|lia].
    + destruct (IH {| db := d; sent := sent c ++ [(query, [VString leftID; VString r])] |})
        as (n & Hn & _).
      exists (S n). cbn [take fmap list_fmap]. rewrite Hn. cbn [sent].
      rewrite <- app_assoc. split; [done|lia].
Qed.

Lemma writePivot_sent table newID m2mFields (c : Conn DB) rel :
  ∃ extra, sent (writePivot Exec table newID m2mFields c rel) = sent c ++ extra ∧
           Forall (λ st : Stmt, ∃ pivot r, st = pivotInsert pivot newID r) extra ∧
           (∀ r rest, isManyToMany rel = true →
                      m2mFields !! FromColumn rel = Some (r :: rest) →
                      pivotInsert (pivotTableName table rel) newID r ∈ extra).
Proof.
  unfold writePivot. destruct (isManyToMany rel) eqn:Hrel; cbn [negb].
  2: { exists []. rewrite app_nil_r. split; [done|]. split; [done|]. done. }
  destruct (m2mFields !! FromColumn rel) as [[|r rest]|] eqn:Hids; cbn [default length Nat.eqb].
  1,3: exists []; rewrite app_nil_r; split; [done|]; split; [done|]; done.
  unfold InsertPivotM2M. cbn [length Nat.eqb].
  destruct (insertEdges_sent (insertPivotQuery (pivotTableName table rel)) newID (r :: rest) c)
    as (n & Hn & Hpos).
  eexists. split; [exact Hn|]. split.
  - apply Forall_fmap, Forall_forall. intros x _. by exists (pivotTableName table rel), x.
  - intros r' rest' _ [= <- <-]. destruct n as [|n]; [specialize (Hpos ltac:(done)); lia|].
    cbn [take fmap list_fmap]. left.
Qed.

Lemma writePivot_fold_sent table newID m2mFields rels (c : Conn DB) :
  ∃ extra, sent (foldl (writePivot Exec table newID m2mFields) c rels) = sent c ++ extra ∧
           Forall (λ st : Stmt, ∃ pivot r, st = pivotInsert pivot newID r) extra ∧
           (∀ rel r rest, rel ∈ rels → isManyToMany rel = true →
                          m2mFields !! FromColumn rel = Some (r :: rest) →
                          pivotInsert (pivotTableName table rel) newID r ∈ extra).
Proof.
  revert c. induction rels as [|rel rels IH]; intros c; cbn [foldl].
  - exists []. rewrite app_nil_r. split; [done|]. split; [done|].
    intros ??? Hin. by apply elem_of_nil in Hin.
  - destruct (writePivot_sent table newID m2mFields c rel) as (e1 & H1 & H2 & H3).
    destruct (IH (writePivot Exec table newID m2mFields c rel)) as (e2 & H4 & H5 & H6).
    exists (e1 ++ e2). rewrite H4, H1, <- app_assoc. split; [done|]. split.
    + by apply Forall_app.
    + intros rel' r rest Hin Hm Hids. apply elem_of_app.
      apply elem_of_cons in Hin as [->|Hin]; [left; by eapply H3|right; by eapply H6].
Qed.

End CreateItemFacts.

(** X18.  The create handler sends nothing and answers 400 when the page
    has no table.  When every field of the payload is the source column of a
    many-to-many relation (or the payload is empty), it sends nothing either
    and answers 500 with the empty-payload error of [InsertDynamic]: the
    relation ids of such a payload are not written.  When the insert is
    refused by the database, it answers 500 with that error and the insert
    is the only statement sent: no pivot edge is written. *)
Theorem createItem_failures {DB : Type}
    (Exec : Stmt → DB → DB * option error)
    (QueryRowScan : Stmt → DB → DB * (string + error))
    (rangeFields : gmap string value → list (string * value))
    (table : string) (rels : list RelationDefinition) (payload : Row) (c : Conn DB) :
  let simpleFields := (foldl splitField (payload, ∅) rels).1 in
  let stmt : Stmt :=
    (insertQuery table (rangeFields simpleFields).*1, (rangeFields simpleFields).*2) in
  (table = EmptyString →
     createItem Exec QueryRowScan rangeFields table rels payload c
       = (c, BadRequest "TableName manquant")) ∧
  (table ≠ EmptyString ∧ dom payload ⊆ list_to_set (manyToManyColumns rels) →
     createItem Exec QueryRowScan rangeFields table rels payload c
       = (c, InternalServerError "aucune donnée à insérer")) ∧
  (∀ d e, table ≠ EmptyString ∧ simpleFields ≠ ∅ ∧ QueryRowScan stmt (db c) = (d, inr e) →
     createItem Exec QueryRowScan rangeFields table rels payload c
       = ({| db := d; sent := sent c ++ [stmt] |}, InternalServerError e)).
Proof.
  intros simpleFields stmt. split; [|split].
  - intros ->. done.
  - intros [Hne%String.eqb_neq Hdom]. unfold createItem. rewrite Hne.
    assert (simpleFields = ∅) as He.
    { apply map_eq. intros k. rewrite lookup_empty. subst simpleFields.
      destruct (splitField_fold rels payload ∅) as [H1 _]. cbv zeta in H1. rewrite H1.
      destruct (decide _) as [|Hnin]; [done|]. apply not_elem_of_dom. intros Hk.
      apply Hnin. apply Hdom in Hk. by apply elem_of_list_to_set in Hk. }
    subst simpleFields. destruct (foldl splitField (payload, ∅) rels) as [simple m2m].
    cbn [fst] in He. subst simple. unfold InsertDynamic. by rewrite map_size_empty.
  - intros d e (Hne%String.eqb_neq & Hsimple & Hq). unfold createItem. rewrite Hne.
    subst simpleFields stmt. destruct (foldl splitField (payload, ∅) rels) as [simple m2m].
    cbn [fst] in *. rewrite InsertDynamic_nonempty by done.
    unfold queryRowScan. by rewrite Hq.
Qed.

(** X19.  Once [InsertDynamic] returned an id, the create handler answers
    201 with that id whatever the pivot inserts do: their errors do not reach
    the answer.  After the insert, the only statements it sends are pivot
    inserts whose left id is the new id, and for every many-to-many relation
    with at least one id in the payload the insert of its first edge is sent,
    also when the pivot writes of an earlier relation failed. *)
Theorem createItem_pivot_errors_dropped {DB : Type}
    (Exec : Stmt → DB → DB * option error)
    (QueryRowScan : Stmt → DB → DB * (string + error))
    (rangeFields : gmap string value → list (string * value))
    (table : string) (rels : list RelationDefinition) (payload : Row) (c : Conn DB)
    (d : DB) (newID : string) :
  let split := foldl splitField (payload, ∅) rels in
  let stmt : Stmt := (insertQuery table (rangeFields split.1).*1, (rangeFields split.1).*2) in
  table ≠ EmptyString →
  split.1 ≠ ∅ →
  QueryRowScan stmt (db c) = (d, inl newID) →
  let out := createItem Exec QueryRowScan rangeFields table rels payload c in
  out.2 = Created newID ∧
  ∃ extra, sent out.1 = sent c ++ [stmt] ++ extra ∧
           Forall (λ st : Stmt, ∃ pivot r, st = pivotInsert pivot newID r) extra ∧
           (∀ rel r rest, rel ∈ rels → isManyToMany rel = true →
                          split.2 !! FromColumn rel = Some (r :: rest) →
                          pivotInsert (pivotTableName table rel) newID r ∈ extra).
Proof.
  intros split stmt Hne%String.eqb_neq Hsimple Hq out. subst out. unfold createItem.
  rewrite Hne. subst split stmt. destruct (foldl splitField (payload, ∅) rels) as [simple m2m].
  cbn [fst snd] in *. rewrite InsertDynamic_nonempty by done.
  unfold queryRowScan. rewrite Hq. cbn [fst snd]. split; [done|].
  destruct (writePivot_fold_sent Exec table newID m2m rels
              {| db := d;
                 sent := sent c ++ [(insertQuery table (rangeFields simple).*1,
                                     (rangeFields simple).*2)] |})
    as (extra & H1 & H2 & H3).
  exists extra. rewrite H1. cbn [sent]. rewrite <- app_assoc. done.
Qed.

Lemma createItem_pivot_errors_dropped_witness :
  let payload : Row := <["name" := VString "x"]> tagsOnlyPayload in
  let QueryRowScan := λ (_ : Stmt) (d : list (string * string)), (d, inl "42" : string + error) in
  let c := {| db := []; sent := [] |} in
  "pages" ≠ EmptyString ∧
  (foldl splitField (payload, ∅) [tagsRel]).1 ≠ ∅ ∧
  (createItem (λ st d, (d, Some "no such table")) QueryRowScan map_to_list
     "pages" [tagsRel] payload c).2 = Created "42" ∧
  ∃ extra,
    sent (createItem (λ st d, (d, Some "no such table")) QueryRowScan map_to_list
            "pages" [tagsRel] payload c).1
      = [] ++ [(insertQuery "pages" ["name"], [VString "x"])] ++ extra ∧
    pivotInsert "pages_tags_tags" "42" "7" ∈ extra.
Proof.
  intros payload QueryRowScan c.
  assert ("pages" ≠ EmptyString) as H1 by discriminate.
  assert ((foldl splitField (payload, ∅) [tagsRel]).1 ≠ ∅) as H2.
  { intros H. apply (f_equal (λ m : Row, m !! "name")) in H. vm_compute in H. discriminate. }
  split; [exact H1|]. split; [exact H2|].
  destruct (createItem_pivot_errors_dropped (λ st d, (d, Some "no such table")) QueryRowScan
              map_to_list "pages" [tagsRel] payload c [] "42" H1 H2 eq_refl)
    as (Hr & extra & Hs & _ & Hfirst).
  split; [exact Hr|]. exists extra. split; [exact Hs|].
  apply (Hfirst tagsRel "7" ["9"]); [left|reflexivity|reflexivity].
Defined.

Example createItem_relations_only :
  createItem (λ st (d : nat), (d, None)) (λ st d, (d, inl "42")) map_to_list
    "pages" [tagsRel] tagsOnlyPayload {| db := 0; sent := [] |}
  = ({| db := 0; sent := [] |}, InternalServerError "aucune donnée à insérer").
Proof. vm_compute. reflexivity. Qed.





(** ** Batch texts *)

Lemma issued_texts_values_free (order order' : list (string * list string)) :
  order.*1 = order'.*1 →
  length <$> order.*2 = length <$> order'.*2 →
  (issued <$> filter (λ d : string * list string, d.2 ≠ []) order).*1 =
  (issued <$> filter (λ d : string * list string, d.2 ≠ []) order').*1.
Proof.
  revert order'. induction order as [|[t ids] order IH]; intros [|[t' ids'] order'] Ht Hl;
    try done.
  simpl in Ht, Hl. injection Ht as <- Ht. injection Hl as Hlen Hl.
  rewrite !filter_cons. cbn [snd].
  destruct ids as [|i ids], ids' as [|i' ids']; try done.
  - rewrite !decide_False by (by intros H; apply H). by apply IH.
  - rewrite !decide_True by done. rewrite !fmap_cons. f_equal; [|by apply IH].
    unfold issued. cbn [fst snd]. by apply selectByIds_values_free.
Qed.

(** X21.  The texts of the batch queries are fixed by the tables walked and
    by how many ids each has: two runs over the same tables with as many ids
    each, on any two databases, send the same texts, and each statement
    carries its ids as arguments, one string per placeholder. *)
Theorem batchLoadRelated_texts_values_free
    (Query Query' : string → list value → option Rows)
    (order order' : list (string * list string)) :
  order.*1 = order'.*1 →
  length <$> order.*2 = length <$> order'.*2 →
  (batchLoadRelated Query order).2.*1 = (batchLoadRelated Query' order').2.*1 ∧
  Forall (λ st : Stmt, ∃ table ids, (table, ids) ∈ order ∧
                         st.1 = selectByIds table ids ∧ st.2 = VString <$> ids ∧
                         length st.2 = length (placeholders ids))
         (batchLoadRelated Query order).2.
Proof.
  intros Ht Hl. rewrite !batchLoadRelated_log. split; [by apply issued_texts_values_free|].
  apply Forall_fmap, Forall_forall. intros [t ids] Hin.
  apply list_elem_of_filter in Hin as [_ Hin]. exists t, ids. cbn.
  split; [done|]. split; [done|]. split; [done|].
  unfold placeholders. by rewrite length_fmap, length_imap.
Qed.

Lemma batchLoadRelated_texts_values_free_witness :
  [("tags", ["1"; "2"])].*1 = [("tags", ["8"; "9"])].*1 ∧
  length <$> [("tags", ["1"; "2"])].*2 = length <$> [("tags", ["8"; "9"])].*2 ∧
  (batchLoadRelated demoQuery [("tags", ["1"; "2"])]).2.*1 =
  (batchLoadRelated (λ _ _, None) [("tags", ["8"; "9"])]).2.*1.
Proof.
  split; [reflexivity|]. split; [reflexivity|].
  destruct (batchLoadRelated_texts_values_free demoQuery (λ _ _, None)
              [("tags", ["1"; "2"])] [("tags", ["8"; "9"])] eq_refl eq_refl) as [H _].
  exact H.
Defined.

(** ** The pivot layer against the reference store *)

Lemma edgesOf_keepOthers_other leftID other rows :
  other ≠ leftID →
  PivotStore.edgesOf other (PivotStore.keepOthers leftID rows) = PivotStore.edgesOf other rows.
Proof.
  intros Hne. unfold PivotStore.edgesOf, PivotStore.keepOthers.
  induction rows as [|e rows IH]; [done|]. rewrite !filter_cons.
  destruct (decide (e.1 ≠ leftID)) as [He|He].
  - rewrite filter_cons. destruct (decide (e.1 = other)); by rewrite IH.
  - rewrite decide_False; [done|]. intros Heq. apply He. congruence.
Qed.

(** X22.  Against the reference store, [ClearPivot] sends one [DELETE] with
    the left id bound: on an existing pivot table it removes the edges of that
    left id, all of them and no other, keeping the order of the rest, and a
    second call changes nothing more; on a missing table it reports the
    error and leaves the store as it is. *)
Theorem ClearPivot_store
    (pivotTable leftID : string) (d : PivotStore.DB) (log : list Stmt) :
  let out := ClearPivot PivotStore.Exec pivotTable leftID {| db := d; sent := log |} in
  sent out.1 = log ++ [(clearPivotQuery pivotTable, [VString leftID])] ∧
  (∀ rows, d !! pivotTable = Some rows →
     out.2 = None ∧
     db out.1 = <[pivotTable := PivotStore.keepOthers leftID rows]> d ∧
     PivotStore.edgesOf leftID (PivotStore.keepOthers leftID rows) = [] ∧
     (∀ other, other ≠ leftID →
        PivotStore.edgesOf other (PivotStore.keepOthers leftID rows)
          = PivotStore.edgesOf other rows) ∧
     db (ClearPivot PivotStore.Exec pivotTable leftID out.1).1 = db out.1) ∧
  (d !! pivotTable = None → is_Some out.2 ∧ db out.1 = d).
Proof.
  intros out. subst out. unfold ClearPivot, exec. cbn [db sent]. rewrite store_clear.
  split; [by destruct (d !! pivotTable)|]. split.
  - intros rows Hrows. rewrite Hrows. cbn [fst snd db]. split; [done|]. split; [done|].
    split; [|split].
    + pose proof (edgesOf_rewritten leftID rows []) as He.
      by rewrite fmap_nil, app_nil_r in He.
    + intros other Hne. by apply edgesOf_keepOthers_other.
    + rewrite store_clear, lookup_insert_eq. cbn [fst db].
      by rewrite insert_insert_eq, keepOthers_idemp.
  - intros Hnone. rewrite Hnone. cbn. split; [by eexists|done].
Qed.

(** X23.  Against the reference store, [InsertPivotM2M] writes the edges as
    given: on an existing pivot table it appends one edge per element of the
    list, in order and without removing repetitions, after the rows already
    there; on a missing table the first insert fails, its error is returned,
    it is the only statement sent and the store is left as it is.  An empty
    list sends nothing. *)
Theorem InsertPivotM2M_store
    (pivotTable leftID : string) (rightIDs : list string)
    (d : PivotStore.DB) (log : list Stmt) :
  let out := InsertPivotM2M PivotStore.Exec pivotTable leftID rightIDs
               {| db := d; sent := log |} in
  (rightIDs = [] → out = ({| db := d; sent := log |}, None)) ∧
  (∀ rows, d !! pivotTable = Some rows →
     out = ({| db := <[pivotTable := rows ++ (pair leftID <$> rightIDs)]> d;
               sent := log ++ (pivotInsert pivotTable leftID <$> rightIDs) |}, None)) ∧
  (∀ r rest, d !! pivotTable = None → rightIDs = r :: rest →
     is_Some out.2 ∧ db out.1 = d ∧ sent out.1 = log ++ [pivotInsert pivotTable leftID r]).
Proof.
  intros out. subst out. split; [|split].
  - intros ->. done.
  - intros rows Hrows. unfold InsertPivotM2M. destruct rightIDs as [|r rest].
    + cbn [length Nat.eqb fmap list_fmap]. rewrite !app_nil_r. by rewrite insert_id.
    + cbn [length Nat.eqb].
      apply (insertEdges_all PivotStore.Exec pivotTable leftID (r :: rest)
               {| db := d; sent := log |}).
      cbn [db]. by apply store_steps.
  - intros r rest Hnone ->. unfold InsertPivotM2M. cbn [length Nat.eqb insertEdges].
    unfold exec. cbn [db sent].
    change (insertPivotQuery pivotTable, [VString leftID; VString r])
      with (pivotInsert pivotTable leftID r).
    rewrite store_insert, Hnone. cbn. split; [by eexists|done].
Qed.
